(** * scripts/cleanup.py: size and age formatting, directory probing,
      move-candidate scanning and the CSV manifest.

    The development embeds [scripts/cleanup.py]: [format_size],
    [format_age], [dir_size], [report_path], [parse_size],
    [scan_move_candidates], the two manifest writers, [run_move] and
    [main] on the options [argparse] hands it.

    Conventions of the embedding.
    - A Python [int] is a [Z].
    - A Python [float] is an IEEE-754 binary64 value.  A finite value is
      represented by the rational number it denotes (always in lowest
      terms); every arithmetic operation computes the exact rational
      result and rounds it to the nearest binary64 value, ties to even
      ([round64]).  Signed zeros are not distinguished.
    - A Python [str] is a [string] whose characters are the code points
      0..255 (Latin-1), classified as Python classifies them.
    - A raised exception is an [Err] result carrying the exception class
      and its message.
    - The clock ([time.time]) and the file system are explicit arguments. *)

From Stdlib Require Import ZArith QArith Qround Qabs Qpower Bool List Lia Lqa.
From Stdlib Require Import Ascii String DecimalString.
From Stdlib Require DecimalPos.
From Stdlib Require Import Sorting.Sorted Sorting.Permutation.
Import ListNotations.

Local Open Scope Z_scope.

(** ** Exceptions and results *)

Inductive exn : Type :=
| ValueError (msg : string)
| OverflowError (msg : string)
| ZeroDivisionError (msg : string)
| OSError (msg : string).

Inductive result (A : Type) : Type :=
| Ok (a : A)
| Err (e : exn).
Arguments Ok {A} a.
Arguments Err {A} e.

Definition bind {A B : Type} (r : result A) (k : A -> result B) : result B :=
  match r with
  | Ok a => k a
  | Err e => Err e
  end.

Notation "x <- r ;; k" := (bind r (fun x => k))
  (at level 61, r at next level, right associativity).

Definition is_ValueError {A : Type} (r : result A) : Prop :=
  match r with
  | Err (ValueError _) => True
  | _ => False
  end.

Definition is_OverflowError {A : Type} (r : result A) : Prop :=
  match r with
  | Err (OverflowError _) => True
  | _ => False
  end.

(** ** Python floats *)

Module PyFloat.

Inductive float : Type :=
| Fin (q : Q)
| Inf (negative : bool)
| NaN.

(** [pow2 e] is the rational [2^e]. *)
Definition pow2 (e : Z) : Q :=
  if 0 <=? e then inject_Z (2 ^ e) else 1 # Z.to_pos (2 ^ (- e)).

Definition Qltb (x y : Q) : bool := negb (Qle_bool y x).

(** [ilog2 q] is [floor (log2 q)] for a positive rational [q]. *)
Definition ilog2 (q : Q) : Z :=
  let l := Z.log2 (Qnum q) - Z.log2 (Zpos (Qden q)) in
  if Qle_bool (pow2 l) q then l else l - 1.

(** Rounding of a rational to the nearest integer, ties to the even one. *)
Definition round_half_even (q : Q) : Z :=
  let f := Qfloor q in
  match ((q - inject_Z f) ?= (1 # 2))%Q with
  | Lt => f
  | Gt => f + 1
  | Eq => if Z.even f then f else f + 1
  end.

(** binary64: 53 significant bits, least exponent of a unit in the last
    place [-1074], overflow at [2^1024]. *)
Definition round64_pos (q : Q) : float :=
  let e := ilog2 q in
  let p := Z.max (e - 52) (-1074) in
  let m := round_half_even (q / pow2 p) in
  let v := (inject_Z m * pow2 p)%Q in
  if Qle_bool (pow2 1024) v then Inf false else Fin (Qred v).

Definition round64 (q : Q) : float :=
  match Qnum q with
  | Z0 => Fin 0
  | Zpos _ => round64_pos q
  | Zneg _ =>
      match round64_pos (- q) with
      | Fin v => Fin (Qred (- v))
      | Inf _ => Inf true
      | NaN => NaN
      end
  end.

(** [float(n)] for an [int]: correctly rounded and always finite,
    [OverflowError] when the integer is too large. *)
Definition float_of_int (n : Z) : result Q :=
  match round64 (inject_Z n) with
  | Fin q => Ok q
  | _ => Err (OverflowError "int too large to convert to float")
  end.

(** [x - y] on finite operands. *)
Definition fsub (x y : Q) : float := round64 (x - y).

(** [x * y] with a finite right operand. *)
Definition fmul (x : float) (y : Q) : float :=
  match x with
  | Fin a => round64 (a * y)
  | Inf s =>
      match Qnum y with
      | Z0 => NaN
      | Zpos _ => Inf s
      | Zneg _ => Inf (negb s)
      end
  | NaN => NaN
  end.

(** [x / y] with a finite right operand. *)
Definition fdiv (x : float) (y : Q) : result float :=
  match Qnum y with
  | Z0 => Err (ZeroDivisionError "float division by zero")
  | Zpos _ =>
      Ok match x with
         | Fin a => round64 (a / y)
         | Inf s => Inf s
         | NaN => NaN
         end
  | Zneg _ =>
      Ok match x with
         | Fin a => round64 (a / y)
         | Inf s => Inf (negb s)
         | NaN => NaN
         end
  end.

(** [x < y]. *)
Definition flt (x y : float) : bool :=
  match x, y with
  | Fin a, Fin b => Qltb a b
  | Fin _, Inf s => negb s
  | Inf s, Fin _ => s
  | Inf s, Inf t => s && negb t
  | _, _ => false
  end.

(** Truncation toward zero of a rational. *)
Definition Qtrunc (q : Q) : Z := Z.quot (Qnum q) (Zpos (Qden q)).

(** [int(x)]. *)
Definition int_of_float (x : float) : result Z :=
  match x with
  | Fin q => Ok (Qtrunc q)
  | Inf _ => Err (OverflowError "cannot convert float infinity to integer")
  | NaN => Err (ValueError "cannot convert float NaN to integer")
  end.

End PyFloat.
Import PyFloat.

Local Open Scope string_scope.

(** ** Python strings *)

Module PyStr.

Definition code (c : ascii) : N := N_of_ascii c.

Definition in_range (lo hi : N) (c : ascii) : bool :=
  ((lo <=? code c) && (code c <=? hi))%N.

(** [str.isdigit]: the ASCII digits and the superscript digits. *)
Definition isdigit (c : ascii) : bool :=
  in_range 48 57 c || in_range 178 179 c || in_range 185 185 c.

(** The ASCII digits, the only characters [float] reads as digits. *)
Definition is_ascii_digit (c : ascii) : bool := in_range 48 57 c.

(** [str.isalpha]. *)
Definition isalpha (c : ascii) : bool :=
  in_range 65 90 c || in_range 97 122 c || in_range 170 170 c
  || in_range 181 181 c || in_range 186 186 c || in_range 192 214 c
  || in_range 216 246 c || in_range 248 255 c.

(** [str.isspace]. *)
Definition isspace (c : ascii) : bool :=
  in_range 9 13 c || in_range 28 32 c || in_range 133 133 c
  || in_range 160 160 c.

(** [str.lower] on one character. *)
Definition lower_char (c : ascii) : ascii :=
  if in_range 65 90 c || in_range 192 214 c || in_range 216 222 c
  then ascii_of_N (code c + 32)
  else c.

Fixpoint lower (s : string) : string :=
  match s with
  | "" => ""
  | String c r => String (lower_char c) (lower r)
  end.

(** ["".join(ch for ch in s if keep ch)]. *)
Fixpoint filter (keep : ascii -> bool) (s : string) : string :=
  match s with
  | "" => ""
  | String c r => if keep c then String c (filter keep r) else filter keep r
  end.

Fixpoint forallb (p : ascii -> bool) (s : string) : bool :=
  match s with
  | "" => true
  | String c r => p c && forallb p r
  end.

Fixpoint lstrip (s : string) : string :=
  match s with
  | "" => ""
  | String c r => if isspace c then lstrip r else s
  end.

Fixpoint rstrip (s : string) : string :=
  match s with
  | "" => ""
  | String c r =>
      match rstrip r with
      | "" => if isspace c then "" else String c ""
      | r' => String c r'
      end
  end.

(** [str.strip]. *)
Definition strip (s : string) : string := rstrip (lstrip s).

(** [sub in s]. *)
Fixpoint contains (sub s : string) : bool :=
  prefix sub s ||
  match s with
  | "" => false
  | String _ r => contains sub r
  end.

Definition endswith_slash (s : string) : bool :=
  match get (length s - 1) s with
  | Some c => Ascii.eqb c "/"
  | None => false
  end.

(** [str(n)] for an [int]. *)
Definition str_of_int (n : Z) : string := NilZero.string_of_int (Z.to_int n).

Definition digit_value (c : ascii) : Z := Z.of_N (code c) - 48.

(** The number written by a string of ASCII digits, most significant
    first, continuing from [acc]. *)
Fixpoint digits_value (acc : Z) (s : string) : Z :=
  match s with
  | "" => acc
  | String c r => digits_value (10 * acc + digit_value c) r
  end.

(** The characters before the first ['.'] and those after it ([None] when
    there is no ['.']). *)
Fixpoint split_dot (s : string) : string * option string :=
  match s with
  | "" => ("", None)
  | String c r =>
      if Ascii.eqb c "."
      then ("", Some r)
      else let '(i, f) := split_dot r in (String c i, f)
  end.

(** [float(s)] for a string [s] of [isdigit] characters and dots, the only
    strings [parse_size] passes to it: [s] must be ASCII digits with at
    most one ['.'] and at least one digit; the value is rounded to the
    nearest float. *)
Definition float_of_str (s : string) : result float :=
  let '(i, f) := split_dot s in
  let f := match f with Some f => f | None => "" end in
  if forallb is_ascii_digit i && forallb is_ascii_digit f
     && negb ((length i + length f =? 0)%nat)
  then Ok (round64 (digits_value 0 (i ++ f)
                    # Z.to_pos (10 ^ Z.of_nat (length f))))
  else Err (ValueError ("could not convert string to float: '" ++ s ++ "'")).

(** [f"{x:.1f}"]. *)
Definition format_1f (x : float) : string :=
  match x with
  | Fin q =>
      let t := round_half_even (Qabs q * 10) in
      (if Qltb q 0 then "-" else "")
      ++ str_of_int (t / 10) ++ "." ++ str_of_int (t mod 10)
  | Inf s => if s then "-inf" else "inf"
  | NaN => "nan"
  end.

End PyStr.
Import PyStr.

(** ** Size and age formatting *)

Definition KB : Z := 1024.
Definition MB : Z := 1024 * KB.
Definition GB : Z := 1024 * MB.
Definition TB : Z := 1024 * GB.

(** The [for unit in ...] loop of [format_size]; the list is exhausted
    when the loop falls through to the final [return]. *)
Fixpoint format_size_loop (units : list string) (size : float) : result string :=
  match units with
  | [] => Ok (format_1f size ++ " EB")
  | unit :: rest =>
      if flt size (Fin 1024)
      then
        if String.eqb unit "B"
        then n <- int_of_float size ;; Ok (str_of_int n ++ " " ++ unit)
        else Ok (format_1f size ++ " " ++ unit)
      else size' <- fdiv size 1024 ;; format_size_loop rest size'
  end.

Definition size_units : list string := ["B"; "KB"; "MB"; "GB"; "TB"; "PB"].

Definition format_size (num : Z) : result string :=
  size <- float_of_int num ;;
  format_size_loop size_units (Fin size).

(** [format_age ts]; [now] is the value [time.time()] returns inside the
    call, [ts = None] is Python's [None].  A timestamp is a float, as
    [st_mtime] and so every [ts] the script passes is. *)
Definition format_age (now : Q) (ts : option Q) : result string :=
  match ts with
  | None => Ok "unknown"
  | Some ts =>
      if Qltb now ts then Ok "0d"
      else
        age <- int_of_float (fsub now ts) ;;
        let days := age / 86400 in
        if (0 <? days)%Z then Ok (str_of_int days ++ "d")
        else
          let hours := age / 3600 in
          if (0 <? hours)%Z then Ok (str_of_int hours ++ "h")
          else
            let minutes := age / 60 in
            Ok (str_of_int minutes ++ "m")
  end.

(** ** Size parsing *)

Definition is_value_char (ch : ascii) : bool := isdigit ch || Ascii.eqb ch ".".

Definition value_of (text : string) : string := strip (filter is_value_char text).
Definition unit_of (text : string) : string := lower (strip (filter isalpha text)).

Definition in_units (unit : string) (l : list string) : bool :=
  existsb (String.eqb unit) l.

Definition unit_mult (unit : string) : option Z :=
  if in_units unit [""; "b"] then Some 1
  else if in_units unit ["k"; "kb"; "kib"] then Some KB
  else if in_units unit ["m"; "mb"; "mib"] then Some MB
  else if in_units unit ["g"; "gb"; "gib"] then Some GB
  else if in_units unit ["t"; "tb"; "tib"] then Some TB
  else None.

Definition parse_size (text : string) : result Z :=
  let value := value_of text in
  let unit := unit_of text in
  if String.eqb value "" then Err (ValueError ("Invalid size: " ++ text))
  else
    size <- float_of_str value ;;
    match unit_mult unit with
    | Some mult => int_of_float (fmul size (inject_Z mult))
    | None => Err (ValueError ("Unknown size unit: " ++ unit))
    end.

(** ** The file system seen by the scans *)

(** What [os.stat] returns, as far as the script reads it. *)
Record stat_result : Type := { st_size : Z; st_mtime : Q }.

(** A path resolves to a non-directory ([File], with the outcome of
    [safe_stat] on it: [None] when [os.stat] raises [OSError]) or to a
    directory with its entries in [os.scandir] order; [symlink] tells
    whether the directory is reached through a symbolic link. *)
#[local] Set Warnings "-register-all".
Inductive node : Type :=
| File (st : option stat_result)
| Dir (symlink : bool) (entries : list (string * node)).

(** Induction on a tree, with the hypothesis for every entry of a
    directory. *)
Section NodeInduction.

Variable P : node -> Prop.
Hypothesis P_File : forall st, P (File st).
Hypothesis P_Dir :
  forall symlink entries,
    Forall (fun e => P (snd e)) entries -> P (Dir symlink entries).

Fixpoint node_nested_ind (n : node) : P n :=
  match n with
  | File st => P_File st
  | Dir symlink entries =>
      P_Dir symlink entries
        ((fix entries_ind (es : list (string * node))
            : Forall (fun e => P (snd e)) es :=
            match es with
            | [] => Forall_nil _
            | (name, child) :: rest =>
                Forall_cons (name, child) (node_nested_ind child)
                  (entries_ind rest)
            end) entries)
  end.

End NodeInduction.

(** [os.path.join a b]. *)
Definition join (a b : string) : string :=
  if prefix "/" b then b
  else if String.eqb a "" || endswith_slash a then a ++ b
  else a ++ "/" ++ b.

Definition is_dir (n : node) : bool :=
  match n with
  | Dir _ _ => true
  | File _ => false
  end.

Fixpoint dirnames (entries : list (string * node)) : list string :=
  match entries with
  | [] => []
  | (name, n) :: rest =>
      if is_dir n then name :: dirnames rest else dirnames rest
  end.

(** The non-directory entries, each with the outcome of [safe_stat] on it. *)
Fixpoint filenames (entries : list (string * node))
  : list (string * option stat_result) :=
  match entries with
  | [] => []
  | (name, File st) :: rest => (name, st) :: filenames rest
  | (_, Dir _ _) :: rest => filenames rest
  end.

Definition walk_entry : Type :=
  string * list string * list (string * option stat_result).

(** [os.walk(top, topdown=True, followlinks=False)]: the triple of [top]
    first, then the walks of its sub-directories in order; directories
    behind a symbolic link are listed but not entered, and a [top] that is
    not a directory yields nothing. *)
Fixpoint walk (top : string) (n : node) : list walk_entry :=
  match n with
  | File _ => []
  | Dir _ entries =>
      (top, dirnames entries, filenames entries)
        :: (fix walk_subdirs (es : list (string * node)) : list walk_entry :=
              match es with
              | [] => []
              | (name, child) :: rest =>
                  match child with
                  | Dir false _ =>
                      (walk (join top name) child ++ walk_subdirs rest)%list
                  | _ => walk_subdirs rest
                  end
              end) entries
  end.

(** The sub-directory part of [walk], as a function of its own. *)
Fixpoint walk_subdirs (top : string) (es : list (string * node))
  : list walk_entry :=
  match es with
  | [] => []
  | (name, child) :: rest =>
      match child with
      | Dir false _ => (walk (join top name) child ++ walk_subdirs top rest)%list
      | _ => walk_subdirs top rest
      end
  end.

(** The paths that exist ([os.path.exists]) and what they resolve to. *)
Definition filesystem : Type := string -> option node.

(** ** Directory probe *)

Module Report.
Record t : Type := {
  path : string;
  size : Z;
  latest : option Q;
  scanned : Z;
  errors : Z
}.
End Report.

(** The local variables [total, latest_mtime, scanned, errors]. *)
Definition probe_state : Type := Z * option Q * Z * Z.

Inductive flow (A : Type) : Type :=
| Return (a : A)
| Continue (a : A).
Arguments Return {A} a.
Arguments Continue {A} a.

(** Truth value of [max_entries and scanned >= max_entries]. *)
Definition cap_reached (max_entries : option Z) (scanned : Z) : bool :=
  match max_entries with
  | None => false
  | Some m => (negb (m =? 0) && (m <=? scanned))%Z
  end.

(** The inner [for name in files] loop of [dir_size]. *)
Fixpoint dir_size_files (max_entries : option Z)
    (files : list (string * option stat_result)) (s : probe_state)
  : flow probe_state :=
  match files with
  | [] => Continue s
  | (name, st) :: rest =>
      let '(total, latest_mtime, scanned, errors) := s in
      match st with
      | None => dir_size_files max_entries rest (total, latest_mtime, scanned, errors + 1)
      | Some st =>
          let total := total + st_size st in
          let latest_mtime :=
            match latest_mtime with
            | None => Some (st_mtime st)
            | Some l => if Qltb l (st_mtime st) then Some (st_mtime st) else Some l
            end in
          let scanned := scanned + 1 in
          if cap_reached max_entries scanned
          then Return (total, latest_mtime, scanned, errors)
          else dir_size_files max_entries rest (total, latest_mtime, scanned, errors)
      end
  end.

(** The outer [for root, dirs, files in os.walk(...)] loop. *)
Fixpoint dir_size_walk (max_entries : option Z) (w : list walk_entry)
    (s : probe_state) : probe_state :=
  match w with
  | [] => s
  | (_, _, files) :: rest =>
      match dir_size_files max_entries files s with
      | Return r => r
      | Continue s' => dir_size_walk max_entries rest s'
      end
  end.

Definition dir_size (path : string) (n : node) (max_entries : option Z)
  : probe_state :=
  dir_size_walk max_entries (walk path n) (0, None, 0, 0).

(** [report_path]; the result [None] is Python's [None]. *)
Definition report_path (fs : filesystem) (path : string)
    (max_entries : option Z) : option Report.t :=
  match fs path with
  | None => None
  | Some n =>
      let '(size, latest, scanned, errors) := dir_size path n max_entries in
      Some {| Report.path := path; Report.size := size;
              Report.latest := latest; Report.scanned := scanned;
              Report.errors := errors |}
  end.

(** ** Move-candidate scan *)

Module Candidate.
Record t : Type := {
  path : string;
  size : Z;
  mtime : Q
}.
End Candidate.

(** [list.sort(key=..., reverse=True)]: Python's sort is stable, also
    when reversed, so the result is the one of a stable insertion sort
    by non-increasing key. *)
Section Sort.

Context {A : Type} (key : A -> Z).

Fixpoint insert_desc (x : A) (l : list A) : list A :=
  match l with
  | [] => [x]
  | y :: l' =>
      if (key y <=? key x)%Z then x :: y :: l' else y :: insert_desc x l'
  end.

Fixpoint sort_reverse (l : list A) : list A :=
  match l with
  | [] => []
  | x :: l' => insert_desc x (sort_reverse l')
  end.

End Sort.

(** The test [if "/.Trash" in dirpath or "/.git" in dirpath]. *)
Definition skip_dir (dirpath : string) : bool :=
  contains "/.Trash" dirpath || contains "/.git" dirpath.

(** The two size and age tests that precede [candidates.append]. *)
Definition qualifies (min_size : Z) (cutoff : float) (st : stat_result) : bool :=
  negb (st_size st <? min_size)%Z && negb (flt cutoff (Fin (st_mtime st))).

(** The [for name in filenames] loop: the candidates it appends. *)
Fixpoint scan_files (min_size : Z) (cutoff : float) (dirpath : string)
    (files : list (string * option stat_result)) : list Candidate.t :=
  match files with
  | [] => []
  | (name, st) :: rest =>
      let full := join dirpath name in
      match st with
      | None => scan_files min_size cutoff dirpath rest
      | Some st =>
          if (st_size st <? min_size)%Z
          then scan_files min_size cutoff dirpath rest
          else if flt cutoff (Fin (st_mtime st))
          then scan_files min_size cutoff dirpath rest
          else {| Candidate.path := full; Candidate.size := st_size st;
                  Candidate.mtime := st_mtime st |}
                 :: scan_files min_size cutoff dirpath rest
      end
  end.

(** The [for dirpath, dirnames, filenames in os.walk(...)] loop. *)
Fixpoint scan_walk (min_size : Z) (cutoff : float) (w : list walk_entry)
  : list Candidate.t :=
  match w with
  | [] => []
  | (dirpath, _, files) :: rest =>
      if skip_dir dirpath
      then scan_walk min_size cutoff rest
      else (scan_files min_size cutoff dirpath files
              ++ scan_walk min_size cutoff rest)%list
  end.

(** The [for root in roots] loop. *)
Fixpoint scan_roots (fs : filesystem) (min_size : Z) (cutoff : float)
    (roots : list string) : list Candidate.t :=
  match roots with
  | [] => []
  | root :: rest =>
      match fs root with
      | None => scan_roots fs min_size cutoff rest
      | Some n =>
          (scan_walk min_size cutoff (walk root n)
             ++ scan_roots fs min_size cutoff rest)%list
      end
  end.

Definition move_roots (home : string) : list string :=
  [ join home "Desktop"; join home "Documents"; join home "Downloads";
    join home "Movies"; join home "Pictures"; join home "Music" ].

(** [cutoff = time.time() - (min_age_days * 86400)]. *)
Definition scan_cutoff (now : Q) (min_age_days : Z) : result float :=
  age <- float_of_int (min_age_days * 86400) ;;
  Ok (fsub now age).

(** [scan_move_candidates]; [home] is [os.path.expanduser("~")] and [now]
    the value of [time.time()]. *)
Definition scan_move_candidates (fs : filesystem) (home : string) (now : Q)
    (min_size : Z) (min_age_days : Z) : result (list Candidate.t) :=
  cutoff <- scan_cutoff now min_age_days ;;
  Ok (sort_reverse Candidate.size
        (scan_roots fs min_size cutoff (move_roots home))).

(** ** CSV manifest *)

Definition newline : string := String (ascii_of_N 10) "".

(** [os.path.dirname]. *)
Fixpoint dirname_head (p : string) : string :=
  match p with
  | "" => ""
  | String c r => if contains "/" p then String c (dirname_head r) else ""
  end.

Fixpoint rstrip_slash (s : string) : string :=
  match s with
  | "" => ""
  | String c r =>
      match rstrip_slash r with
      | "" => if Ascii.eqb c "/" then "" else String c ""
      | r' => String c r'
      end
  end.

Definition dirname (p : string) : string :=
  let head := dirname_head p in
  if negb (String.eqb head "") && negb (PyStr.forallb (Ascii.eqb "/") head)
  then rstrip_slash head
  else head.

(** What the operating system allows: [makedirs_ok d] tells whether
    [os.makedirs(d, exist_ok=True)] succeeds on a non-empty [d], [open_ok p]
    whether [open(p, "w")] does. *)
Record os_env : Type := {
  makedirs_ok : string -> bool;
  open_ok : string -> bool
}.

(** The contents of the regular files. *)
Definition store : Type := string -> option string.

Definition store_write (s : store) (p content : string) : store :=
  fun p' => if String.eqb p' p then Some content else s p'.

(** [os.makedirs(d, exist_ok=True)]. *)
Definition makedirs (env : os_env) (d : string) : result unit :=
  if String.eqb d ""
  then Err (OSError "[Errno 2] No such file or directory: ''")
  else if makedirs_ok env d then Ok tt
  else Err (OSError ("cannot create directory: " ++ d)).

(** The [for item in candidates] loop of [write_move_candidates]: the
    text written so far is [buf]; the [i]-th call of [format_age] reads
    the clock value [clock i].  An exception leaves what was written. *)
Fixpoint write_rows (clock : nat -> Q) (i : nat) (items : list Candidate.t)
    (buf : string) : string * result unit :=
  match items with
  | [] => (buf, Ok tt)
  | item :: rest =>
      match format_age (clock i) (Some (Candidate.mtime item)) with
      | Err e => (buf, Err e)
      | Ok age =>
          write_rows clock (S i) rest
            (buf ++ Candidate.path item ++ "," ++ str_of_int (Candidate.size item)
                 ++ "," ++ age ++ newline)
      end
  end.

(** [write_move_candidates]: the files after the call and its outcome. *)
Definition write_move_candidates (env : os_env) (clock : nat -> Q)
    (candidates : list Candidate.t) (output_path : string) (s : store)
  : store * result unit :=
  match makedirs env (dirname output_path) with
  | Err e => (s, Err e)
  | Ok _ =>
      if open_ok env output_path
      then
        let '(buf, r) :=
          write_rows clock 0 candidates ("path,size_bytes,age" ++ newline) in
        (store_write s output_path buf, r)
      else (s, Err (OSError ("cannot open: " ++ output_path)))
  end.

(** ** Vocabulary of the statements *)

(** Two outcomes agree up to the text of the exception message. *)
Definition same_outcome {A : Type} (r1 r2 : result A) : Prop :=
  match r1, r2 with
  | Ok a, Ok b => a = b
  | Err (ValueError _), Err (ValueError _) => True
  | Err (OverflowError _), Err (OverflowError _) => True
  | Err (ZeroDivisionError _), Err (ZeroDivisionError _) => True
  | Err (OSError _), Err (OSError _) => True
  | _, _ => False
  end.

(** The number of characters of [s] that satisfy [p]. *)
Fixpoint count (p : ascii -> bool) (s : string) : nat :=
  match s with
  | "" => O
  | String c r => if p c then S (count p r) else count p r
  end.

(** A numeric portion that is a decimal numeral: ASCII digits and dots
    only, at most one dot, at least one digit. *)
Definition well_formed_number (v : string) : bool :=
  PyStr.forallb (fun c => is_ascii_digit c || Ascii.eqb c ".") v
  && (count (Ascii.eqb ".") v <=? 1)%nat
  && (1 <=? count is_ascii_digit v)%nat.

(** The digits after the dot, if any. *)
Definition frac_of (f : option string) : string :=
  match f with
  | Some f => f
  | None => ""
  end.

(** The recognised unit suffixes with the exponent of 1024 each stands for. *)
Definition unit_table : list (list string * Z) :=
  [ ([""; "b"], 0); (["k"; "kb"; "kib"], 1); (["m"; "mb"; "mib"], 2);
    (["g"; "gb"; "gib"], 3); (["t"; "tb"; "tib"], 4) ]%Z.

(** The components of a path: [p.split("/")]. *)
Fixpoint split_slash (p : string) : list string :=
  match p with
  | "" => [""]
  | String c r =>
      if Ascii.eqb c "/" then "" :: split_slash r
      else match split_slash r with
           | seg :: rest => String c seg :: rest
           | [] => [String c ""]
           end
  end.

Definition reserved_names : list string := [".Trash"; ".git"].

(** Some component of the path is exactly a reserved name. *)
Definition has_reserved_segment (p : string) : bool :=
  existsb (fun seg => existsb (String.eqb seg) reserved_names) (split_slash p).

(** Some component after the first begins with a reserved name. *)
Definition has_reserved_prefix (p : string) : bool :=
  existsb (fun seg => existsb (fun r => prefix r seg) reserved_names)
    (tl (split_slash p)).

(** Directory entries as [os.scandir] gives them: no name contains a
    slash. *)
Fixpoint wf_names (n : node) : bool :=
  match n with
  | File _ => true
  | Dir _ entries =>
      List.forallb
        (fun e => match e with
                  | (name, child) => negb (contains "/" name) && wf_names child
                  end) entries
  end.

(** The files the scan reaches: those of the directories it does not
    skip, on which [safe_stat] succeeds, with their full path. *)
Fixpoint visited_files (dirpath : string)
    (files : list (string * option stat_result)) : list (string * stat_result) :=
  match files with
  | [] => []
  | (name, Some st) :: rest => (join dirpath name, st) :: visited_files dirpath rest
  | (_, None) :: rest => visited_files dirpath rest
  end.

Fixpoint visited_walk (w : list walk_entry) : list (string * stat_result) :=
  match w with
  | [] => []
  | (dirpath, _, files) :: rest =>
      if skip_dir dirpath then visited_walk rest
      else (visited_files dirpath files ++ visited_walk rest)%list
  end.

Fixpoint visited_roots (fs : filesystem) (roots : list string)
  : list (string * stat_result) :=
  match roots with
  | [] => []
  | root :: rest =>
      match fs root with
      | None => visited_roots fs rest
      | Some n => (visited_walk (walk root n) ++ visited_roots fs rest)%list
      end
  end.

Definition candidate_of (f : string * stat_result) : Candidate.t :=
  {| Candidate.path := fst f; Candidate.size := st_size (snd f);
     Candidate.mtime := st_mtime (snd f) |}.

(** [mtime <= cutoff] for a finite [mtime]. *)
Definition not_after (mtime : Q) (cutoff : float) : Prop :=
  match cutoff with
  | Fin c => (mtime <= c)%Q
  | Inf negative => negative = false
  | NaN => False
  end.

Definition by_size_desc (a b : Candidate.t) : Prop :=
  (Candidate.size b <= Candidate.size a)%Z.

Definition has_size (k : Z) (c : Candidate.t) : bool :=
  (Candidate.size c =? k)%Z.

(** The files of a walk in the order the probe reads them. *)
Definition walk_files (w : list walk_entry)
  : list (string * option stat_result) :=
  List.concat (map snd w).

Definition stat_files : Type := list (string * option stat_result).

(** Aggregates over a sequence of [safe_stat] outcomes. *)
Fixpoint total_size (fl : stat_files) : Z :=
  match fl with
  | [] => 0
  | (_, Some st) :: rest => st_size st + total_size rest
  | (_, None) :: rest => total_size rest
  end%Z.

Fixpoint count_scanned (fl : stat_files) : Z :=
  match fl with
  | [] => 0
  | (_, Some _) :: rest => 1 + count_scanned rest
  | (_, None) :: rest => count_scanned rest
  end%Z.

Fixpoint count_errors (fl : stat_files) : Z :=
  match fl with
  | [] => 0
  | (_, Some _) :: rest => count_errors rest
  | (_, None) :: rest => 1 + count_errors rest
  end%Z.

(** [l] is the latest modification time among the files that could be
    read: absent when there is none, else attained and an upper bound. *)
Definition is_latest (fl : stat_files) (l : option Q) : Prop :=
  match l with
  | None => forall name st, ~ In (name, Some st) fl
  | Some m =>
      (exists name st, In (name, Some st) fl /\ st_mtime st = m)
      /\ (forall name st, In (name, Some st) fl -> (st_mtime st <= m)%Q)
  end.

Definition nonneg_sizes (fl : stat_files) : Prop :=
  forall name st, In (name, Some st) fl -> (0 <= st_size st)%Z.

(** The files read until [k] of them have been read successfully. *)
Fixpoint capped_prefix (k : Z) (fl : stat_files) : stat_files :=
  match fl with
  | [] => []
  | (name, None) :: rest => (name, None) :: capped_prefix k rest
  | (name, Some st) :: rest =>
      if (k <=? 1)%Z then [(name, Some st)]
      else (name, Some st) :: capped_prefix (k - 1) rest
  end.

(** The state a loop ends in, returned or not. *)
Definition finish (f : flow probe_state) : probe_state :=
  match f with
  | Return r => r
  | Continue r => r
  end.

(** The state after reading all of [fl] without a cap. *)
Fixpoint latest_after (l : option Q) (fl : stat_files) : option Q :=
  match fl with
  | [] => l
  | (_, None) :: rest => latest_after l rest
  | (_, Some st) :: rest =>
      latest_after
        match l with
        | None => Some (st_mtime st)
        | Some m => if Qltb m (st_mtime st) then Some (st_mtime st) else Some m
        end rest
  end.

Definition state_after (s : probe_state) (fl : stat_files) : probe_state :=
  let '(t, l, c, e) := s in
  (t + total_size fl, latest_after l fl, c + count_scanned fl,
   e + count_errors fl)%Z.

Definition probe_total (s : probe_state) : Z := fst (fst (fst s)).
Definition probe_latest (s : probe_state) : option Q := snd (fst (fst s)).
Definition probe_scanned (s : probe_state) : Z := snd (fst s).
Definition probe_errors (s : probe_state) : Z := snd s.

(** The manifest: its header, one row, and the rows of a list of
    candidates given the age text of each. *)
Definition manifest_header : string := "path,size_bytes,age" ++ newline.

Definition manifest_row (item : Candidate.t) (age : string) : string :=
  Candidate.path item ++ "," ++ str_of_int (Candidate.size item) ++ ","
    ++ age ++ newline.

Fixpoint manifest_rows (items : list Candidate.t) (ages : list string) : string :=
  match items, ages with
  | item :: items', age :: ages' =>
      manifest_row item age ++ manifest_rows items' ages'
  | _, _ => ""
  end.

(** [ages] are the texts [format_age] gives for [items], the first one
    at the clock reading [clock i], the next at [clock (S i)], and so on. *)
Fixpoint ages_at (clock : nat -> Q) (i : nat) (items : list Candidate.t)
    (ages : list string) : Prop :=
  match items, ages with
  | [], [] => True
  | item :: items', age :: ages' =>
      format_age (clock i) (Some (Candidate.mtime item)) = Ok age
      /\ ages_at clock (S i) items' ages'
  | _, _ => False
  end.

(** The non-negative values of binary64, any magnitude: at most 53
    significant bits at an exponent no smaller than the least one. *)
Definition representable (v : Q) : Prop :=
  exists m j : Z,
    (0 <= m < 2 ^ 53)%Z /\ (-1074 <= j)%Z /\ (v == inject_Z m * pow2 j)%Q.

(** A text of decimal digits, and one with exactly one decimal place. *)
Definition all_digits (s : string) : Prop :=
  s <> "" /\ PyStr.forallb is_ascii_digit s = true.

Definition one_decimal (text : string) : Prop :=
  exists whole d,
    text = whole ++ "." ++ String d ""
    /\ all_digits whole /\ is_ascii_digit d = true.

(** The unit of index [k]: [B, KB, MB, GB, TB, PB], then [EB]. *)
Definition unit_name (k : nat) : string := nth k size_units "EB".

(** [1024^k] as a rational. *)
Definition kibi (k : nat) : Q := inject_Z (1024 ^ Z.of_nat k).

(** The least byte count rendered with the unit of index [k]: [1024^k] up
    to [PB], and [1024^6 - 64] for [EB]. *)
Definition unit_floor (k : nat) : Z :=
  if (k <? 6)%nat then 1024 ^ Z.of_nat k else 1024 ^ 6 - 64.

(** ** A sample home directory *)

Definition sample_now : Q := 1700000000.

Definition days_ago (d : Z) : Q := inject_Z (1700000000 - d * 86400).

Definition regular (size : Z) (mtime : Q) : node :=
  File (Some {| st_size := size; st_mtime := mtime |}).

(** [~/Documents]: three disk images of 500 MB, 100 MB and 600 MB, a
    second 500 MB file, an unreadable file, a workflow directory and a
    repository. *)
Definition sample_documents : node :=
  Dir false
    [ ("old.iso", regular (500 * MB) (days_ago 40));
      ("small.iso", regular (100 * MB) (days_ago 40));
      ("recent.iso", regular (600 * MB) (days_ago 2));
      ("locked.bin", File None);
      (".github", Dir false [("release.zip", regular (700 * MB) (days_ago 90))]);
      ("project",
        Dir false
          [ (".git", Dir false [("pack", regular (900 * MB) (days_ago 90))]);
            ("video.mov", regular (500 * MB) (days_ago 60)) ]) ].

Definition sample_fs : filesystem :=
  fun p => if String.eqb p "/Users/me/Documents" then Some sample_documents
           else None.

(** An operating system that refuses nothing, a candidate list and a
    store where the manifest already exists. *)
Definition permissive : os_env :=
  {| makedirs_ok := fun _ => true; open_ok := fun _ => true |}.

Definition sample_candidates : list Candidate.t :=
  [ {| Candidate.path := "/Users/me/Movies/a,b.mov";
       Candidate.size := 900 * MB; Candidate.mtime := days_ago 40 |};
    {| Candidate.path := "/Users/me/Documents/old.iso";
       Candidate.size := 500 * MB; Candidate.mtime := days_ago 2 |} ].

Definition sample_store : store :=
  fun p => if String.eqb p "scripts/move_candidates.csv"
           then Some "stale contents" else None.

(** A numeral too long for a float: [n] zeros. *)
Fixpoint zeros (n : nat) : string :=
  match n with
  | O => ""
  | S n' => String "0" (zeros n')
  end.

(** ** Delete manifest, delegated tool and entry point *)

(** The [for item in candidates] loop of [write_delete_candidates]; a
    report without a latest time makes [format_age] return before it
    reads the clock, so only the other rows advance the clock index. *)
Fixpoint write_delete_rows (clock : nat -> Q) (i : nat) (items : list Report.t)
    (buf : string) : string * result unit :=
  match items with
  | [] => (buf, Ok tt)
  | item :: rest =>
      match format_age (clock i) (Report.latest item) with
      | Err e => (buf, Err e)
      | Ok age =>
          write_delete_rows clock
            (match Report.latest item with Some _ => S i | None => i end) rest
            (buf ++ Report.path item ++ "," ++ str_of_int (Report.size item)
                 ++ "," ++ age ++ newline)
      end
  end.

(** [write_delete_candidates]: the files after the call and its outcome. *)
Definition write_delete_candidates (env : os_env) (clock : nat -> Q)
    (candidates : list Report.t) (output_path : string) (s : store)
  : store * result unit :=
  match makedirs env (dirname output_path) with
  | Err e => (s, Err e)
  | Ok _ =>
      if open_ok env output_path
      then
        let '(buf, r) :=
          write_delete_rows clock 0 candidates ("path,size_bytes,age" ++ newline) in
        (store_write s output_path buf, r)
      else (s, Err (OSError ("cannot open: " ++ output_path)))
  end.

(** The command line [run_move] builds. *)
Definition run_move_cmd (root min_size : string) (no_claude include_system : bool)
  : list string :=
  (["cargo"; "run"; "-p"; "move"; "--"; "suggest"; "--root"; root;
    "--min-size"; min_size]
   ++ (if no_claude then ["--no-claude"] else [])
   ++ (if include_system then ["--include-system"] else []))%list.

(** The options of the command line, as [argparse] hands them to [main]. *)
Module Args.
Record t : Type := {
  root : string;
  min_size : string;
  min_move_size : string;
  min_age_days : Z;
  move_output : string;
  delete_output : string;
  no_claude : bool;
  include_system : bool;
  xcode_only : bool;
  run_move : bool;
  scan_move : bool
}.
End Args.

(** What [main] runs in: the file tree it reads, the home directory, what
    the operating system allows, the delegated command and the clock,
    whose [k]-th reading is [clock k]. *)
Record environment : Type := {
  env_fs : filesystem;
  env_home : string;
  env_os : os_env;
  env_call : list string -> result Z;
  env_clock : nat -> Q
}.

(** What [main] changes: the lines printed, the files written, the number
    of clock readings taken and the commands started. *)
Record world : Type := {
  stdout : list string;
  files : store;
  ticks : nat;
  calls : list (list string)
}.

(** Computations of [main]: they change the world and return or raise. *)
Definition M (A : Type) : Type := world -> world * result A.

Definition ret {A : Type} (a : A) : M A := fun w => (w, Ok a).

Definition lift {A : Type} (r : result A) : M A := fun w => (w, r).

Definition bindM {A B : Type} (m : M A) (k : A -> M B) : M B :=
  fun w =>
    match m w with
    | (w', Ok a) => k a w'
    | (w', Err e) => (w', Err e)
    end.

Notation "x <~ m ;; k" := (bindM m (fun x => k))
  (at level 61, m at next level, right associativity).

(** [print(line)]. *)
Definition print (line : string) : M unit :=
  fun w =>
    ({| stdout := (stdout w ++ [line])%list; files := files w;
        ticks := ticks w; calls := calls w |}, Ok tt).

(** [time.time()]. *)
Definition time_time (clock : nat -> Q) : M Q :=
  fun w =>
    ({| stdout := stdout w; files := files w; ticks := S (ticks w);
        calls := calls w |}, Ok (clock (ticks w))).

(** [format_age(ts)] with its reading of the clock. *)
Definition format_age_now (clock : nat -> Q) (ts : option Q) : M string :=
  match ts with
  | None => lift (format_age 0 None)
  | Some _ => now <~ time_time clock ;; lift (format_age now ts)
  end.

(** The clock readings the rows of a manifest take: one for each call of
    [format_age] on a time, up to and including the one that raises. *)
Fixpoint move_readings (clock : nat -> Q) (i : nat) (items : list Candidate.t)
  : nat :=
  match items with
  | [] => O
  | item :: rest =>
      match format_age (clock i) (Some (Candidate.mtime item)) with
      | Err _ => 1
      | Ok _ => S (move_readings clock (S i) rest)
      end
  end.

Fixpoint delete_readings (clock : nat -> Q) (i : nat) (items : list Report.t)
  : nat :=
  match items with
  | [] => O
  | item :: rest =>
      match Report.latest item with
      | None => delete_readings clock i rest
      | Some _ =>
          match format_age (clock i) (Report.latest item) with
          | Err _ => 1
          | Ok _ => S (delete_readings clock (S i) rest)
          end
      end
  end.

(** No row is written, and no reading taken, unless the directory could
    be made and the file opened. *)
Definition readings_if_open (env : os_env) (output_path : string) (n : nat)
  : nat :=
  match makedirs env (dirname output_path) with
  | Err _ => O
  | Ok _ => if open_ok env output_path then n else O
  end.

(** A call that writes a manifest, with the clock readings it takes; both
    are given the clock as it stands when the call starts. *)
Definition with_files (clock : nat -> Q) (readings : (nat -> Q) -> nat)
    (write : (nat -> Q) -> store -> store * result unit) : M unit :=
  fun w =>
    let now_on := fun k => clock (ticks w + k)%nat in
    let '(s, r) := write now_on (files w) in
    ({| stdout := stdout w; files := s;
        ticks := (ticks w + readings now_on)%nat;
        calls := calls w |}, r).

(** [subprocess.call(cmd)]; [call] gives the exit code of the command,
    or the [OSError] raised when it cannot be started. *)
Definition subprocess_call (call : list string -> result Z) (cmd : list string)
  : M Z :=
  fun w =>
    ({| stdout := stdout w; files := files w; ticks := ticks w;
        calls := (calls w ++ [cmd])%list |}, call cmd).

(** [run_move]. *)
Definition run_move (call : list string -> result Z) (root min_size : string)
    (no_claude include_system : bool) : M Z :=
  subprocess_call call (run_move_cmd root min_size no_claude include_system).

(** [f"{s:>width}"]. *)
Fixpoint spaces (n : nat) : string :=
  match n with
  | O => ""
  | S n' => String " " (spaces n')
  end.

Definition rjust (width : nat) (s : string) : string :=
  spaces (width - length s) ++ s.

Definition xcode_paths (home : string) : list string :=
  [ join home "Library/Developer/Xcode/DerivedData";
    join home "Library/Developer/Xcode/Archives";
    join home "Library/Developer/CoreSimulator/Devices";
    join home "Library/Developer/Xcode/iOS DeviceSupport" ].

(** The [for path in xcode_paths] loop of [main]; [found] is
    [delete_candidates], and [any_found] holds exactly when it is not
    empty. *)
Fixpoint report_loop (e : environment) (paths : list string)
    (found : list Report.t) : M (list Report.t) :=
  match paths with
  | [] => ret found
  | path :: rest =>
      match report_path (env_fs e) path None with
      | None => report_loop e rest found
      | Some info =>
          size_text <~ lift (format_size (Report.size info)) ;;
          age_text <~ format_age_now (env_clock e) (Report.latest info) ;;
          _ <~ print ("- " ++ rjust 10 size_text ++ "  " ++ rjust 6 age_text
                        ++ "  " ++ Report.path info) ;;
          report_loop e rest (found ++ [info])%list
      end
  end.

(** [main] up to and including the test of [--xcode-only]: the report on
    the cache directories and the delete manifest. *)
Definition main_report (e : environment) (a : Args.t) : M unit :=
  _ <~ print "Xcode cleanup targets:" ;;
  delete_candidates <~ report_loop e (xcode_paths (env_home e)) [] ;;
  _ <~ (match delete_candidates with
        | [] => print "- (none found)"
        | _ => ret tt
        end) ;;
  _ <~ print (newline ++ "Suggested safe cleanup commands (manual):") ;;
  _ <~ print "- rm -rf ~/Library/Developer/Xcode/DerivedData" ;;
  _ <~ print "- rm -rf ~/Library/Developer/Xcode/Archives" ;;
  _ <~ print "- rm -rf ~/Library/Developer/CoreSimulator/Devices" ;;
  _ <~ print "- rm -rf ~/Library/Developer/Xcode/iOS\ DeviceSupport" ;;
  match delete_candidates with
  | [] => ret tt
  | _ =>
      _ <~ with_files (env_clock e)
             (fun clock =>
                readings_if_open (env_os e) (Args.delete_output a)
                  (delete_readings clock 0 delete_candidates))
             (fun clock s =>
                write_delete_candidates (env_os e) clock delete_candidates
                  (Args.delete_output a) s) ;;
      print (newline ++ "Delete candidates written to: " ++ Args.delete_output a)
  end.

(** The [if args.scan_move] block. *)
Definition main_scan_move (e : environment) (a : Args.t) : M unit :=
  min_size <~ lift (parse_size (Args.min_move_size a)) ;;
  now <~ time_time (env_clock e) ;;
  move_candidates <~
    lift (scan_move_candidates (env_fs e) (env_home e) now min_size
            (Args.min_age_days a)) ;;
  _ <~ with_files (env_clock e)
         (fun clock =>
            readings_if_open (env_os e) (Args.move_output a)
              (move_readings clock 0 move_candidates))
         (fun clock s =>
            write_move_candidates (env_os e) clock move_candidates
              (Args.move_output a) s) ;;
  print (newline ++ "Move candidates written to: " ++ Args.move_output a).

(** [main]: the world after the call and the exit code it returns. *)
Definition main (e : environment) (a : Args.t) : M Z :=
  _ <~ main_report e a ;;
  if Args.xcode_only a then ret 0%Z
  else
    _ <~ (if Args.scan_move a then main_scan_move e a else ret tt) ;;
    if Args.run_move a
    then
      _ <~ print (newline ++ "Running move CLI scan...") ;;
      run_move (env_call e) (Args.root a) (Args.min_size a) (Args.no_claude a)
        (Args.include_system a)
    else
      _ <~ print (newline ++ "Tip: run the move CLI for a full disk scan:") ;;
      _ <~ print ("  cargo run -p move -- suggest --root " ++ Args.root a
                    ++ " --min-size " ++ Args.min_size a) ;;
      ret 0%Z.

(** The rows of the delete manifest, given the age text of each. *)
Definition report_row (item : Report.t) (age : string) : string :=
  Report.path item ++ "," ++ str_of_int (Report.size item) ++ ","
    ++ age ++ newline.

Fixpoint report_rows (items : list Report.t) (ages : list string) : string :=
  match items, ages with
  | item :: items', age :: ages' =>
      report_row item age ++ report_rows items' ages'
  | _, _ => ""
  end.

(** [ages] are the texts [format_age] gives for the latest times of
    [items], the clock index advancing as in [write_delete_rows]. *)
Fixpoint report_ages_at (clock : nat -> Q) (i : nat) (items : list Report.t)
    (ages : list string) : Prop :=
  match items, ages with
  | [], [] => True
  | item :: items', age :: ages' =>
      format_age (clock i) (Report.latest item) = Ok age
      /\ report_ages_at clock
           (match Report.latest item with Some _ => S i | None => i end)
           items' ages'
  | _, _ => False
  end.

(** The same options with [--xcode-only] set. *)
Definition with_xcode_only (a : Args.t) : Args.t :=
  {| Args.root := Args.root a; Args.min_size := Args.min_size a;
     Args.min_move_size := Args.min_move_size a;
     Args.min_age_days := Args.min_age_days a;
     Args.move_output := Args.move_output a;
     Args.delete_output := Args.delete_output a;
     Args.no_claude := Args.no_claude a;
     Args.include_system := Args.include_system a;
     Args.xcode_only := true;
     Args.run_move := Args.run_move a;
     Args.scan_move := Args.scan_move a |}.

(** A machine with two of the cache directories, the default options
    with every action requested, and a world where nothing happened yet. *)
Definition sample_environment : environment :=
  {| env_fs := fun p =>
       if String.eqb p "/Users/me/Library/Developer/Xcode/DerivedData"
       then Some sample_documents
       else if String.eqb p "/Users/me/Library/Developer/Xcode/Archives"
       then Some (Dir false [])
       else sample_fs p;
     env_home := "/Users/me";
     env_os := permissive;
     env_call := fun _ => Ok 3%Z;
     env_clock := fun _ => sample_now |}.

Definition sample_args (min_move_size : string) : Args.t :=
  {| Args.root := "/Users/me"; Args.min_size := "200MB";
     Args.min_move_size := min_move_size; Args.min_age_days := 30;
     Args.move_output := "scripts/move_candidates.csv";
     Args.delete_output := "scripts/delete_candidates.csv";
     Args.no_claude := false; Args.include_system := true;
     Args.xcode_only := false; Args.run_move := true;
     Args.scan_move := true |}.

Definition empty_world : world :=
  {| stdout := []; files := fun _ => None; ticks := 0; calls := [] |}.

(** A computation that starts no command, and one that writes no file
    other than [p]. *)
Definition keeps_calls {A : Type} (m : M A) : Prop :=
  forall w, calls (fst (m w)) = calls w.

Definition changes_only {A : Type} (p : string) (m : M A) : Prop :=
  forall w q, q <> p -> files (fst (m w)) q = files w q.

(** * Properties *)

(** ** Rationals and rounding *)

Lemma Qltb_lt (x y : Q) : Qltb x y = true <-> (x < y)%Q.
Proof.
  unfold Qltb. rewrite negb_true_iff. split; intro H.
  - apply Qnot_le_lt. intro Hle. apply Qle_bool_iff in Hle. congruence.
  - destruct (Qle_bool y x) eqn:E; [|reflexivity].
    apply Qle_bool_iff in E. exfalso. exact (Qlt_not_le _ _ H E).
Qed.

Lemma Qltb_ge (x y : Q) : Qltb x y = false <-> (y <= x)%Q.
Proof.
  unfold Qltb. rewrite negb_false_iff. apply Qle_bool_iff.
Qed.

Lemma Qltb_irrefl (x : Q) : Qltb x x = false.
Proof. apply Qltb_ge. apply Qle_refl. Qed.

Lemma round64_zero (q : Q) : (q == 0)%Q -> round64 q = Fin 0.
Proof.
  intro H. unfold round64.
  assert (Qnum q = 0%Z) as ->; [|reflexivity].
  unfold Qeq in H. simpl in H. lia.
Qed.

Lemma fsub_self (x : Q) : fsub x x = Fin 0.
Proof. apply round64_zero. ring. Qed.

(** ** [format_age] *)

(** C4, as amended: a timestamp strictly later than the current time
    renders as ["0d"], an absent timestamp as ["unknown"]; a timestamp
    equal to the current time is not in the future and renders as ["0m"]. *)
Theorem format_age_future (now ts : Q) :
  (now < ts)%Q ->
  format_age now (Some ts) = Ok "0d"
  /\ format_age now None = Ok "unknown"
  /\ format_age now (Some now) = Ok "0m".
Proof.
  intro H. repeat split.
  - unfold format_age. apply Qltb_lt in H. rewrite H. reflexivity.
  - unfold format_age. rewrite Qltb_irrefl, fsub_self. reflexivity.
Qed.

Lemma format_age_future_witness :
  (100 < 101)%Q
  /\ format_age 100 (Some 101%Q) = Ok "0d"
  /\ format_age 100 None = Ok "unknown"
  /\ format_age 100 (Some 100%Q) = Ok "0m".
Proof.
  split; [reflexivity | apply (format_age_future 100 101); reflexivity].
Defined.

(** C4 as stated fails when the timestamp equals the current time. *)
Lemma format_age_now_counterexample :
  (100 <= 100)%Q /\ format_age 100 (Some 100%Q) = Ok "0m"
  /\ format_age 100 (Some 100%Q) <> Ok "0d".
Proof.
  split; [apply Qle_refl|]. split; [reflexivity|discriminate].
Qed.

(** ** [parse_size] *)

Lemma round64_pos_not_NaN (q : Q) : round64_pos q <> NaN.
Proof.
  unfold round64_pos.
  destruct (Qle_bool _ _); discriminate.
Qed.

Lemma round64_not_NaN (q : Q) : round64 q <> NaN.
Proof.
  unfold round64. destruct (Qnum q).
  - discriminate.
  - apply round64_pos_not_NaN.
  - pose proof (round64_pos_not_NaN (- q)).
    destruct (round64_pos (- q)); congruence.
Qed.

Lemma float_of_str_not_NaN (v : string) (x : float) :
  float_of_str v = Ok x -> x <> NaN.
Proof.
  unfold float_of_str. destruct (split_dot v) as [i f].
  destruct (_ && _); [|discriminate].
  intros [= <-]. apply round64_not_NaN.
Qed.

Lemma in_units_In (u : string) (l : list string) :
  in_units u l = true <-> In u l.
Proof.
  unfold in_units. rewrite existsb_exists. split.
  - intros [x [Hin Heq]]. apply String.eqb_eq in Heq. now subst.
  - intro H. exists u. split; [assumption | apply String.eqb_refl].
Qed.

Lemma unit_mult_table (u : string) (m : Z) :
  unit_mult u = Some m <->
  exists us k, In (us, k) unit_table /\ In u us /\ m = (1024 ^ k)%Z.
Proof.
  split.
  - unfold unit_mult.
    destruct (in_units u [""; "b"]) eqn:E0;
      [ intros [= <-]; apply in_units_In in E0;
        exists [""; "b"], 0%Z; simpl; auto | ].
    destruct (in_units u ["k"; "kb"; "kib"]) eqn:E1;
      [ intros [= <-]; apply in_units_In in E1;
        exists ["k"; "kb"; "kib"], 1%Z; simpl; auto | ].
    destruct (in_units u ["m"; "mb"; "mib"]) eqn:E2;
      [ intros [= <-]; apply in_units_In in E2;
        exists ["m"; "mb"; "mib"], 2%Z; simpl; auto 6 | ].
    destruct (in_units u ["g"; "gb"; "gib"]) eqn:E3;
      [ intros [= <-]; apply in_units_In in E3;
        exists ["g"; "gb"; "gib"], 3%Z; simpl; auto 7 | ].
    destruct (in_units u ["t"; "tb"; "tib"]) eqn:E4;
      [ intros [= <-]; apply in_units_In in E4;
        exists ["t"; "tb"; "tib"], 4%Z; simpl; auto 8 | ].
    discriminate.
  - intros (us & k & Htab & Hu & ->).
    simpl in Htab.
    repeat (destruct Htab as [Htab | Htab];
            [ injection Htab as <- <-; simpl in Hu;
              repeat (destruct Hu as [<- | Hu]; [reflexivity|]); contradiction
            | ]).
    contradiction.
Qed.

Lemma unit_mult_nonzero (u : string) (m : Z) :
  unit_mult u = Some m -> (0 < m)%Z.
Proof.
  intro H. apply unit_mult_table in H as (us & k & Htab & _ & ->).
  simpl in Htab.
  repeat (destruct Htab as [Htab | Htab];
          [ injection Htab as _ <-; reflexivity | ]).
  contradiction.
Qed.

Lemma is_ascii_digit_not_dot (c : ascii) :
  is_ascii_digit c = true -> Ascii.eqb "." c = false.
Proof.
  intro H. destruct (Ascii.eqb "." c) eqn:E; [|reflexivity].
  apply Ascii.eqb_eq in E. subst c. discriminate.
Qed.

Lemma digits_no_dot (s : string) :
  PyStr.forallb is_ascii_digit s = true ->
  PyStr.forallb (fun c => is_ascii_digit c || Ascii.eqb c ".") s = true
  /\ count (Ascii.eqb ".") s = O
  /\ count is_ascii_digit s = length s.
Proof.
  induction s as [|c r IH]; cbn [PyStr.forallb count length]; [auto|].
  intro H. apply andb_true_iff in H as [Hc Hr].
  destruct (IH Hr) as (H1 & H2 & H3).
  rewrite Hc, (is_ascii_digit_not_dot c Hc), H1, H2, H3. auto.
Qed.

Lemma no_dot_digits (s : string) :
  PyStr.forallb (fun c => is_ascii_digit c || Ascii.eqb c ".") s = true ->
  count (Ascii.eqb ".") s = O ->
  PyStr.forallb is_ascii_digit s = true.
Proof.
  induction s as [|c r IH]; cbn [PyStr.forallb count]; [auto|].
  intro H. apply andb_true_iff in H as [Hc Hr].
  destruct (Ascii.eqb "." c) eqn:E; [discriminate|]. intro Hd.
  rewrite Ascii.eqb_sym in E. rewrite E, orb_false_r in Hc.
  rewrite Hc. cbn. auto.
Qed.

Lemma split_dot_shape (s : string) :
  let '(i, f) := split_dot s in
  (PyStr.forallb is_ascii_digit i && PyStr.forallb is_ascii_digit (frac_of f)
   = PyStr.forallb (fun c => is_ascii_digit c || Ascii.eqb c ".") s
     && (count (Ascii.eqb ".") s <=? 1)%nat)
  /\ (PyStr.forallb is_ascii_digit i && PyStr.forallb is_ascii_digit (frac_of f)
      = true ->
      (length i + length (frac_of f))%nat = count is_ascii_digit s).
Proof.
  induction s as [|c r IH]; [split; reflexivity|].
  cbn [split_dot]. destruct (Ascii.eqb c ".") eqn:Ec.
  - apply Ascii.eqb_eq in Ec. subst c.
    cbn [PyStr.forallb count frac_of length Nat.add].
    change (is_ascii_digit "." || Ascii.eqb "." ".") with true.
    change (Ascii.eqb "." ".") with true. change (is_ascii_digit ".") with false.
    cbn [andb].
    destruct (PyStr.forallb is_ascii_digit r) eqn:Hr.
    + destruct (digits_no_dot r Hr) as (H1 & H2 & H3).
      rewrite H1, H2, H3. split; reflexivity.
    + split; [|discriminate].
      destruct (PyStr.forallb _ r) eqn:H1; [|reflexivity].
      destruct (count (Ascii.eqb ".") r) eqn:H2; [|reflexivity].
      rewrite (no_dot_digits r H1 H2) in Hr. discriminate.
  - destruct (split_dot r) as [i f]. destruct IH as [IHa IHb].
    cbn [PyStr.forallb count frac_of length Nat.add].
    rewrite Ec. rewrite Ascii.eqb_sym in Ec. rewrite Ec.
    rewrite orb_false_r.
    destruct (is_ascii_digit c) eqn:Hc; cbn [andb].
    + split; [exact IHa|]. intro H. now rewrite <- (IHb H).
    + split; [reflexivity|discriminate].
Qed.

(** [float] accepts exactly the decimal numerals. *)
Lemma float_of_str_well_formed (v : string) :
  (exists x, float_of_str v = Ok x) <-> well_formed_number v = true.
Proof.
  pose proof (split_dot_shape v) as Hshape.
  unfold float_of_str, well_formed_number.
  destruct (split_dot v) as [i f]. fold (frac_of f).
  destruct Hshape as [Ha Hb]. rewrite <- Ha.
  destruct (PyStr.forallb is_ascii_digit i
            && PyStr.forallb is_ascii_digit (frac_of f)) eqn:E; simpl.
  - rewrite (Hb eq_refl).
    destruct (count is_ascii_digit v); simpl; split; intro H;
      try discriminate; try reflexivity.
    + destruct H as [x H]. discriminate.
    + eexists. reflexivity.
  - split; intro H; [destruct H as [x H]|]; discriminate.
Qed.

Lemma value_char_not_space (c : ascii) :
  is_value_char c = true -> isspace c = false.
Proof.
  destruct c as [[] [] [] [] [] [] [] []]; try reflexivity; discriminate.
Qed.

Lemma alpha_not_space (c : ascii) : isalpha c = true -> isspace c = false.
Proof.
  destruct c as [[] [] [] [] [] [] [] []]; try reflexivity; discriminate.
Qed.

Lemma forallb_filter (keep : ascii -> bool) (s : string) :
  PyStr.forallb keep (PyStr.filter keep s) = true.
Proof.
  induction s as [|c r IH]; [reflexivity|].
  cbn [PyStr.filter]. destruct (keep c) eqn:E; [|assumption].
  cbn [PyStr.forallb]. now rewrite E.
Qed.

Lemma strip_no_space (keep : ascii -> bool) (s : string) :
  (forall c, keep c = true -> isspace c = false) ->
  PyStr.forallb keep s = true -> strip s = s.
Proof.
  intros Hkeep Hs. unfold strip.
  assert (Hl : lstrip s = s).
  { destruct s as [|c r]; [reflexivity|].
    cbn [PyStr.forallb] in Hs. apply andb_true_iff in Hs as [Hc _].
    cbn [lstrip]. now rewrite (Hkeep c Hc). }
  rewrite Hl. clear Hl.
  induction s as [|c r IH]; [reflexivity|].
  cbn [PyStr.forallb] in Hs. apply andb_true_iff in Hs as [Hc Hr].
  cbn [rstrip]. rewrite (IH Hr). rewrite (Hkeep c Hc).
  destruct r; reflexivity.
Qed.

(** The two [strip] calls of [parse_size] never remove anything. *)
Lemma value_of_filter (text : string) :
  value_of text = PyStr.filter is_value_char text.
Proof.
  unfold value_of.
  apply (strip_no_space is_value_char);
    [exact value_char_not_space | apply forallb_filter].
Qed.

Lemma unit_of_filter (text : string) :
  unit_of text = lower (PyStr.filter isalpha text).
Proof.
  unfold unit_of. f_equal.
  apply (strip_no_space isalpha); [exact alpha_not_space | apply forallb_filter].
Qed.

Lemma same_outcome_refl {A : Type} (r : result A) : same_outcome r r.
Proof. destruct r as [a|[m|m|m|m]]; simpl; auto. Qed.

(** C10: the outcome of [parse_size] is determined by the subsequence of
    digit and dot characters and the subsequence of alphabetic characters
    of its argument.  Two texts with the same two subsequences give the
    same outcome; only the message of the "Invalid size" failure, raised
    when there is no numeric character at all, quotes the text itself. *)
Theorem parse_size_subsequences (s t : string) :
  PyStr.filter is_value_char s = PyStr.filter is_value_char t ->
  PyStr.filter isalpha s = PyStr.filter isalpha t ->
  same_outcome (parse_size s) (parse_size t)
  /\ (PyStr.filter is_value_char s <> "" -> parse_size s = parse_size t).
Proof.
  intros Hv Hu. unfold parse_size.
  rewrite !value_of_filter, !unit_of_filter, <- Hv, <- Hu.
  destruct (String.eqb (PyStr.filter is_value_char s) "") eqn:E.
  - split; [exact I|]. apply String.eqb_eq in E. intro H. contradiction.
  - split; [apply same_outcome_refl | reflexivity].
Qed.

Lemma parse_size_subsequences_witness :
  same_outcome (parse_size "2,0 0MB") (parse_size "200MB")
  /\ (PyStr.filter is_value_char "2,0 0MB" <> "" ->
      parse_size "2,0 0MB" = parse_size "200MB").
Proof.
  apply (parse_size_subsequences "2,0 0MB" "200MB"); reflexivity.
Defined.

Example parse_size_reordered :
  parse_size "MB200" = Ok 209715200%Z
  /\ parse_size "200 MB" = Ok 209715200%Z
  /\ parse_size "2,0 0MB" = Ok 209715200%Z
  /\ parse_size "200MB" = Ok 209715200%Z.
Proof. repeat split; vm_compute; reflexivity. Qed.

Example parse_size_stray_letter :
  value_of "1x5" = "15" /\ unit_of "1x5" = "x"
  /\ parse_size "1x5" = Err (ValueError "Unknown size unit: x").
Proof. repeat split; vm_compute; reflexivity. Qed.

(** C7, as amended: on a text of characters with code points below 256,
    [parse_size] fails with a [ValueError] exactly when the numeric
    portion is missing, or is not a decimal numeral of ASCII digits (two
    dots, no digit, a superscript digit), or the unit suffix is not
    recognised.
    With a numeral and a recognised unit the multiplier is [1024^k] for the
    unit's row [k] of [unit_table], and the call returns the numeral's
    float times the multiplier, truncated to an integer, unless that
    product is infinite. *)
Theorem parse_size_outcome (text : string) :
  let value := PyStr.filter is_value_char text in
  let unit := lower (PyStr.filter isalpha text) in
  (is_ValueError (parse_size text) <->
     value = "" \/ well_formed_number value = false \/ unit_mult unit = None)
  /\ (forall x mult,
        float_of_str value = Ok x -> unit_mult unit = Some mult ->
        (exists us k, In (us, k) unit_table /\ In unit us /\ mult = (1024 ^ k)%Z)
        /\ match fmul x (inject_Z mult) with
           | Fin q => parse_size text = Ok (Qtrunc q)
           | Inf _ => is_OverflowError (parse_size text)
           | NaN => False
           end).
Proof.
  intros value unit. unfold parse_size.
  rewrite value_of_filter, unit_of_filter. fold value. fold unit.
  pose proof (float_of_str_well_formed value) as Hwf.
  assert (Hmul : forall x mult, float_of_str value = Ok x ->
                   unit_mult unit = Some mult ->
                   fmul x (inject_Z mult) <> NaN).
  { intros x mult Hx Hm. apply unit_mult_nonzero in Hm.
    pose proof (float_of_str_not_NaN _ _ Hx) as Hn.
    destruct x as [a|sg|]; cbn [fmul].
    - apply round64_not_NaN.
    - destruct mult; try lia. discriminate.
    - contradiction. }
  split.
  - destruct (String.eqb value "") eqn:Ev.
    { apply String.eqb_eq in Ev. split; [auto | intros _; exact I]. }
    apply String.eqb_neq in Ev.
    destruct (float_of_str value) as [x|e] eqn:Ex; cbn [bind].
    + assert (Hw : well_formed_number value = true)
        by (apply Hwf; eauto).
      destruct (unit_mult unit) as [mult|] eqn:Em.
      * specialize (Hmul x mult eq_refl eq_refl).
        split.
        -- destruct (fmul x (inject_Z mult)); cbn; try contradiction.
        -- intros [H | [H | H]]; [contradiction | congruence | discriminate].
      * split; [auto | intros _; exact I].
    + assert (Hw : well_formed_number value = false).
      { destruct (well_formed_number value) eqn:W; [|reflexivity].
        destruct (proj2 Hwf eq_refl) as [x Hx]. discriminate. }
      unfold float_of_str in Ex. destruct (split_dot value) as [i f].
      destruct (_ && _); [discriminate|]. injection Ex as <-.
      split; [auto | intros _; exact I].
  - intros x mult Hx Hm. split; [now apply unit_mult_table|].
    specialize (Hmul x mult Hx Hm).
    destruct (String.eqb value "") eqn:Ev.
    { apply String.eqb_eq in Ev. rewrite Ev in Hx. discriminate. }
    rewrite Hx, Hm. cbn [bind].
    destruct (fmul x (inject_Z mult)); cbn; auto.
Qed.

Lemma parse_size_outcome_witness :
  parse_size "1.5 GiB" = Ok 1610612736%Z.
Proof.
  pose proof (proj2 (parse_size_outcome "1.5 GiB")
                (Fin (3 # 2)) GB eq_refl eq_refl) as [_ H].
  exact H.
Defined.

(** C7 as stated fails on a numeric portion that is present but is not a
    numeral: the unit is recognised, yet [float] raises [ValueError]. *)
Lemma parse_size_two_dots_counterexample :
  is_ValueError (parse_size "1.2.3")
  /\ PyStr.filter is_value_char "1.2.3" = "1.2.3"
  /\ unit_mult (lower (PyStr.filter isalpha "1.2.3")) = Some 1%Z.
Proof. repeat split. Qed.

(** ** Sorting *)

Section SortFacts.

Context {A : Type} (key : A -> Z).

Let desc (a b : A) : Prop := (key b <= key a)%Z.

Lemma insert_desc_perm (x : A) (l : list A) :
  Permutation (x :: l) (insert_desc key x l).
Proof.
  induction l as [|y l IH]; cbn [insert_desc]; [reflexivity|].
  destruct (key y <=? key x)%Z; [reflexivity|].
  rewrite perm_swap. now apply perm_skip.
Qed.

Lemma sort_reverse_perm (l : list A) : Permutation l (sort_reverse key l).
Proof.
  induction l as [|x l IH]; cbn [sort_reverse]; [reflexivity|].
  rewrite <- insert_desc_perm. now apply perm_skip.
Qed.

Lemma insert_desc_sorted (x : A) (l : list A) :
  StronglySorted desc l -> StronglySorted desc (insert_desc key x l).
Proof.
  induction 1 as [|y l Hs IH Hy]; cbn [insert_desc].
  - constructor; constructor.
  - destruct (key y <=? key x)%Z eqn:E.
    + apply Z.leb_le in E. constructor; [now constructor|].
      constructor; [exact E|].
      eapply Forall_impl; [|exact Hy]. unfold desc. intros z Hz. lia.
    + apply Z.leb_gt in E. constructor; [exact IH|].
      eapply Permutation_Forall; [apply insert_desc_perm|].
      constructor; [unfold desc; lia | exact Hy].
Qed.

Lemma sort_reverse_sorted (l : list A) : StronglySorted desc (sort_reverse key l).
Proof.
  induction l as [|x l IH]; cbn [sort_reverse]; [constructor|].
  now apply insert_desc_sorted.
Qed.

Lemma insert_desc_stable (k : Z) (x : A) (l : list A) :
  List.filter (fun a => key a =? k)%Z (insert_desc key x l)
  = List.filter (fun a => key a =? k)%Z (x :: l).
Proof.
  induction l as [|y l IH]; cbn [insert_desc]; [reflexivity|].
  destruct (key y <=? key x)%Z eqn:E; [reflexivity|].
  apply Z.leb_gt in E.
  cbn [List.filter] in *. rewrite IH.
  destruct (key x =? k)%Z eqn:Ex; destruct (key y =? k)%Z eqn:Ey;
    try reflexivity.
  apply Z.eqb_eq in Ex, Ey. lia.
Qed.

Lemma sort_reverse_stable (k : Z) (l : list A) :
  List.filter (fun a => key a =? k)%Z (sort_reverse key l)
  = List.filter (fun a => key a =? k)%Z l.
Proof.
  induction l as [|x l IH]; cbn [sort_reverse]; [reflexivity|].
  rewrite insert_desc_stable. cbn [List.filter]. now rewrite IH.
Qed.

End SortFacts.

(** ** [scan_move_candidates] *)

Lemma scan_files_visited min_size cutoff dirpath files :
  scan_files min_size cutoff dirpath files
  = map candidate_of
      (List.filter (fun f => qualifies min_size cutoff (snd f))
         (visited_files dirpath files)).
Proof.
  induction files as [|[name [st|]] rest IH];
    cbn [scan_files visited_files]; [reflexivity | | exact IH].
  cbn [List.filter snd]. unfold qualifies at 1.
  destruct (st_size st <? min_size)%Z; cbn [negb andb]; [exact IH|].
  destruct (flt cutoff (Fin (st_mtime st))); cbn [negb]; [exact IH|].
  cbn [map]. now rewrite IH.
Qed.

Lemma scan_walk_visited min_size cutoff w :
  scan_walk min_size cutoff w
  = map candidate_of
      (List.filter (fun f => qualifies min_size cutoff (snd f)) (visited_walk w)).
Proof.
  induction w as [|[[dirpath ds] files] rest IH];
    cbn [scan_walk visited_walk]; [reflexivity|].
  destruct (skip_dir dirpath); [exact IH|].
  now rewrite filter_app, map_app, scan_files_visited, IH.
Qed.

(** The three loops compute the qualifying files among the visited ones,
    in the order of the visit. *)
Lemma scan_roots_visited fs min_size cutoff roots :
  scan_roots fs min_size cutoff roots
  = map candidate_of
      (List.filter (fun f => qualifies min_size cutoff (snd f))
         (visited_roots fs roots)).
Proof.
  induction roots as [|root rest IH];
    cbn [scan_roots visited_roots]; [reflexivity|].
  destruct (fs root) as [n|]; [|exact IH].
  now rewrite filter_app, map_app, scan_walk_visited, IH.
Qed.

Lemma qualifies_spec min_size cutoff st :
  cutoff <> NaN ->
  qualifies min_size cutoff st = true
  <-> (min_size <= st_size st)%Z /\ not_after (st_mtime st) cutoff.
Proof.
  intro Hn. unfold qualifies, not_after.
  rewrite andb_true_iff, !negb_true_iff, Z.ltb_ge.
  destruct cutoff as [c|sg|]; cbn [flt]; [| |contradiction].
  - now rewrite Qltb_ge.
  - reflexivity.
Qed.

Lemma scan_cutoff_not_NaN now min_age_days cutoff :
  scan_cutoff now min_age_days = Ok cutoff -> cutoff <> NaN.
Proof.
  unfold scan_cutoff. destruct (float_of_int _); cbn [bind]; [|discriminate].
  intros [= <-]. apply round64_not_NaN.
Qed.

Lemma candidate_of_inj f g : candidate_of f = candidate_of g -> f = g.
Proof.
  destruct f as [p [s m]], g as [p' [s' m']]. unfold candidate_of. cbn.
  now intros [= -> -> ->].
Qed.

(** C1: once the cutoff is computed, the scan returns its candidates
    sorted by non-increasing size, and candidates of the same size keep
    the order in which the walk discovered them. *)
Theorem scan_sorted_stable fs home now min_size min_age_days cutoff :
  scan_cutoff now min_age_days = Ok cutoff ->
  exists l,
    scan_move_candidates fs home now min_size min_age_days = Ok l
    /\ StronglySorted by_size_desc l
    /\ Permutation (scan_roots fs min_size cutoff (move_roots home)) l
    /\ forall k, List.filter (has_size k) l
                 = List.filter (has_size k)
                     (scan_roots fs min_size cutoff (move_roots home)).
Proof.
  intro Hc. unfold scan_move_candidates. rewrite Hc. cbn [bind].
  eexists. split; [reflexivity|]. split; [|split].
  - apply (sort_reverse_sorted Candidate.size).
  - apply sort_reverse_perm.
  - intro k. apply (sort_reverse_stable Candidate.size).
Qed.

(** C2: a visited file is among the candidates exactly when its size is
    at least [min_size] and its modification time is not after the cutoff
    [now - min_age_days * 86400]; both bounds are inclusive. *)
Theorem scan_includes_iff fs home now min_size min_age_days cutoff :
  scan_cutoff now min_age_days = Ok cutoff ->
  exists l,
    scan_move_candidates fs home now min_size min_age_days = Ok l
    /\ (forall f, In f (visited_roots fs (move_roots home)) ->
          In (candidate_of f) l
          <-> (min_size <= st_size (snd f))%Z
              /\ not_after (st_mtime (snd f)) cutoff)
    /\ (forall f c, In f (visited_roots fs (move_roots home)) ->
          cutoff = Fin c ->
          (st_size (snd f) = min_size -> (st_mtime (snd f) == c)%Q ->
             In (candidate_of f) l)
          /\ (st_size (snd f) = (min_size - 1)%Z -> ~ In (candidate_of f) l)
          /\ ((st_mtime (snd f) == c + 1)%Q -> ~ In (candidate_of f) l)).
Proof.
  intro Hc. unfold scan_move_candidates. rewrite Hc. cbn [bind].
  pose proof (scan_cutoff_not_NaN _ _ _ Hc) as Hn.
  eexists. split; [reflexivity|].
  assert (Hiff : forall f, In f (visited_roots fs (move_roots home)) ->
            In (candidate_of f)
               (sort_reverse Candidate.size
                  (scan_roots fs min_size cutoff (move_roots home)))
            <-> (min_size <= st_size (snd f))%Z
                /\ not_after (st_mtime (snd f)) cutoff).
  { intros f Hf. rewrite <- (qualifies_spec _ _ _ Hn). split.
    - intro H. apply (Permutation_in _ (Permutation_sym (sort_reverse_perm _ _))) in H.
      rewrite scan_roots_visited in H. apply in_map_iff in H as [g [Hg Hin]].
      apply candidate_of_inj in Hg. subst g.
      now apply filter_In in Hin.
    - intro H. apply (Permutation_in _ (sort_reverse_perm _ _)).
      rewrite scan_roots_visited. apply in_map. apply filter_In. now split. }
  split; [exact Hiff|].
  intros f c Hf ->. repeat split.
  - intros Hs Hm. apply (Hiff f Hf). cbn [not_after]. split; [lia|].
    rewrite Hm. apply Qle_refl.
  - intros Hs H. apply (Hiff f Hf) in H as [H _]. lia.
  - intros Hm H. apply (Hiff f Hf) in H as [_ H]. cbn [not_after] in H.
    rewrite Hm in H. apply (Qle_not_lt _ _ H).
    rewrite <- (Qplus_0_r c) at 1. apply Qplus_lt_r. reflexivity.
Qed.

Lemma scan_sorted_stable_witness :
  exists l,
    scan_move_candidates sample_fs "/Users/me" sample_now (200 * MB) 30 = Ok l
    /\ StronglySorted by_size_desc l
    /\ Permutation
         (scan_roots sample_fs (200 * MB) (Fin 1697408000) (move_roots "/Users/me")) l
    /\ forall k, List.filter (has_size k) l
                 = List.filter (has_size k)
                     (scan_roots sample_fs (200 * MB) (Fin 1697408000)
                        (move_roots "/Users/me")).
Proof.
  apply (scan_sorted_stable sample_fs "/Users/me" sample_now (200 * MB) 30
           (Fin 1697408000)).
  vm_compute. reflexivity.
Defined.

Lemma scan_includes_iff_witness :
  exists l,
    scan_move_candidates sample_fs "/Users/me" sample_now (200 * MB) 30 = Ok l
    /\ (forall f, In f (visited_roots sample_fs (move_roots "/Users/me")) ->
          In (candidate_of f) l
          <-> (200 * MB <= st_size (snd f))%Z
              /\ not_after (st_mtime (snd f)) (Fin 1697408000))
    /\ (forall f c, In f (visited_roots sample_fs (move_roots "/Users/me")) ->
          Fin 1697408000 = Fin c ->
          (st_size (snd f) = (200 * MB)%Z -> (st_mtime (snd f) == c)%Q ->
             In (candidate_of f) l)
          /\ (st_size (snd f) = (200 * MB - 1)%Z -> ~ In (candidate_of f) l)
          /\ ((st_mtime (snd f) == c + 1)%Q -> ~ In (candidate_of f) l)).
Proof.
  apply (scan_includes_iff sample_fs "/Users/me" sample_now (200 * MB) 30
           (Fin 1697408000)).
  vm_compute. reflexivity.
Defined.

(** The scenario of three disk images: only the large and old one is kept
    (with the other large and old file of the sample, in discovery order). *)
Example scan_sample :
  scan_move_candidates sample_fs "/Users/me" sample_now (200 * MB) 30
  = Ok [ candidate_of ("/Users/me/Documents/old.iso",
                       {| st_size := 500 * MB; st_mtime := days_ago 40 |});
         candidate_of ("/Users/me/Documents/project/video.mov",
                       {| st_size := 500 * MB; st_mtime := days_ago 60 |}) ].
Proof. vm_compute. reflexivity. Qed.

(** ** Skipped directories *)

Lemma append_assoc (a b c : string) : (a ++ b) ++ c = a ++ b ++ c.
Proof.
  induction a as [|x a IH]; cbn [append]; [reflexivity | now rewrite IH].
Qed.

Lemma prefix_spec (a s : string) :
  prefix a s = true <-> exists suf, s = a ++ suf.
Proof.
  revert s. induction a as [|x a IH]; intro s.
  - destruct s; cbn; split; eauto.
  - destruct s as [|y s]; cbn [prefix append].
    + split; [discriminate | intros [suf H]; discriminate].
    + destruct (ascii_dec x y) as [->|Hne].
      * rewrite IH. split; intros [suf H]; exists suf; congruence.
      * split; [discriminate | intros [suf H]; congruence].
Qed.

Lemma contains_spec (sub s : string) :
  contains sub s = true <-> exists pre suf, s = pre ++ sub ++ suf.
Proof.
  induction s as [|c r IH]; cbn [contains].
  - rewrite orb_false_r, prefix_spec. split.
    + intros [suf H]. exists "", suf. exact H.
    + intros [pre [suf H]]. destruct pre; [eauto | discriminate].
  - rewrite orb_true_iff, prefix_spec, IH. split.
    + intros [[suf H] | [pre [suf H]]].
      * exists "", suf. exact H.
      * exists (String c pre), suf. cbn [append]. now rewrite H.
    + intros [pre [suf H]]. destruct pre as [|x pre]; cbn [append] in H.
      * left. eauto.
      * right. exists pre, suf. congruence.
Qed.

Lemma prefix_refl (s : string) : prefix s s = true.
Proof. apply prefix_spec. exists "". induction s; cbn; congruence. Qed.

Lemma prefix_trans (a b c : string) :
  prefix a b = true -> prefix b c = true -> prefix a c = true.
Proof.
  rewrite !prefix_spec. intros [s1 ->] [s2 ->].
  exists (s1 ++ s2). apply append_assoc.
Qed.

Lemma contains_prefix_mono (sub s s' : string) :
  prefix s s' = true -> contains sub s = true -> contains sub s' = true.
Proof.
  rewrite prefix_spec, !contains_spec. intros [t ->] [pre [suf ->]].
  exists pre, (suf ++ t). now rewrite !append_assoc.
Qed.

Lemma skip_dir_mono (s s' : string) :
  prefix s s' = true -> skip_dir s = true -> skip_dir s' = true.
Proof.
  unfold skip_dir. rewrite !orb_true_iff.
  intros Hp [H | H]; [left | right]; eapply contains_prefix_mono; eauto.
Qed.

Lemma join_prefix (top name : string) :
  contains "/" name = false -> prefix top (join top name) = true.
Proof.
  intro H. unfold join.
  assert (Hp : prefix "/" name = false).
  { destruct name; cbn [contains] in H; apply orb_false_iff in H; tauto. }
  rewrite Hp. apply prefix_spec.
  destruct (_ || _); eauto.
Qed.

Lemma walk_Dir top symlink entries :
  walk top (Dir symlink entries)
  = (top, dirnames entries, filenames entries) :: walk_subdirs top entries.
Proof.
  cbn [walk]. f_equal.
  induction entries as [|[name child] rest IH]; [reflexivity|].
  cbn [walk_subdirs]. destruct child as [st|[] es]; rewrite IH; reflexivity.
Qed.

(** Every directory path the walk yields extends the path it started from. *)
Lemma walk_prefix (n : node) :
  forall top, wf_names n = true ->
  Forall (fun e => prefix top (fst (fst e)) = true) (walk top n).
Proof.
  induction n as [st | symlink entries IH] using node_nested_ind;
    intros top Hwf; [constructor|].
  rewrite walk_Dir. constructor; [apply prefix_refl|].
  cbn [wf_names] in Hwf.
  induction entries as [|[name child] rest IHrest]; [constructor|].
  cbn [List.forallb] in Hwf. apply andb_true_iff in Hwf as [Hc Hrest].
  apply andb_true_iff in Hc as [Hname Hchild].
  apply negb_true_iff in Hname.
  inversion IH as [|? ? Hhead Htail]; subst.
  specialize (IHrest Htail Hrest).
  cbn [walk_subdirs]. destruct child as [st|[] es]; try exact IHrest.
  apply Forall_app. split; [|exact IHrest].
  eapply Forall_impl; [|exact (Hhead (join top name) Hchild)].
  intros e He. eapply prefix_trans; [|exact He]. now apply join_prefix.
Qed.

Lemma visited_walk_all_skipped (w : list walk_entry) :
  Forall (fun e => skip_dir (fst (fst e)) = true) w -> visited_walk w = [].
Proof.
  induction 1 as [|[[dirpath ds] files] rest Hd _ IH]; [reflexivity|].
  cbn [visited_walk]. cbn in Hd. now rewrite Hd.
Qed.

Lemma visited_files_In dirpath files name st :
  In (name, Some st) files -> In (join dirpath name, st) (visited_files dirpath files).
Proof.
  induction files as [|[name' [st'|]] rest IH]; cbn [visited_files In].
  - tauto.
  - intros [[= -> ->] | H]; [now left | right; auto].
  - intros [H | H]; [discriminate | auto].
Qed.

Lemma visited_walk_In w dirpath ds files name st :
  In (dirpath, ds, files) w -> skip_dir dirpath = false ->
  In (name, Some st) files ->
  In (join dirpath name, st) (visited_walk w).
Proof.
  intros Hin Hskip Hfile.
  induction w as [|[[dirpath' ds'] files'] rest IH]; [contradiction|].
  cbn [visited_walk]. destruct Hin as [[= -> -> ->] | Hin].
  - rewrite Hskip. apply in_or_app. left. now apply visited_files_In.
  - destruct (skip_dir dirpath'); [auto|]. apply in_or_app. right. auto.
Qed.

Lemma split_slash_cons (p : string) :
  exists seg rest, split_slash p = seg :: rest.
Proof.
  induction p as [|c r [seg [rest IH]]]; cbn [split_slash]; [eauto|].
  destruct (Ascii.eqb c "/"); [eauto|]. rewrite IH. eauto.
Qed.

Lemma prefix_first_segment (x r : string) :
  contains "/" x = false ->
  prefix x r = prefix x (hd "" (split_slash r)).
Proof.
  revert x. induction r as [|c r IH]; intros x Hx; [reflexivity|].
  destruct x as [|y x]; [now destruct (hd "" (split_slash (String c r)))|].
  cbn [contains] in Hx. apply orb_false_iff in Hx as [Hy Hx].
  cbn [prefix] in Hy. cbn [split_slash].
  destruct (Ascii.eqb c "/") eqn:Ec.
  - apply Ascii.eqb_eq in Ec. subst c. cbn [hd prefix].
    destruct (ascii_dec y "/") as [->|Hne]; [|reflexivity].
    exfalso. revert Hy.
    destruct (ascii_dec "/" "/"); [|contradiction]. destruct x; discriminate.
  - destruct (split_slash_cons r) as [seg [rest Hs]].
    specialize (IH x Hx). rewrite Hs in *. cbn [hd prefix] in *.
    destruct (ascii_dec y c); [exact IH|reflexivity].
Qed.

Lemma contains_slash_segment (x s : string) :
  contains "/" x = false ->
  contains (String "/" x) s = existsb (prefix x) (tl (split_slash s)).
Proof.
  intro Hx. induction s as [|c r IH]; [reflexivity|].
  cbn [contains split_slash]. rewrite IH.
  destruct (split_slash_cons r) as [seg [rest Hs]].
  destruct (Ascii.eqb c "/") eqn:Ec.
  - apply Ascii.eqb_eq in Ec. subst c. cbn [prefix tl].
    destruct (ascii_dec "/" "/"); [|contradiction].
    rewrite (prefix_first_segment x r Hx), Hs. reflexivity.
  - rewrite Hs. cbn [prefix tl].
    destruct (ascii_dec "/" c) as [<-|Hne]; [discriminate|reflexivity].
Qed.

Lemma existsb_orb {A : Type} (f g : A -> bool) (l : list A) :
  existsb f l || existsb g l = existsb (fun a => f a || g a) l.
Proof.
  induction l as [|a l IH]; [reflexivity|]. cbn [existsb]. rewrite <- IH.
  destruct (f a), (g a), (existsb f l), (existsb g l); reflexivity.
Qed.

(** The substring test of the scan, read on the components of the path. *)
Lemma skip_dir_segments (p : string) : skip_dir p = has_reserved_prefix p.
Proof.
  unfold skip_dir, has_reserved_prefix.
  change "/.Trash" with (String "/" ".Trash").
  change "/.git" with (String "/" ".git").
  rewrite !contains_slash_segment by reflexivity.
  rewrite existsb_orb.
  induction (tl (split_slash p)) as [|seg l IH]; [reflexivity|].
  cbn [existsb reserved_names] in *. now rewrite IH, orb_false_r.
Qed.

(** What the three loops of the scan append: the readable files that pass
    the two tests, in the directories of the walks that are not skipped. *)
Lemma scan_files_In min_size cutoff dirpath files (c : Candidate.t) :
  In c (scan_files min_size cutoff dirpath files)
  <-> exists name st,
        In (name, Some st) files /\ qualifies min_size cutoff st = true
        /\ c = candidate_of (join dirpath name, st).
Proof.
  induction files as [|[name0 [st0|]] rest IH]; cbn [scan_files].
  - split; [intros [] | intros (name & st & [] & _)].
  - cbv zeta. unfold qualifies in *.
    destruct (st_size st0 <? min_size)%Z eqn:E1;
      [|destruct (flt cutoff (Fin (st_mtime st0))) eqn:E2].
    + rewrite IH. split; intros (name & st & Hin & Hq & Hc); exists name, st.
      * split; [now right | split; assumption].
      * destruct Hin as [[= -> ->] | Hin]; [rewrite E1 in Hq; discriminate|].
        split; [exact Hin | split; assumption].
    + rewrite IH. split; intros (name & st & Hin & Hq & Hc); exists name, st.
      * split; [now right | split; assumption].
      * destruct Hin as [[= -> ->] | Hin];
          [rewrite E2, andb_false_r in Hq; discriminate|].
        split; [exact Hin | split; assumption].
    + cbn [In]. rewrite IH. split.
      * intros [<- | (name & st & Hin & Hq & Hc)].
        -- exists name0, st0. split; [now left|].
           split; [now rewrite E1, E2 | reflexivity].
        -- exists name, st. split; [now right | split; assumption].
      * intros (name & st & [[= -> ->] | Hin] & Hq & Hc).
        -- left. now subst c.
        -- right. exists name, st. split; [exact Hin | split; assumption].
  - rewrite IH. split; intros (name & st & Hin & Hq & Hc); exists name, st.
    + split; [now right | split; assumption].
    + destruct Hin as [Hin | Hin]; [discriminate|].
      split; [exact Hin | split; assumption].
Qed.

Lemma scan_walk_In min_size cutoff (w : list walk_entry) (c : Candidate.t) :
  In c (scan_walk min_size cutoff w)
  <-> exists dirpath ds files name st,
        In (dirpath, ds, files) w /\ skip_dir dirpath = false
        /\ In (name, Some st) files /\ qualifies min_size cutoff st = true
        /\ c = candidate_of (join dirpath name, st).
Proof.
  induction w as [|[[dirpath0 ds0] files0] rest IH]; cbn [scan_walk].
  - split; [intros [] | intros (d & ds & fl & name & st & [] & _)].
  - destruct (skip_dir dirpath0) eqn:E.
    + rewrite IH. split;
        intros (d & ds & fl & name & st & Hin & Hs & Hrest);
        exists d, ds, fl, name, st.
      * split; [now right | split; assumption].
      * destruct Hin as [[= -> -> ->] | Hin]; [congruence|].
        split; [exact Hin | split; assumption].
    + rewrite in_app_iff, IH, scan_files_In. split.
      * intros [(name & st & Hin & Hq & Hc)
               | (d & ds & fl & name & st & Hin & Hrest)].
        -- exists dirpath0, ds0, files0, name, st.
           split; [now left | repeat split; assumption].
        -- exists d, ds, fl, name, st. split; [now right | exact Hrest].
      * intros (d & ds & fl & name & st & [[= -> -> ->] | Hin] & Hs & Hf & Hq & Hc).
        -- left. exists name, st. repeat split; assumption.
        -- right. exists d, ds, fl, name, st. repeat split; assumption.
Qed.

Lemma scan_roots_In fs min_size cutoff (roots : list string) (c : Candidate.t) :
  In c (scan_roots fs min_size cutoff roots)
  <-> exists root n,
        In root roots /\ fs root = Some n
        /\ In c (scan_walk min_size cutoff (walk root n)).
Proof.
  induction roots as [|root0 rest IH]; cbn [scan_roots].
  - split; [intros [] | intros (root & n & [] & _)].
  - destruct (fs root0) as [n0|] eqn:E.
    + rewrite in_app_iff, IH. split.
      * intros [Hin | (root & n & Hin & Hrest)].
        -- exists root0, n0. split; [now left | split; assumption].
        -- exists root, n. split; [now right | exact Hrest].
      * intros (root & n & [<- | Hin] & Hfs & Hc).
        -- left. congruence.
        -- right. exists root, n. repeat split; assumption.
    + rewrite IH. split; intros (root & n & Hin & Hfs & Hc); exists root, n.
      * split; [now right | split; assumption].
      * destruct Hin as [<- | Hin]; [congruence|].
        split; [exact Hin | split; assumption].
Qed.

(** C3, as amended: the test that skips a directory holds exactly when the
    directory's path contains ["/.Trash"] or ["/.git"], that is when a
    component of the path after the first begins with [.Trash] or [.git],
    and it then holds for every path below.  The candidates the scan
    returns are exactly the readable files of large enough size and age
    that lie in a directory, of the walk of an existing root, whose path
    the test does not skip; a walk started at a skipped path yields no
    candidate at all. *)
Theorem skip_dir_subtree (fs : filesystem) (home : string) (now : Q)
    (min_size min_age_days : Z) (cutoff : float) (l : list Candidate.t) :
  scan_cutoff now min_age_days = Ok cutoff ->
  scan_move_candidates fs home now min_size min_age_days = Ok l ->
  (forall p, skip_dir p = has_reserved_prefix p)
  /\ (forall p q, prefix p q = true -> skip_dir p = true -> skip_dir q = true)
  /\ (forall c,
        In c l
        <-> exists root n dirpath ds files name st,
              In root (move_roots home) /\ fs root = Some n
              /\ In (dirpath, ds, files) (walk root n)
              /\ skip_dir dirpath = false
              /\ In (name, Some st) files
              /\ qualifies min_size cutoff st = true
              /\ c = candidate_of (join dirpath name, st))
  /\ (forall top n,
        wf_names n = true -> skip_dir top = true ->
        scan_walk min_size cutoff (walk top n) = []).
Proof.
  intros Hc. unfold scan_move_candidates. rewrite Hc. cbn [bind]. intro Hl.
  assert (El : l = sort_reverse Candidate.size
                     (scan_roots fs min_size cutoff (move_roots home)))
    by congruence.
  subst l. clear Hl.
  split; [exact skip_dir_segments|]. split; [exact skip_dir_mono|]. split.
  - intro c.
    assert (Hperm : In c (sort_reverse Candidate.size
                            (scan_roots fs min_size cutoff (move_roots home)))
                    <-> In c (scan_roots fs min_size cutoff (move_roots home))).
    { split; apply Permutation_in;
        [apply Permutation_sym|]; apply sort_reverse_perm. }
    rewrite Hperm, scan_roots_In. split.
    + intros (root & n & Hroot & Hfs & Hin).
      apply scan_walk_In in Hin as (d & ds & fl & name & st & Hin).
      exists root, n, d, ds, fl, name, st. tauto.
    + intros (root & n & d & ds & fl & name & st & Hroot & Hfs & Hin).
      exists root, n. split; [exact Hroot|]. split; [exact Hfs|].
      apply scan_walk_In. exists d, ds, fl, name, st. exact Hin.
  - intros top n Hwf Hskip.
    destruct (scan_walk min_size cutoff (walk top n)) as [|c rest] eqn:E;
      [reflexivity | exfalso].
    assert (Hin : In c (scan_walk min_size cutoff (walk top n)))
      by (rewrite E; now left).
    apply scan_walk_In in Hin as (d & ds & fl & name & st & Hin & Hs & _).
    pose proof (walk_prefix n top Hwf) as Hp.
    rewrite Forall_forall in Hp. specialize (Hp _ Hin). cbn [fst] in Hp.
    rewrite (skip_dir_mono _ _ Hp Hskip) in Hs. discriminate.
Qed.

Lemma skip_dir_subtree_witness :
  (In (candidate_of ("/Users/me/Documents/project/video.mov",
                     {| st_size := 500 * MB; st_mtime := days_ago 60 |}))
      [ candidate_of ("/Users/me/Documents/old.iso",
                      {| st_size := 500 * MB; st_mtime := days_ago 40 |});
        candidate_of ("/Users/me/Documents/project/video.mov",
                      {| st_size := 500 * MB; st_mtime := days_ago 60 |}) ]
   <-> exists root n dirpath ds files name st,
         In root (move_roots "/Users/me") /\ sample_fs root = Some n
         /\ In (dirpath, ds, files) (walk root n)
         /\ skip_dir dirpath = false
         /\ In (name, Some st) files
         /\ qualifies (200 * MB) (Fin 1697408000) st = true
         /\ candidate_of ("/Users/me/Documents/project/video.mov",
                          {| st_size := 500 * MB; st_mtime := days_ago 60 |})
            = candidate_of (join dirpath name, st))
  /\ scan_walk (200 * MB) (Fin 1697408000)
       (walk "/Users/me/Documents/project/.git"
          (Dir false
             [("objects",
               Dir false [("pack", regular (900 * MB) (days_ago 90))])]))
     = [].
Proof.
  pose proof (skip_dir_subtree sample_fs "/Users/me" sample_now (200 * MB) 30
                (Fin 1697408000)
                [ candidate_of ("/Users/me/Documents/old.iso",
                                {| st_size := 500 * MB;
                                   st_mtime := days_ago 40 |});
                  candidate_of ("/Users/me/Documents/project/video.mov",
                                {| st_size := 500 * MB;
                                   st_mtime := days_ago 60 |}) ]
                eq_refl eq_refl) as (_ & _ & Hiff & Hbelow).
  split; [apply Hiff|].
  apply Hbelow; reflexivity.
Defined.

(** C3 as stated fails on a directory whose name only begins with a reserved
    name: no component of [~/Documents/.github] is [.Trash] or [.git], yet
    the scan skips it, and its large, old file is not a candidate. *)
Lemma skip_dir_github_counterexample :
  has_reserved_segment "/Users/me/Documents/.github" = false
  /\ skip_dir "/Users/me/Documents/.github" = true
  /\ In ("/Users/me/Documents/.github", [],
         [("release.zip", Some {| st_size := 700 * MB; st_mtime := days_ago 90 |})])
        (walk "/Users/me/Documents" sample_documents)
  /\ qualifies (200 * MB) (Fin 1697408000)
       {| st_size := 700 * MB; st_mtime := days_ago 90 |} = true
  /\ scan_move_candidates sample_fs "/Users/me" sample_now (200 * MB) 30
     = Ok [ candidate_of ("/Users/me/Documents/old.iso",
                          {| st_size := 500 * MB; st_mtime := days_ago 40 |});
            candidate_of ("/Users/me/Documents/project/video.mov",
                          {| st_size := 500 * MB; st_mtime := days_ago 60 |}) ].
Proof.
  repeat split; try (vm_compute; reflexivity).
  vm_compute. right. left. reflexivity.
Qed.

(** ** [dir_size] and [report_path] *)

Lemma dir_size_files_app max_entries (f1 f2 : stat_files) (s : probe_state) :
  dir_size_files max_entries (f1 ++ f2)%list s
  = match dir_size_files max_entries f1 s with
    | Return r => Return r
    | Continue s' => dir_size_files max_entries f2 s'
    end.
Proof.
  revert s. induction f1 as [|[name [st|]] rest IH]; intros [[[t l] c] e];
    cbn [dir_size_files app]; [reflexivity | | apply IH].
  destruct (cap_reached max_entries (c + 1)); [reflexivity | apply IH].
Qed.

(** The two nested loops read the files of the walk one after the other. *)
Lemma dir_size_walk_flat max_entries (w : list walk_entry) (s : probe_state) :
  dir_size_walk max_entries w s
  = finish (dir_size_files max_entries (walk_files w) s).
Proof.
  revert s. induction w as [|[[root ds] files] rest IH]; intro s;
    [destruct s as [[[t l] c] e]; reflexivity|].
  cbn [dir_size_walk]. unfold walk_files. cbn [map snd List.concat].
  rewrite dir_size_files_app.
  destruct (dir_size_files max_entries files s); [reflexivity|].
  apply IH.
Qed.

Lemma dir_size_files_uncapped (fl : stat_files) (s : probe_state) :
  dir_size_files None fl s = Continue (state_after s fl).
Proof.
  revert s. induction fl as [|[name [st|]] rest IH]; intros [[[t l] c] e];
    cbn [dir_size_files cap_reached].
  - cbn. now rewrite !Z.add_0_r.
  - rewrite IH. cbn [state_after total_size count_scanned count_errors latest_after].
    now rewrite ?Z.add_0_r, ?Z.add_assoc.
  - rewrite IH. cbn [state_after total_size count_scanned count_errors latest_after].
    now rewrite ?Z.add_0_r, ?Z.add_assoc.
Qed.

Lemma dir_size_files_capped (m : Z) (fl : stat_files) (s : probe_state) :
  (0 < m)%Z -> (snd (fst s) < m)%Z ->
  finish (dir_size_files (Some m) fl s)
  = state_after s (capped_prefix (m - snd (fst s)) fl).
Proof.
  intro Hm. revert s.
  induction fl as [|[name [st|]] rest IH]; intros [[[t l] c] e] Hc;
    cbn [fst snd] in *; cbn [dir_size_files capped_prefix].
  - cbn. now rewrite !Z.add_0_r.
  - unfold cap_reached.
    assert (E : (m =? 0)%Z = false) by (apply Z.eqb_neq; lia).
    rewrite E. cbn [negb andb].
    destruct (m <=? c + 1)%Z eqn:Ec.
    + apply Z.leb_le in Ec.
      assert (E1 : (m - c <=? 1)%Z = true) by (apply Z.leb_le; lia).
      rewrite E1. cbn [finish state_after total_size count_scanned count_errors latest_after].
      now rewrite ?Z.add_0_r, ?Z.add_assoc.
    + apply Z.leb_gt in Ec.
      assert (E1 : (m - c <=? 1)%Z = false) by (apply Z.leb_gt; lia).
      rewrite E1. rewrite IH by (cbn; lia). cbn [fst snd].
      replace (m - (c + 1))%Z with (m - c - 1)%Z by lia.
      cbn [state_after total_size count_scanned count_errors latest_after].
      now rewrite ?Z.add_0_r, ?Z.add_assoc.
  - rewrite IH by (cbn; lia). cbn [fst snd].
    cbn [state_after total_size count_scanned count_errors latest_after].
    now rewrite ?Z.add_0_r, ?Z.add_assoc.
Qed.

Lemma latest_after_spec (fl : stat_files) :
  forall l,
  match latest_after l fl with
  | None => l = None /\ forall name st, ~ In (name, Some st) fl
  | Some m' =>
      (l = Some m' \/ exists name st, In (name, Some st) fl /\ st_mtime st = m')
      /\ (forall m, l = Some m -> (m <= m')%Q)
      /\ (forall name st, In (name, Some st) fl -> (st_mtime st <= m')%Q)
  end.
Proof.
  induction fl as [|[name [st|]] rest IH]; intro l; cbn [latest_after].
  - destruct l as [m|].
    + split; [now left|]. split; [|intros ? ? []].
      intros m0 [= ->]. apply Qle_refl.
    + split; [reflexivity | intros ? ? []].
  - match goal with |- context [latest_after ?l' rest] =>
      specialize (IH l'); destruct (latest_after l' rest) as [m'|] end.
    + destruct IH as (Hatt & Hlow & Hup). split; [|split].
      * destruct Hatt as [Hatt | (nm & s' & Hin & Hs')].
        -- destruct l as [m|].
           ++ destruct (Qltb m (st_mtime st)).
              ** right. exists name, st. split; [now left | congruence].
              ** now left.
           ++ right. exists name, st. split; [now left | congruence].
        -- right. exists nm, s'. split; [now right | assumption].
      * intros m ->. destruct (Qltb m (st_mtime st)) eqn:E.
        -- apply Qltb_lt in E. apply Qlt_le_weak.
           eapply Qlt_le_trans; [exact E | now apply Hlow].
        -- now apply Hlow.
      * intros nm s' [[= -> ->] | Hin]; [|eauto].
        destruct l as [m|].
        -- destruct (Qltb m (st_mtime s')) eqn:E.
           ++ now apply Hlow.
           ++ apply Qltb_ge in E. eapply Qle_trans; [exact E | now apply Hlow].
        -- now apply Hlow.
    + destruct IH as [IH _]. destruct l as [m|]; [|discriminate].
      destruct (Qltb m (st_mtime st)); discriminate.
  - specialize (IH l). destruct (latest_after l rest) as [m'|].
    + destruct IH as (Hatt & Hlow & Hup). split; [|split]; [|exact Hlow|].
      * destruct Hatt as [Hatt | (nm & s' & Hin & Hs')]; [now left|].
        right. exists nm, s'. split; [now right | assumption].
      * intros nm s' [H | Hin]; [discriminate | eauto].
    + destruct IH as [-> Hno]. split; [reflexivity|].
      intros nm s' [H | Hin]; [discriminate | now apply (Hno nm s')].
Qed.

Lemma latest_after_is_latest (fl : stat_files) :
  is_latest fl (latest_after None fl).
Proof.
  pose proof (latest_after_spec fl None) as H. unfold is_latest.
  destruct (latest_after None fl) as [m|].
  - destruct H as ([H | H] & _ & Hup); [discriminate | now split].
  - now destruct H.
Qed.

Lemma dir_size_uncapped path n :
  dir_size path n None
  = (total_size (walk_files (walk path n)),
     latest_after None (walk_files (walk path n)),
     count_scanned (walk_files (walk path n)),
     count_errors (walk_files (walk path n))).
Proof.
  unfold dir_size. now rewrite dir_size_walk_flat, dir_size_files_uncapped.
Qed.

Lemma dir_size_capped path n m :
  (0 < m)%Z ->
  dir_size path n (Some m)
  = (total_size (capped_prefix m (walk_files (walk path n))),
     latest_after None (capped_prefix m (walk_files (walk path n))),
     count_scanned (capped_prefix m (walk_files (walk path n))),
     count_errors (capped_prefix m (walk_files (walk path n)))).
Proof.
  intro Hm. unfold dir_size.
  rewrite dir_size_walk_flat, dir_size_files_capped by (cbn; lia).
  cbn [fst snd state_after]. now rewrite Z.sub_0_r.
Qed.

(** C5: a path that does not exist gives [None], never a report; a path
    that exists gives a report with that path and with what [dir_size]
    computes, which without a cap is the total size, the latest
    modification time, the number of files read and the number of failed
    [stat] calls over the files of the walk. *)
Theorem report_path_probe (fs : filesystem) (path : string)
    (max_entries : option Z) :
  (report_path fs path max_entries = None <-> fs path = None)
  /\ (forall n, fs path = Some n ->
      exists r,
        report_path fs path max_entries = Some r
        /\ Report.path r = path
        /\ (Report.size r, Report.latest r, Report.scanned r, Report.errors r)
           = dir_size path n max_entries)
  /\ (forall n, fs path = Some n ->
      exists r,
        report_path fs path None = Some r
        /\ Report.path r = path
        /\ Report.size r = total_size (walk_files (walk path n))
        /\ is_latest (walk_files (walk path n)) (Report.latest r)
        /\ Report.scanned r = count_scanned (walk_files (walk path n))
        /\ Report.errors r = count_errors (walk_files (walk path n))).
Proof.
  unfold report_path. split; [|split].
  - destruct (fs path) as [n|]; [|tauto].
    destruct (dir_size path n max_entries) as [[[t l] c] e].
    split; discriminate.
  - intros n ->. destruct (dir_size path n max_entries) as [[[t l] c] e].
    eexists. split; [reflexivity|]. now split.
  - intros n ->. rewrite dir_size_uncapped.
    eexists. split; [reflexivity|]. cbn.
    repeat split; try reflexivity. apply latest_after_is_latest.
Qed.

Lemma report_path_probe_witness :
  report_path sample_fs "/Users/me/Desktop" None = None
  /\ exists r,
       report_path sample_fs "/Users/me/Documents" None = Some r
       /\ Report.path r = "/Users/me/Documents"
       /\ Report.size r = (3300 * MB)%Z
       /\ Report.scanned r = 6%Z
       /\ Report.errors r = 1%Z.
Proof.
  split.
  - apply (proj1 (report_path_probe sample_fs "/Users/me/Desktop" None)).
    reflexivity.
  - destruct (proj2 (proj2 (report_path_probe sample_fs "/Users/me/Documents" None))
                sample_documents eq_refl)
      as (r & Hr & Hp & Hs & _ & Hc & He).
    exists r. repeat split; assumption.
Defined.

Lemma count_scanned_nonneg (fl : stat_files) : (0 <= count_scanned fl)%Z.
Proof.
  induction fl as [|[name [st|]] rest IH]; cbn [count_scanned]; lia.
Qed.

Lemma count_errors_nonneg (fl : stat_files) : (0 <= count_errors fl)%Z.
Proof.
  induction fl as [|[name [st|]] rest IH]; cbn [count_errors]; lia.
Qed.

Lemma total_size_nonneg (fl : stat_files) :
  nonneg_sizes fl -> (0 <= total_size fl)%Z.
Proof.
  induction fl as [|[name [st|]] rest IH]; intro H; cbn [total_size];
    [lia | |].
  - assert (0 <= st_size st)%Z by (apply (H name); now left).
    assert (0 <= total_size rest)%Z; [|lia].
    apply IH. intros nm s' Hin. apply (H nm). now right.
  - apply IH. intros nm s' Hin. apply (H nm). now right.
Qed.

Lemma total_size_app (f1 f2 : stat_files) :
  total_size (f1 ++ f2)%list = (total_size f1 + total_size f2)%Z.
Proof.
  induction f1 as [|[name [st|]] rest IH]; cbn [total_size app];
    [reflexivity | rewrite IH; lia | exact IH].
Qed.

Lemma count_errors_app (f1 f2 : stat_files) :
  count_errors (f1 ++ f2)%list = (count_errors f1 + count_errors f2)%Z.
Proof.
  induction f1 as [|[name [st|]] rest IH]; cbn [count_errors app];
    [reflexivity | exact IH | rewrite IH; lia].
Qed.

Lemma capped_prefix_prefix (fl : stat_files) :
  forall k, exists suf, fl = (capped_prefix k fl ++ suf)%list.
Proof.
  induction fl as [|[name [st|]] rest IH]; intro k; cbn [capped_prefix].
  - exists []. reflexivity.
  - destruct (k <=? 1)%Z.
    + exists rest. reflexivity.
    + destruct (IH (k - 1)%Z) as [suf H]. exists suf. cbn [app]. congruence.
  - destruct (IH k) as [suf H]. exists suf. cbn [app]. congruence.
Qed.

Lemma capped_prefix_count (fl : stat_files) :
  forall k, (1 <= k)%Z ->
  count_scanned (capped_prefix k fl) = Z.min k (count_scanned fl).
Proof.
  induction fl as [|[name [st|]] rest IH]; intros k Hk;
    cbn [capped_prefix count_scanned].
  - lia.
  - pose proof (count_scanned_nonneg rest).
    destruct (k <=? 1)%Z eqn:E.
    + apply Z.leb_le in E. cbn [count_scanned]. lia.
    + apply Z.leb_gt in E. cbn [count_scanned]. rewrite IH by lia. lia.
  - now apply IH.
Qed.

Lemma capped_prefix_all (fl : stat_files) :
  forall k, (count_scanned fl < k)%Z -> capped_prefix k fl = fl.
Proof.
  induction fl as [|[name [st|]] rest IH]; intros k Hk;
    cbn [capped_prefix count_scanned] in *; [reflexivity | |].
  - pose proof (count_scanned_nonneg rest).
    destruct (k <=? 1)%Z eqn:E; [apply Z.leb_le in E; lia|].
    rewrite IH by lia. reflexivity.
  - now rewrite IH.
Qed.

(** A cap of [0] is tested as false by [if max_entries and ...]: the
    loops run as they do without a cap, on every list of files and from
    every state. *)
Lemma dir_size_files_zero_cap (fl : stat_files) :
  forall s, dir_size_files (Some 0%Z) fl s = dir_size_files None fl s.
Proof.
  induction fl as [|[name [st|]] rest IH]; intros [[[t l] c] e];
    cbn [dir_size_files cap_reached Z.eqb negb andb]; auto.
Qed.

Lemma dir_size_walk_zero_cap (w : list walk_entry) :
  forall s, dir_size_walk (Some 0%Z) w s = dir_size_walk None w s.
Proof.
  induction w as [|[[root ds] files] rest IH]; intro s;
    cbn [dir_size_walk]; [reflexivity|].
  rewrite dir_size_files_zero_cap.
  destruct (dir_size_files None files s); [reflexivity | apply IH].
Qed.

(** C6, as amended: with a positive cap [m] the probe reads the files of
    the walk until [m] of them have been read, and reports on that initial
    part only.  When the tree has at least [m] readable files the reported
    count is [m] and, file sizes being non-negative, the reported total is
    at most the total of the uncapped probe; otherwise the cap changes
    nothing.  On every tree the cap [0] gives the report of the uncapped
    probe. *)
Theorem dir_size_cap (path : string) (n : node) (m : Z) :
  (0 < m)%Z ->
  nonneg_sizes (walk_files (walk path n)) ->
  let files := walk_files (walk path n) in
  let capped := dir_size path n (Some m) in
  let full := dir_size path n None in
  (exists rest, files = (capped_prefix m files ++ rest)%list)
  /\ probe_total capped = total_size (capped_prefix m files)
  /\ probe_scanned capped = count_scanned (capped_prefix m files)
  /\ probe_errors capped = count_errors (capped_prefix m files)
  /\ is_latest (capped_prefix m files) (probe_latest capped)
  /\ ((m <= probe_scanned full)%Z ->
      probe_scanned capped = m
      /\ (probe_total capped <= probe_total full)%Z
      /\ (probe_errors capped <= probe_errors full)%Z)
  /\ ((probe_scanned full < m)%Z -> capped = full)
  /\ dir_size path n (Some 0%Z) = full.
Proof.
  intros Hm Hsizes files capped full. subst capped full.
  assert (Hzero : dir_size path n (Some 0%Z) = dir_size path n None)
    by apply dir_size_walk_zero_cap.
  rewrite Hzero.
  rewrite dir_size_capped by exact Hm. rewrite dir_size_uncapped.
  fold files in Hsizes |- *.
  unfold probe_total, probe_scanned, probe_errors, probe_latest.
  cbn [fst snd].
  destruct (capped_prefix_prefix files m) as [rest Hrest].
  split; [now exists rest|].
  repeat (split; [reflexivity|]).
  split; [apply latest_after_is_latest|]. split.
  - intro Hreach. rewrite capped_prefix_count by lia.
    split; [lia|].
    assert (Hr : nonneg_sizes rest).
    { intros nm st Hin. apply (Hsizes nm). rewrite Hrest.
      apply in_or_app. now right. }
    pose proof (total_size_nonneg rest Hr).
    pose proof (count_errors_nonneg rest).
    rewrite Hrest at 2 4. rewrite total_size_app, count_errors_app. lia.
  - split; [|reflexivity]. intro Hfew. now rewrite capped_prefix_all.
Qed.

Lemma dir_size_cap_witness :
  (exists rest,
     walk_files (walk "/Users/me/Documents" sample_documents)
     = (capped_prefix 2 (walk_files (walk "/Users/me/Documents" sample_documents))
          ++ rest)%list)
  /\ dir_size "/Users/me/Documents" sample_documents (Some 2%Z)
     = ((600 * MB)%Z, Some (days_ago 40), 2%Z, 0%Z)
  /\ dir_size "/Users/me/Documents" sample_documents None
     = ((3300 * MB)%Z, Some (days_ago 2), 6%Z, 1%Z)
  /\ dir_size "/Users/me/Documents" sample_documents (Some 0%Z)
     = dir_size "/Users/me/Documents" sample_documents None.
Proof.
  assert (Hs : nonneg_sizes (walk_files (walk "/Users/me/Documents" sample_documents))).
  { intros name st Hin. vm_compute in Hin.
    repeat (destruct Hin as [Hin | Hin];
            [ first [ discriminate Hin
                    | (injection Hin as _ <-; vm_compute; discriminate) ] | ]).
    contradiction. }
  pose proof (dir_size_cap "/Users/me/Documents" sample_documents 2
                eq_refl Hs) as (Hpre & _ & _ & _ & _ & _ & _ & Hzero).
  split; [exact Hpre|]. split; [vm_compute; reflexivity|].
  split; [vm_compute; reflexivity | exact Hzero].
Defined.

(** C6 as stated fails for the cap [0]: the count of files read is at
    least [0] from the start, yet nothing stops and all files are read. *)
Lemma dir_size_cap_zero_counterexample :
  dir_size "/Users/me/Documents" sample_documents (Some 0%Z)
  = dir_size "/Users/me/Documents" sample_documents None
  /\ probe_scanned (dir_size "/Users/me/Documents" sample_documents (Some 0%Z))
     = 6%Z
  /\ probe_scanned (dir_size "/Users/me/Documents" sample_documents (Some 0%Z))
     <> 0%Z.
Proof. repeat split; vm_compute; discriminate. Qed.

(** ** [write_move_candidates] *)

Lemma append_nil_r (s : string) : s ++ "" = s.
Proof. induction s as [|c s IH]; cbn [append]; congruence. Qed.

Lemma write_rows_ages clock items :
  forall i ages buf,
  ages_at clock i items ages ->
  write_rows clock i items buf = (buf ++ manifest_rows items ages, Ok tt).
Proof.
  induction items as [|item rest IH]; intros i ages buf H;
    destruct ages as [|age ages]; cbn [ages_at] in H; try contradiction.
  - cbn [write_rows manifest_rows]. now rewrite append_nil_r.
  - destruct H as [Hage Hrest]. cbn [write_rows manifest_rows].
    rewrite Hage, (IH _ _ _ Hrest). unfold manifest_row.
    now rewrite !append_assoc.
Qed.

(** C9: when the directory of the output path can be made and the file
    opened, the file holds afterwards the header row followed by one row
    per candidate in list order, each row the path, the size in bytes and
    the age text joined by commas and ended by a newline, with nothing
    quoted or escaped; what the file held before is gone and no other
    file changes. *)
Theorem write_move_candidates_manifest (env : os_env) (clock : nat -> Q)
    (candidates : list Candidate.t) (ages : list string)
    (output_path : string) (s : store) :
  dirname output_path <> "" ->
  makedirs_ok env (dirname output_path) = true ->
  open_ok env output_path = true ->
  ages_at clock 0 candidates ages ->
  exists s',
    write_move_candidates env clock candidates output_path s = (s', Ok tt)
    /\ s' output_path
       = Some (manifest_header ++ manifest_rows candidates ages)
    /\ (forall p, p <> output_path -> s' p = s p).
Proof.
  intros Hd Hmk Hop Hages. unfold write_move_candidates, makedirs.
  apply String.eqb_neq in Hd. rewrite Hd, Hmk, Hop.
  rewrite (write_rows_ages _ _ _ _ _ Hages).
  eexists. split; [reflexivity|]. unfold store_write. split.
  - now rewrite String.eqb_refl.
  - intros p Hp. apply String.eqb_neq in Hp. now rewrite Hp.
Qed.

Lemma write_move_candidates_manifest_witness :
  exists s',
    write_move_candidates permissive (fun _ => sample_now) sample_candidates
      "scripts/move_candidates.csv" sample_store = (s', Ok tt)
    /\ s' "scripts/move_candidates.csv"
       = Some ("path,size_bytes,age" ++ newline
               ++ "/Users/me/Movies/a,b.mov,943718400,40d" ++ newline
               ++ "/Users/me/Documents/old.iso,524288000,2d" ++ newline)
    /\ (forall p, p <> "scripts/move_candidates.csv" -> s' p = sample_store p).
Proof.
  apply (write_move_candidates_manifest permissive (fun _ => sample_now)
           sample_candidates ["40d"; "2d"] "scripts/move_candidates.csv"
           sample_store).
  - vm_compute. discriminate.
  - reflexivity.
  - reflexivity.
  - vm_compute. repeat split.
Defined.

(** A path without a directory part cannot be written: [os.makedirs("")]
    fails before the file is opened. *)
Example write_move_candidates_bare_name :
  exists msg,
    write_move_candidates permissive (fun _ => sample_now) sample_candidates
      "move_candidates.csv" sample_store
    = (sample_store, Err (OSError msg)).
Proof. eexists. reflexivity. Qed.

(** ** Binary64 rounding *)

Section Rounding.

Local Open Scope Q_scope.

Lemma pow2_Qpower (e : Z) : pow2 e == 2 ^ e.
Proof.
  unfold pow2. destruct (Z.leb_spec 0 e) as [H|H].
  - now apply Zpower_Qpower.
  - replace e with (- (- e))%Z at 2 by lia.
    pose proof (Zpower_Qpower 2 (- e) ltac:(lia)) as Hz.
    change (inject_Z 2) with 2 in Hz.
    rewrite Qpower_opp, <- Hz.
    assert (Hp : (0 < 2 ^ (- e))%Z) by (apply Z.pow_pos_nonneg; lia).
    destruct (2 ^ (- e))%Z as [|p|p]; try lia. reflexivity.
Qed.

Lemma pow2_pos (e : Z) : 0 < pow2 e.
Proof. rewrite pow2_Qpower. now apply Qpower_0_lt. Qed.

Lemma pow2_add (a b : Z) : pow2 (a + b) == pow2 a * pow2 b.
Proof. rewrite !pow2_Qpower. now apply Qpower_plus. Qed.

Lemma pow2_le (a b : Z) : (a <= b)%Z -> pow2 a <= pow2 b.
Proof.
  intro H. rewrite !pow2_Qpower. apply Qpower_le_compat_l; [exact H|discriminate].
Qed.

Lemma pow2_lt (a b : Z) : (a < b)%Z -> pow2 a < pow2 b.
Proof.
  intro H. rewrite !pow2_Qpower. now apply Qpower_lt_compat_l.
Qed.

Lemma pow2_lt_inv (a b : Z) : pow2 a < pow2 b -> (a < b)%Z.
Proof.
  rewrite !pow2_Qpower. intro H. now apply (Qpower_lt_compat_l_inv 2).
Qed.

Lemma pow2_inject (e : Z) : (0 <= e)%Z -> pow2 e = inject_Z (2 ^ e).
Proof.
  intro H. unfold pow2. apply Z.leb_le in H. now rewrite H.
Qed.

Lemma pow2_sub (a b : Z) : pow2 a / pow2 b == pow2 (a - b).
Proof.
  assert (H : pow2 a == pow2 (a - b) * pow2 b).
  { rewrite <- pow2_add. now replace (a - b + b)%Z with a by lia. }
  rewrite H. apply Qdiv_mult_l.
  intro E. pose proof (pow2_pos b) as Hp. rewrite E in Hp. discriminate.
Qed.

(** An exponent is determined by the binade it names. *)
Lemma binade_unique (q : Q) (e e' : Z) :
  pow2 e <= q -> q < pow2 (e + 1) ->
  pow2 e' <= q -> q < pow2 (e' + 1) -> e = e'.
Proof.
  intros H1 H2 H3 H4.
  assert (e < e' + 1)%Z by (apply pow2_lt_inv; eapply Qle_lt_trans; eauto).
  assert (e' < e + 1)%Z by (apply pow2_lt_inv; eapply Qle_lt_trans; eauto).
  lia.
Qed.

Lemma inject_Z_pow2_bounds (a : Z) :
  (0 < a)%Z ->
  pow2 (Z.log2 a) <= inject_Z a /\ inject_Z a < pow2 (Z.log2 a + 1).
Proof.
  intro H. pose proof (Z.log2_nonneg a) as Hl.
  destruct (Z.log2_spec a H) as [H1 H2].
  rewrite !pow2_inject by lia. rewrite <- Zle_Qle, <- Zlt_Qlt.
  replace (Z.log2 a + 1)%Z with (Z.succ (Z.log2 a)) by lia. now split.
Qed.

Lemma ilog2_spec (q : Q) :
  0 < q -> pow2 (ilog2 q) <= q /\ q < pow2 (ilog2 q + 1).
Proof.
  intro Hq. destruct q as [a b].
  assert (Ha : (0 < a)%Z) by (unfold Qlt in Hq; cbn in Hq; lia).
  destruct (inject_Z_pow2_bounds a Ha) as [Ha1 Ha2].
  destruct (inject_Z_pow2_bounds (Zpos b) eq_refl) as [Hb1 Hb2].
  assert (Hb : 0 < inject_Z (Zpos b)) by reflexivity.
  assert (Hab : a # b == inject_Z a / inject_Z (Zpos b)) by apply Qmake_Qdiv.
  unfold ilog2. cbn [Qnum Qden].
  set (la := Z.log2 a) in *. set (lb := Z.log2 (Zpos b)) in *.
  assert (Hup : a # b < pow2 (la - lb + 1)).
  { rewrite Hab. apply Qlt_shift_div_r; [exact Hb|].
    eapply Qlt_le_trans; [exact Ha2|].
    replace (la + 1)%Z with ((la - lb + 1) + lb)%Z by lia.
    rewrite pow2_add. apply Qmult_le_l; [apply pow2_pos | exact Hb1]. }
  assert (Hlow : pow2 (la - lb - 1) <= a # b).
  { rewrite Hab. apply Qle_shift_div_l; [exact Hb|].
    eapply Qle_trans; [|exact Ha1].
    replace la with ((la - lb - 1) + (lb + 1))%Z at 2 by lia.
    rewrite pow2_add. apply Qmult_le_l; [apply pow2_pos|].
    now apply Qlt_le_weak. }
  destruct (Qle_bool (pow2 (la - lb)) (a # b)) eqn:E.
  - apply Qle_bool_iff in E. now split.
  - split; [exact Hlow|].
    replace (la - lb - 1 + 1)%Z with (la - lb)%Z by lia.
    apply Qnot_le_lt. intro H. apply Qle_bool_iff in H. congruence.
Qed.

Lemma round_half_even_bounds (q : Q) :
  (Qfloor q <= round_half_even q <= Qfloor q + 1)%Z.
Proof.
  unfold round_half_even.
  destruct (q - inject_Z (Qfloor q) ?= 1 # 2); [|lia|lia].
  destruct (Z.even (Qfloor q)); lia.
Qed.

Lemma round_half_even_comp (q q' : Q) :
  q == q' -> round_half_even q = round_half_even q'.
Proof.
  intro H. unfold round_half_even. rewrite (Qfloor_comp q q' H).
  assert (E : (q - inject_Z (Qfloor q') ?= 1 # 2)
              = (q' - inject_Z (Qfloor q') ?= 1 # 2)).
  { apply Qcompare_comp; [now rewrite H | reflexivity]. }
  now rewrite E.
Qed.

Lemma round_half_even_Z (z : Z) : round_half_even (inject_Z z) = z.
Proof.
  unfold round_half_even. rewrite Qfloor_Z.
  assert (E : (inject_Z z - inject_Z z ?= 1 # 2) = (0 ?= 1 # 2)).
  { apply Qcompare_comp; [ring | reflexivity]. }
  now rewrite E.
Qed.

Lemma round_half_even_ge (z : Z) (q : Q) :
  inject_Z z <= q -> (z <= round_half_even q)%Z.
Proof.
  intro H. apply Qfloor_resp_le in H. rewrite Qfloor_Z in H.
  pose proof (round_half_even_bounds q). lia.
Qed.

Lemma round_half_even_le (z : Z) (q : Q) :
  q <= inject_Z z -> (round_half_even q <= z)%Z.
Proof.
  intro H. pose proof (round_half_even_bounds q) as Hb.
  pose proof (Qfloor_le q) as Hf.
  assert (Hz : (Qfloor q <= z)%Z).
  { rewrite Zle_Qle. eapply Qle_trans; eauto. }
  destruct (Z.eq_dec (Qfloor q) z) as [E|E]; [|lia].
  assert (Hq : q == inject_Z z).
  { apply Qle_antisym; [exact H | now rewrite <- E]. }
  rewrite (round_half_even_comp _ _ Hq), round_half_even_Z. lia.
Qed.

Lemma round64_pos_exact (q : Q) (m j : Z) :
  (0 < m < 2 ^ 53)%Z -> (-1074 <= j)%Z ->
  q == inject_Z m * pow2 j -> q < pow2 1024 ->
  round64_pos q = Fin (Qred q).
Proof.
  intros Hm Hj Hq Hlt.
  assert (Hmq : 0 < inject_Z m) by (rewrite <- (Zlt_Qlt 0); lia).
  assert (Hqpos : 0 < q).
  { rewrite Hq. apply Qmult_lt_0_compat; [exact Hmq | apply pow2_pos]. }
  destruct (ilog2_spec q Hqpos) as [He1 He2].
  destruct (inject_Z_pow2_bounds m) as [Hm1 Hm2]; [lia|].
  assert (HL : (Z.log2 m < 53)%Z) by (apply Z.log2_lt_pow2; lia).
  set (L := Z.log2 m) in *.
  assert (Hbin1 : pow2 (L + j) <= q).
  { rewrite Hq, pow2_add. apply Qmult_le_compat_r; [exact Hm1|].
    apply Qlt_le_weak, pow2_pos. }
  assert (Hbin2 : q < pow2 (L + j + 1)).
  { rewrite Hq. replace (L + j + 1)%Z with ((L + 1) + j)%Z by lia.
    rewrite pow2_add. apply Qmult_lt_compat_r; [apply pow2_pos | exact Hm2]. }
  assert (He : ilog2 q = (L + j)%Z).
  { eapply binade_unique; eauto. }
  unfold round64_pos. rewrite He. cbv zeta.
  set (p := Z.max (L + j - 52) (-1074)).
  assert (Hp : (p <= j)%Z) by (unfold p; lia).
  assert (Hscaled : q / pow2 p == inject_Z (m * 2 ^ (j - p))).
  { rewrite Hq, inject_Z_mult, <- pow2_inject by lia.
    unfold Qdiv. rewrite <- Qmult_assoc. apply Qmult_comp; [reflexivity|].
    apply pow2_sub. }
  rewrite (round_half_even_comp _ _ Hscaled), round_half_even_Z.
  assert (Hv : inject_Z (m * 2 ^ (j - p)) * pow2 p == q).
  { rewrite inject_Z_mult, <- pow2_inject, <- Qmult_assoc, <- pow2_add by lia.
    replace (j - p + p)%Z with j by lia. now symmetry. }
  destruct (Qle_bool _ _) eqn:E.
  - apply Qle_bool_iff in E. rewrite Hv in E.
    exfalso. exact (Qlt_not_le _ _ Hlt E).
  - f_equal. now apply Qred_complete.
Qed.

(** Rounding leaves a value of binary64 as it is. *)
Lemma round64_exact (v : Q) :
  representable v -> v < pow2 1024 -> round64 v = Fin (Qred v).
Proof.
  intros (m & j & Hm & Hj & Hv) Hlt.
  destruct (Z.eq_dec m 0) as [-> | Hm0].
  - assert (H0 : v == 0) by (rewrite Hv; ring).
    rewrite (round64_zero v H0). f_equal. symmetry.
    now apply (Qred_complete v 0).
  - assert (Hpos : 0 < v).
    { rewrite Hv. apply Qmult_lt_0_compat; [|apply pow2_pos].
      rewrite <- (Zlt_Qlt 0). lia. }
    unfold round64. destruct v as [a b]. cbn [Qnum].
    unfold Qlt in Hpos. cbn in Hpos.
    destruct a as [|a|a]; try lia.
    apply (round64_pos_exact _ m j); auto. lia.
Qed.

Lemma Qred_inject_Z (n : Z) : Qred (inject_Z n) = inject_Z n.
Proof.
  unfold Qred, inject_Z.
  pose proof (Z.ggcd_gcd n 1) as Hg.
  pose proof (Z.ggcd_correct_divisors n 1) as Hd.
  destruct (Z.ggcd n 1) as [g [aa bb]]. cbn [fst snd] in *.
  rewrite Z.gcd_1_r in Hg. subst g. destruct Hd as [Ha Hb].
  replace aa with n by lia. replace bb with 1%Z by lia. reflexivity.
Qed.

Lemma Qred_idem (q : Q) : Qred (Qred q) = Qred q.
Proof. apply Qred_complete, Qred_correct. Qed.

(** What rounding a positive rational gives: infinity, or a value of
    binary64 that is no smaller than any power of two below the rational. *)
Lemma round64_pos_result (q : Q) :
  0 < q ->
  match round64_pos q with
  | Fin v =>
      representable v /\ v < pow2 1024 /\ Qred v = v
      /\ (forall k, (-1074 <= k)%Z -> pow2 k <= q -> pow2 k <= v)
  | Inf s => s = false
  | NaN => False
  end.
Proof.
  intro Hq. destruct (ilog2_spec q Hq) as [He1 He2].
  unfold round64_pos. set (e := ilog2 q) in *. cbv zeta.
  set (p := Z.max (e - 52) (-1074)).
  set (M := round_half_even (q / pow2 p)).
  assert (Hp : (-1074 <= p)%Z) by (unfold p; lia).
  assert (HM0 : (0 <= M)%Z).
  { apply round_half_even_ge. apply Qle_shift_div_l; [apply pow2_pos|].
    rewrite Qmult_0_l. now apply Qlt_le_weak. }
  assert (HM1 : (M <= 2 ^ 53)%Z).
  { apply round_half_even_le. apply Qlt_le_weak.
    apply Qlt_shift_div_r; [apply pow2_pos|].
    eapply Qlt_le_trans; [exact He2|].
    change (inject_Z (2 ^ 53)) with (pow2 53). rewrite <- pow2_add.
    apply pow2_le. unfold p. lia. }
  destruct (Qle_bool _ _) eqn:E; [reflexivity|].
  assert (Hlt : inject_Z M * pow2 p < pow2 1024).
  { apply Qnot_le_lt. intro H. apply Qle_bool_iff in H. congruence. }
  split; [|split; [|split]].
  - destruct (Z.eq_dec M (2 ^ 53)) as [HM | HM].
    + exists 1%Z, (53 + p)%Z. split; [lia|]. split; [lia|].
      rewrite Qred_correct, HM, pow2_add. change (inject_Z (2 ^ 53)) with (pow2 53).
      ring.
    + exists M, p. split; [lia|]. split; [exact Hp|]. apply Qred_correct.
  - now rewrite Qred_correct.
  - apply Qred_idem.
  - intros k Hk Hkq. rewrite Qred_correct.
    assert (Hke : (k <= e)%Z).
    { assert (k < e + 1)%Z; [|lia].
      apply pow2_lt_inv. eapply Qle_lt_trans; eauto. }
    assert (Hpe : (p <= e)%Z) by (unfold p; lia).
    assert (HMe : (2 ^ (e - p) <= M)%Z).
    { apply round_half_even_ge. rewrite <- pow2_inject by lia.
      rewrite <- pow2_sub. apply Qmult_le_compat_r; [exact He1|].
      apply Qlt_le_weak, Qinv_lt_0_compat, pow2_pos. }
    eapply Qle_trans; [apply (pow2_le k e Hke)|].
    replace e with ((e - p) + p)%Z at 1 by lia.
    rewrite pow2_add, pow2_inject by lia.
    apply Qmult_le_compat_r; [|apply Qlt_le_weak, pow2_pos].
    now rewrite <- Zle_Qle.
Qed.

(** [float(n)] for a non-negative integer: a value of binary64, equal to
    [n] below [2^53], and never below a power of two that [n] reaches. *)
Lemma float_of_int_result (n : Z) (x : Q) :
  (0 <= n)%Z -> float_of_int n = Ok x ->
  representable x /\ x < pow2 1024 /\ Qred x = x /\ 0 <= x
  /\ ((n < 2 ^ 53)%Z -> x = inject_Z n)
  /\ (forall k, (0 <= k)%Z -> (2 ^ k <= n)%Z -> pow2 k <= x).
Proof.
  intros Hn. unfold float_of_int, round64. cbn [inject_Z Qnum].
  destruct n as [|n|n]; try lia.
  - intros [= <-]. split; [|split; [|split; [|split; [|split]]]];
      try reflexivity; try discriminate.
    + exists 0%Z, 0%Z. split; [lia|]. split; [lia|]. reflexivity.
    + intros k Hk H. pose proof (Z.pow_pos_nonneg 2 k). lia.
  - pose proof (round64_pos_result (inject_Z (Zpos n)) eq_refl) as Hr.
    fold (inject_Z (Zpos n)).
    destruct (round64_pos (inject_Z (Zpos n))) as [v|s|] eqn:Ev;
      try discriminate.
    intros [= <-]. destruct Hr as (Hrep & Hlt & Hred & Hlow).
    split; [exact Hrep|]. split; [exact Hlt|]. split; [exact Hred|].
    split; [|split].
    + eapply Qle_trans; [|apply (Hlow 0%Z); [lia|]].
      * discriminate.
      * change (pow2 0) with (inject_Z 1). rewrite <- Zle_Qle. lia.
    + intro Hsmall.
      assert (Hex : round64_pos (inject_Z (Zpos n))
                    = Fin (Qred (inject_Z (Zpos n)))).
      { apply (round64_pos_exact _ (Zpos n) 0); try lia.
        - change (pow2 0) with 1. ring.
        - change (pow2 1024) with (inject_Z (2 ^ 1024)).
          rewrite <- Zlt_Qlt.
          assert (2 ^ 53 < 2 ^ 1024)%Z by (apply Z.pow_lt_mono_r; lia). lia. }
      rewrite Ev, Qred_inject_Z in Hex. congruence.
    + intros k Hk H. apply Hlow; [lia|].
      rewrite pow2_inject by lia. now rewrite <- Zle_Qle.
Qed.

End Rounding.

(** ** [format_size] *)

Lemma string_of_uint_digits (d : Decimal.uint) :
  PyStr.forallb is_ascii_digit (NilEmpty.string_of_uint d) = true.
Proof. induction d; cbn; auto. Qed.

Lemma str_of_int_digits (n : Z) : (0 <= n)%Z -> all_digits (str_of_int n).
Proof.
  intro H. unfold str_of_int, all_digits.
  destruct n as [|p|p]; try lia; cbn [Z.to_int NilZero.string_of_int].
  - split; [discriminate | reflexivity].
  - unfold NilZero.string_of_uint.
    destruct (Pos.to_uint p) eqn:E;
      try (split; [discriminate | apply string_of_uint_digits]).
    split; [discriminate | reflexivity].
Qed.

Lemma str_of_int_one_digit (r : Z) :
  (0 <= r < 10)%Z ->
  exists d, str_of_int r = String d "" /\ is_ascii_digit d = true.
Proof.
  intro H.
  assert (E : (r = 0 \/ r = 1 \/ r = 2 \/ r = 3 \/ r = 4 \/ r = 5 \/ r = 6
               \/ r = 7 \/ r = 8 \/ r = 9)%Z) by lia.
  repeat (destruct E as [-> | E]; [eexists; split; reflexivity|]).
  subst r. eexists; split; reflexivity.
Qed.

Section FormatSize.

Local Open Scope Q_scope.

Lemma format_1f_comp (q q' : Q) :
  q == q' -> format_1f (Fin q) = format_1f (Fin q').
Proof.
  intro H. unfold format_1f.
  assert (E1 : round_half_even (Qabs q * 10) = round_half_even (Qabs q' * 10)).
  { apply round_half_even_comp. now rewrite H. }
  assert (E2 : Qltb q 0 = Qltb q' 0).
  { unfold Qltb. f_equal. now apply Qleb_comp. }
  now rewrite E1, E2.
Qed.

Lemma format_1f_one_decimal (q : Q) : 0 <= q -> one_decimal (format_1f (Fin q)).
Proof.
  intro Hq. unfold format_1f.
  assert (E : Qltb q 0 = false) by now apply Qltb_ge.
  rewrite E. cbn [append].
  set (t := round_half_even (Qabs q * 10)).
  assert (Ht : (0 <= t)%Z).
  { apply round_half_even_ge. apply Qmult_le_0_compat; [apply Qabs_nonneg|].
    discriminate. }
  destruct (str_of_int_one_digit (t mod 10)) as (d & Hd & Hdig).
  { apply Z.mod_pos_bound. lia. }
  exists (str_of_int (t / 10)), d. rewrite Hd. repeat split.
  - apply str_of_int_digits. apply Z.div_pos; lia.
  - apply str_of_int_digits. apply Z.div_pos; lia.
  - exact Hdig.
Qed.

Lemma kibi_pos (k : nat) : 0 < kibi k.
Proof.
  unfold kibi. rewrite <- (Zlt_Qlt 0). apply Z.pow_pos_nonneg; lia.
Qed.

Lemma kibi_succ (k : nat) : kibi (S k) == kibi k * 1024.
Proof.
  unfold kibi. rewrite Nat2Z.inj_succ, Z.pow_succ_r by lia.
  rewrite inject_Z_mult. change (inject_Z 1024) with 1024. ring.
Qed.

Lemma div_kibi_succ (x v : Q) (i : nat) :
  v == x / kibi i -> v / 1024 == x / kibi (S i).
Proof.
  intro H. rewrite H, kibi_succ. field.
  intro E. pose proof (kibi_pos i) as Hp. rewrite E in Hp. discriminate.
Qed.

Lemma representable_div_1024 (v : Q) :
  representable v -> 1024 <= v -> representable (v / 1024).
Proof.
  intros (m & j & Hm & Hj & Hv) Hge.
  exists m, (j - 10)%Z. split; [exact Hm|].
  assert (Hjlow : (-43 < j)%Z).
  { destruct (Z.lt_ge_cases (-43) j) as [H | H]; [exact H|]. exfalso.
    apply (Qlt_not_le v 1024); [|exact Hge].
    rewrite Hv. change 1024 with (pow2 10).
    apply Qlt_le_trans with (inject_Z (2 ^ 53) * pow2 j).
    - apply Qmult_lt_compat_r; [apply pow2_pos|].
      rewrite <- Zlt_Qlt. lia.
    - change (inject_Z (2 ^ 53)) with (pow2 53). rewrite <- pow2_add.
      apply pow2_le. lia. }
  split; [lia|].
  rewrite Hv. change 1024 with (pow2 10). unfold Qdiv.
  rewrite <- Qmult_assoc. apply Qmult_comp; [reflexivity|]. apply pow2_sub.
Qed.

Lemma representable_comp (v v' : Q) :
  v == v' -> representable v -> representable v'.
Proof.
  intros E (m & j & Hm & Hj & Hv). exists m, j.
  split; [exact Hm|]. split; [exact Hj|]. now rewrite <- E.
Qed.

Lemma kibi_le (a b : nat) : (a <= b)%nat -> kibi a <= kibi b.
Proof.
  intro H. unfold kibi. rewrite <- Zle_Qle.
  apply Z.pow_le_mono_r; lia.
Qed.

Lemma div_kibi_lt (x v : Q) (i : nat) :
  v == x / kibi i -> v < 1024 -> x < kibi (S i).
Proof.
  intros Hv Hlt. rewrite kibi_succ.
  assert (Hx : x == v * kibi i).
  { rewrite Hv. field. intro E. pose proof (kibi_pos i) as Hp.
    rewrite E in Hp. discriminate. }
  rewrite Hx, (Qmult_comm (kibi i)).
  apply Qmult_lt_compat_r; [apply kibi_pos | exact Hlt].
Qed.

Lemma div_kibi_ge (x v : Q) (i : nat) :
  v == x / kibi i -> 1024 <= v -> kibi (S i) <= x.
Proof.
  intros Hv Hge. rewrite kibi_succ.
  assert (Hx : x == v * kibi i).
  { rewrite Hv. field. intro E. pose proof (kibi_pos i) as Hp.
    rewrite E in Hp. discriminate. }
  rewrite Hx, (Qmult_comm (kibi i)).
  apply Qmult_le_compat_r; [exact Hge | apply Qlt_le_weak, kibi_pos].
Qed.

(** One more turn of the loop on a value of at least 1024: the division
    is exact. *)
Lemma fdiv_1024_exact (v : Q) :
  representable v -> v < pow2 1024 -> 1024 <= v ->
  fdiv (Fin v) 1024 = Ok (Fin (Qred (v / 1024)))
  /\ representable (Qred (v / 1024))
  /\ Qred (v / 1024) < pow2 1024
  /\ 0 <= Qred (v / 1024).
Proof.
  intros Hrep Hlt Hge.
  assert (Hv0 : 0 <= v) by (eapply Qle_trans; [|exact Hge]; discriminate).
  assert (Hdiv : v / 1024 <= v).
  { apply Qle_shift_div_r; [reflexivity|].
    rewrite <- (Qmult_1_r v) at 1. apply Qmult_le_l; [|discriminate].
    eapply Qlt_le_trans; [|exact Hge]. reflexivity. }
  assert (Hrep' : representable (v / 1024)) by now apply representable_div_1024.
  split; [|split; [|split]].
  - unfold fdiv. cbn [Qnum]. f_equal.
    apply round64_exact; [exact Hrep'|]. eapply Qle_lt_trans; eauto.
  - eapply representable_comp; [|exact Hrep']. symmetry. apply Qred_correct.
  - rewrite Qred_correct. eapply Qle_lt_trans; eauto.
  - rewrite Qred_correct. apply Qle_shift_div_l; [reflexivity|].
    now rewrite Qmult_0_l.
Qed.

(** The loop over the units after [B]. *)
Lemma format_size_loop_tail (units : list string) :
  forall (v x : Q) (i : nat),
  ~ In "B"%string units ->
  representable v -> v < pow2 1024 -> 0 <= v -> v == x / kibi i ->
  exists k : nat,
    (k <= List.length units)%nat
    /\ format_size_loop units (Fin v)
       = Ok (format_1f (Fin (x / kibi (i + k))) ++ " " ++ nth k units "EB")%string
    /\ ((k < List.length units)%nat -> x < kibi (S (i + k)))
    /\ ((0 < k)%nat -> kibi (i + k) <= x).
Proof.
  induction units as [|unit rest IH]; intros v x i HB Hrep Hlt Hv0 Hv.
  - exists O. rewrite Nat.add_0_r. cbn [format_size_loop nth List.length].
    rewrite (format_1f_comp _ _ Hv).
    split; [lia|]. split; [reflexivity|]. split; intro; lia.
  - cbn [format_size_loop flt]. destruct (Qltb v 1024) eqn:E.
    + apply Qltb_lt in E. exists O. rewrite Nat.add_0_r.
      assert (Hu : String.eqb unit "B" = false).
      { apply String.eqb_neq. intros ->. apply HB. now left. }
      rewrite Hu, (format_1f_comp _ _ Hv). cbn [nth List.length].
      split; [lia|]. split; [reflexivity|].
      split; [intros _; now apply (div_kibi_lt x v) | intro; lia].
    + apply Qltb_ge in E.
      destruct (fdiv_1024_exact v Hrep Hlt E) as (Hf & Hrep' & Hlt' & Hv0').
      rewrite Hf. cbn [bind].
      destruct (IH (Qred (v / 1024)) x (S i)) as (k & Hk & Hres & Hup & Hlow);
        auto.
      { intro H. apply HB. now right. }
      { rewrite Qred_correct. now apply div_kibi_succ. }
      exists (S k). rewrite Nat.add_succ_r. cbn [nth List.length].
      cbn [Nat.add] in Hres, Hup, Hlow.
      split; [lia|]. split; [exact Hres|]. split.
      * intro H. apply Hup. lia.
      * intros _. destruct k as [|k].
        -- rewrite Nat.add_0_r. now apply (div_kibi_ge x v).
        -- apply Hlow. lia.
Qed.

Lemma Qtrunc_inject_Z (n : Z) : Qtrunc (inject_Z n) = n.
Proof. unfold Qtrunc, inject_Z. cbn [Qnum Qden]. apply Z.quot_1_r. Qed.

(** The rendering in terms of the float [x] of the byte count: the unit
    of index [k] is the one with [1024^k <= x < 1024^(k+1)], [EB] taking
    everything from [1024^6] on. *)
Lemma format_size_float_units (n : Z) (x : Q) :
  (0 <= n)%Z -> float_of_int n = Ok x ->
  exists (k : nat) (text : string),
    (k <= 6)%nat
    /\ format_size n = Ok (text ++ " " ++ unit_name k)%string
    /\ (k = O <-> (n < 1024)%Z)
    /\ (k = O -> text = str_of_int n /\ all_digits text)
    /\ ((0 < k)%nat ->
        text = format_1f (Fin (x / kibi k)) /\ one_decimal text)
    /\ ((1024 <= n < 1024 ^ 2)%Z -> k = 1%nat)
    /\ ((0 < k)%nat -> kibi k <= x)
    /\ ((k < 6)%nat -> x < kibi (S k))
    /\ ((n < 2 ^ 53)%Z -> x = inject_Z n).
Proof.
  intros Hn Hx.
  destruct (float_of_int_result n x Hn Hx)
    as (Hrep & Hlt & Hred & Hx0 & Hsmall & Hbig).
  assert (Hnx : (n < 1024)%Z <-> x < 1024).
  { destruct (Z.lt_ge_cases n (2 ^ 53)) as [H | H].
    - rewrite (Hsmall H). change 1024 with (inject_Z 1024).
      now rewrite <- Zlt_Qlt.
    - assert (H53 : pow2 53 <= x) by (apply Hbig; lia).
      assert (2 ^ 53 = 9007199254740992)%Z by reflexivity.
      split; [lia|]. intro Hc. exfalso.
      apply (Qlt_not_le _ _ Hc). eapply Qle_trans; [|exact H53]. discriminate. }
  unfold format_size. rewrite Hx. cbn [bind].
  unfold size_units. cbn [format_size_loop flt].
  destruct (Qltb x 1024) eqn:E.
  - apply Qltb_lt in E. pose proof (proj2 Hnx E) as Hn1024.
    assert (Hxn : x = inject_Z n).
    { apply Hsmall. assert (2 ^ 53 = 9007199254740992)%Z by reflexivity. lia. }
    exists O, (str_of_int n).
    cbn [String.eqb Ascii.eqb Bool.eqb int_of_float bind].
    rewrite Hxn, Qtrunc_inject_Z.
    split; [lia|]. split; [reflexivity|].
    split; [tauto|]. split; [intros _; split; [reflexivity|]|].
    { now apply str_of_int_digits. }
    split; [intro; lia|]. split; [intro; lia|]. split; [intro; lia|].
    split; [intros _; now rewrite <- Hxn | intros _; reflexivity].
  - apply Qltb_ge in E.
    destruct (fdiv_1024_exact x Hrep Hlt E) as (Hf & Hrep' & Hlt' & Hv0').
    rewrite Hf. cbn [bind].
    destruct (format_size_loop_tail ["KB"; "MB"; "GB"; "TB"; "PB"]%string
                (Qred (x / 1024)) x 1)
      as (k & Hk & Hres & Hup & Hlow); auto.
    { cbn [In]. intros [H|[H|[H|[H|[H|H]]]]]; try discriminate H. exact H. }
    { rewrite Qred_correct. unfold kibi. reflexivity. }
    cbn [List.length Nat.add] in *.
    exists (S k), (format_1f (Fin (x / kibi (S k)))).
    split; [lia|]. split; [exact Hres|].
    assert (Hk1 : kibi (S k) <= x).
    { destruct k as [|k]; [|apply Hlow; lia].
      apply (div_kibi_ge x x 0); [|exact E].
      unfold kibi. cbn. field. }
    split.
    { split; [discriminate|]. intro H. apply Hnx in H.
      exfalso. exact (Qlt_not_le _ _ H E). }
    split; [discriminate|].
    split.
    { intros _. split; [reflexivity|]. apply format_1f_one_decimal.
      apply Qle_shift_div_l; [apply kibi_pos|]. now rewrite Qmult_0_l. }
    split.
    { intros [Hlo Hhi]. destruct k as [|k]; [reflexivity|]. exfalso.
      assert (Hxn : x = inject_Z n).
      { apply Hsmall. assert (2 ^ 53 = 9007199254740992)%Z by reflexivity. lia. }
      assert (H2 : kibi 2 <= x).
      { eapply Qle_trans; [apply (kibi_le 2 (S (S k))); lia | exact Hk1]. }
      rewrite Hxn in H2. unfold kibi in H2. rewrite <- Zle_Qle in H2.
      change (Z.of_nat 2) with 2%Z in H2. lia. }
    split; [intros _; exact Hk1|].
    split; [intro H; apply Hup; lia | exact Hsmall].
Qed.

End FormatSize.

(** The renderings at the unit boundaries; the last two show the one
    boundary that the conversion to a float moves: [2^60 - 64] and above
    convert to [2^60]. *)
Example format_size_boundaries :
  format_size 0 = Ok "0 B"
  /\ format_size 1023 = Ok "1023 B"
  /\ format_size 1024 = Ok "1.0 KB"
  /\ format_size (1024 ^ 2 - 1) = Ok "1024.0 KB"
  /\ format_size (1024 ^ 2) = Ok "1.0 MB"
  /\ format_size (1024 ^ 5) = Ok "1.0 PB"
  /\ format_size (1024 ^ 6) = Ok "1.0 EB"
  /\ format_size (1024 ^ 6 - 65) = Ok "1024.0 PB"
  /\ format_size (1024 ^ 6 - 64) = Ok "1.0 EB".
Proof. repeat split; vm_compute; reflexivity. Qed.

(** ** Calls that return *)

Section Returns.

Local Open Scope Q_scope.

(** Rounding a positive rational that is at most a power of two below
    the overflow threshold gives a finite value, at most that power. *)
Lemma round64_pos_upper (q : Q) (k : Z) :
  0 < q -> (-1074 <= k <= 1023)%Z -> q <= pow2 k ->
  exists v, round64_pos q = Fin v /\ v <= pow2 k.
Proof.
  intros Hq Hk Hqk. destruct (ilog2_spec q Hq) as [He1 He2].
  unfold round64_pos. set (e := ilog2 q) in *. cbv zeta.
  set (p := Z.max (e - 52) (-1074)).
  assert (Hek : (e <= k)%Z).
  { assert (e < k + 1)%Z; [|lia].
    apply pow2_lt_inv. eapply Qle_lt_trans; [exact He1|].
    eapply Qle_lt_trans; [exact Hqk|]. apply pow2_lt. lia. }
  assert (Hpk : (p <= k)%Z) by (unfold p; lia).
  assert (HM : (round_half_even (q / pow2 p) <= 2 ^ (k - p))%Z).
  { apply round_half_even_le. rewrite <- pow2_inject by lia.
    rewrite <- pow2_sub. apply Qmult_le_compat_r; [exact Hqk|].
    apply Qlt_le_weak, Qinv_lt_0_compat, pow2_pos. }
  assert (Hv : inject_Z (round_half_even (q / pow2 p)) * pow2 p <= pow2 k).
  { replace (pow2 k) with (pow2 ((k - p) + p)) by (f_equal; lia).
    rewrite pow2_add, (pow2_inject (k - p)) by lia.
    apply Qmult_le_compat_r; [|apply Qlt_le_weak, pow2_pos].
    now rewrite <- Zle_Qle. }
  destruct (Qle_bool _ _) eqn:E.
  - apply Qle_bool_iff in E. exfalso.
    apply (Qlt_not_le (pow2 k) (pow2 1024)); [apply pow2_lt; lia|].
    eapply Qle_trans; eauto.
  - eexists. split; [reflexivity|]. now rewrite Qred_correct.
Qed.

Lemma round64_finite (q : Q) :
  Qabs q <= pow2 1023 -> exists v, round64 q = Fin v.
Proof.
  intro H. unfold round64. destruct q as [[|a|a] b]; cbn [Qnum].
  - eauto.
  - destruct (round64_pos_upper (Zpos a # b) 1023) as (v & Hv & _);
      [reflexivity | lia | exact H | eauto].
  - destruct (round64_pos_upper (- (Zneg a # b)) 1023) as (v & Hv & _);
      [reflexivity | lia | exact H |].
    rewrite Hv. eauto.
Qed.

(** [float(n)] returns for every integer up to [2^1023] in magnitude. *)
Lemma float_of_int_returns (n : Z) :
  (Z.abs n <= 2 ^ 1023)%Z -> exists x, float_of_int n = Ok x.
Proof.
  intro H. unfold float_of_int.
  destruct (round64_finite (inject_Z n)) as [v Hv].
  - change (pow2 1023) with (inject_Z (2 ^ 1023)).
    change (Qabs (inject_Z n)) with (inject_Z (Z.abs n)).
    now rewrite <- Zle_Qle.
  - rewrite Hv. eauto.
Qed.

(** The cutoff of the scan is computed for every age threshold a clock
    could meet. *)
Lemma scan_cutoff_returns (now : Q) (min_age_days : Z) :
  (Z.abs (min_age_days * 86400) <= 2 ^ 1023)%Z ->
  exists cutoff, scan_cutoff now min_age_days = Ok cutoff.
Proof.
  intro H. unfold scan_cutoff.
  destruct (float_of_int_returns _ H) as [x Hx]. rewrite Hx. cbn. eauto.
Qed.

(** [format_age] returns unless the age overflows a float. *)
Lemma format_age_returns (now : Q) (ts : option Q) :
  (forall t, ts = Some t -> now - t <= pow2 1023) ->
  exists text, format_age now ts = Ok text.
Proof.
  intro H. unfold format_age. destruct ts as [t|]; [|eauto].
  destruct (Qltb now t) eqn:E; [eauto|]. apply Qltb_ge in E.
  destruct (round64_finite (now - t)) as [v Hv].
  - rewrite Qabs_pos; [now apply H|].
    unfold Qminus. rewrite <- (Qplus_opp_r t).
    apply Qplus_le_l. exact E.
  - unfold fsub. rewrite Hv. cbn [int_of_float bind].
    destruct (0 <? _)%Z; [eauto|]. destruct (0 <? _)%Z; eauto.
Qed.

(** Every candidate of the list gets its age text. *)
Lemma ages_at_exist (clock : nat -> Q) (items : list Candidate.t) :
  (forall i item, In item items -> clock i - Candidate.mtime item <= pow2 1023) ->
  forall i, exists ages, ages_at clock i items ages.
Proof.
  induction items as [|item rest IH]; intros H i.
  - exists []. exact I.
  - destruct (format_age_returns (clock i) (Some (Candidate.mtime item)))
      as [age Hage].
    { intros t [= <-]. apply H. now left. }
    destruct (IH (fun j it Hin => H j it (or_intror Hin)) (S i)) as [ages Hages].
    exists (age :: ages). now split.
Qed.

End Returns.

(** ** The unit of [format_size] in terms of the byte count *)

Section UnitOfCount.

Local Open Scope Q_scope.

(** Rounding to the nearest integer, ties to even, on either side of a
    half. *)
Lemma round_half_even_below (z : Z) (q : Q) :
  q < inject_Z z + (1 # 2) -> (round_half_even q <= z)%Z.
Proof.
  intro H. pose proof (Qfloor_le q) as Hf.
  pose proof (round_half_even_bounds q) as Hb.
  assert (Hfz : (Qfloor q <= z)%Z).
  { destruct (Z.le_gt_cases (Qfloor q) z) as [Hle | Hgt]; [exact Hle|].
    exfalso.
    assert (H1 : inject_Z (z + 1) <= inject_Z (Qfloor q))
      by (rewrite <- Zle_Qle; lia).
    rewrite inject_Z_plus in H1. change (inject_Z 1) with 1 in H1. lra. }
  destruct (Z.eq_dec (Qfloor q) z) as [E | Hne]; [|lia].
  unfold round_half_even.
  assert (Hlt : q - inject_Z (Qfloor q) < 1 # 2) by (rewrite E; lra).
  destruct (q - inject_Z (Qfloor q) ?= 1 # 2) eqn:C; [|lia|]; exfalso.
  - apply Qeq_alt in C. lra.
  - apply Qgt_alt in C. lra.
Qed.

Lemma round_half_even_above (z : Z) (q : Q) :
  Z.even z = true -> inject_Z z - (1 # 2) <= q -> (z <= round_half_even q)%Z.
Proof.
  intros Hev H. pose proof (Qlt_floor q) as Hf.
  pose proof (round_half_even_bounds q) as Hb.
  rewrite inject_Z_plus in Hf. change (inject_Z 1) with 1 in Hf.
  assert (Hfz : (z - 1 <= Qfloor q)%Z).
  { destruct (Z.le_gt_cases (z - 1) (Qfloor q)) as [Hle | Hgt]; [exact Hle|].
    exfalso.
    assert (H1 : inject_Z (Qfloor q + 1) <= inject_Z (z + -1))
      by (rewrite <- Zle_Qle; lia).
    rewrite !inject_Z_plus in H1.
    change (inject_Z 1) with 1 in H1.
    change (inject_Z (-1)) with (- (1)) in H1. lra. }
  destruct (Z.eq_dec (Qfloor q) (z - 1)) as [E | Hne]; [|lia].
  unfold round_half_even.
  destruct (q - inject_Z (Qfloor q) ?= 1 # 2) eqn:C.
  - assert (Hodd : Z.even (Qfloor q) = false).
    { rewrite E, Z.even_sub, Hev. reflexivity. }
    rewrite Hodd. lia.
  - apply Qlt_alt in C. rewrite E in C. exfalso.
    change (z - 1)%Z with (z + -1)%Z in C. rewrite inject_Z_plus in C.
    change (inject_Z (-1)) with (- (1)) in C. lra.
  - lia.
Qed.

(** The one unit boundary that the conversion to a float moves: the
    float of [n] is below [1024^6] exactly when [n < 1024^6 - 64]. *)
Lemma float_of_int_below_EB (n : Z) (x : Q) :
  (0 <= n)%Z -> float_of_int n = Ok x ->
  (x < kibi 6 <-> (n < 1024 ^ 6 - 64)%Z).
Proof.
  intros Hn Hx.
  destruct (float_of_int_result n x Hn Hx)
    as (_ & _ & _ & _ & Hsmall & Hbig).
  assert (P53 : (2 ^ 53 = 9007199254740992)%Z) by reflexivity.
  assert (P59 : (2 ^ 59 = 576460752303423488)%Z) by reflexivity.
  assert (P60 : (2 ^ 60 = 1152921504606846976)%Z) by reflexivity.
  assert (K60 : (1024 ^ 6 = 1152921504606846976)%Z) by reflexivity.
  destruct (Z.lt_ge_cases n (2 ^ 53)) as [H53 | H53].
  { rewrite (Hsmall H53). unfold kibi. rewrite <- Zlt_Qlt.
    change (1024 ^ Z.of_nat 6)%Z with 1152921504606846976%Z. lia. }
  destruct (Z.lt_ge_cases n (2 ^ 60)) as [H60 | H60].
  2:{ assert (Hge : pow2 60 <= x) by (apply Hbig; lia).
      split; [|lia]. intro Hc. exfalso. exact (Qlt_not_le _ _ Hc Hge). }
  destruct n as [|p|p]; try lia.
  unfold float_of_int, round64 in Hx. cbn [inject_Z Qnum] in Hx.
  fold (inject_Z (Zpos p)) in Hx.
  destruct (Z.lt_ge_cases (Zpos p) (2 ^ 59)) as [H59 | H59].
  { destruct (round64_pos_upper (inject_Z (Zpos p)) 59) as (v & Hv & Hle);
      [reflexivity | lia | |].
    { rewrite pow2_inject by lia. rewrite <- Zle_Qle. lia. }
    rewrite Hv in Hx. injection Hx as <-.
    split; [lia|]. intros _.
    eapply Qle_lt_trans; [exact Hle|]. reflexivity. }
  assert (He : ilog2 (inject_Z (Zpos p)) = 59%Z).
  { destruct (ilog2_spec (inject_Z (Zpos p)) eq_refl) as [A B].
    apply (binade_unique (inject_Z (Zpos p))); try assumption.
    - rewrite pow2_inject by lia. rewrite <- Zle_Qle. lia.
    - rewrite pow2_inject by lia. rewrite <- Zlt_Qlt.
      change (59 + 1)%Z with 60%Z. lia. }
  unfold round64_pos in Hx. rewrite He in Hx. cbv zeta in Hx.
  change (Z.max (59 - 52) (-1074)) with 7%Z in Hx.
  change (pow2 7) with (inject_Z 128) in Hx.
  set (m := round_half_even (inject_Z (Zpos p) / inject_Z 128)) in Hx.
  destruct (Qle_bool (pow2 1024) (inject_Z m * inject_Z 128));
    [discriminate|].
  assert (Ex : x = Qred (inject_Z m * inject_Z 128)) by congruence.
  rewrite Ex, Qred_correct.
  unfold kibi. change (1024 ^ Z.of_nat 6)%Z with 1152921504606846976%Z.
  rewrite <- inject_Z_mult, <- Zlt_Qlt.
  split.
  - intro Hm.
    destruct (Z.lt_ge_cases (Zpos p) (1024 ^ 6 - 64)) as [Hlt | Hge];
      [exact Hlt | exfalso].
    assert (Hup : (9007199254740992 <= m)%Z).
    { apply round_half_even_above; [reflexivity|].
      apply Qle_shift_div_l; [reflexivity|].
      assert (E : (inject_Z 9007199254740992 - (1 # 2)) * inject_Z 128
                  == inject_Z 1152921504606846912) by reflexivity.
      rewrite E, <- Zle_Qle. lia. }
    lia.
  - intro Hlt.
    assert (Hlow : (m <= 9007199254740991)%Z).
    { apply round_half_even_below.
      apply Qlt_shift_div_r; [reflexivity|].
      assert (E : (inject_Z 9007199254740991 + (1 # 2)) * inject_Z 128
                  == inject_Z 1152921504606846912) by reflexivity.
      rewrite E, <- Zlt_Qlt. lia. }
    lia.
Qed.

(** The thresholds of the units increase with the unit. *)
Lemma unit_floor_mono (a b : nat) :
  (a <= b <= 6)%nat -> (unit_floor a <= unit_floor b)%Z.
Proof.
  intros [Hab Hb]. unfold unit_floor.
  assert (P5 : (1024 ^ 5 = 1125899906842624)%Z) by reflexivity.
  assert (P6 : (1024 ^ 6 = 1152921504606846976)%Z) by reflexivity.
  destruct (Nat.ltb_spec a 6) as [Ha | Ha];
    destruct (Nat.ltb_spec b 6) as [Hb6 | Hb6]; try lia.
  - apply Z.pow_le_mono_r; lia.
  - assert (1024 ^ Z.of_nat a <= 1024 ^ 5)%Z
      by (apply Z.pow_le_mono_r; lia).
    lia.
Qed.

(** C8, as amended: a byte count [n >= 0] beyond the range of a float
    (from [2^1024] on) is not rendered, [OverflowError] is raised; one that
    converts to a float [x], as every [n <= 2^1023] does, is rendered as a
    number, a space and the unit of index [k] among
    [B, KB, MB, GB, TB, PB, EB].  The unit is [B] exactly when [n < 1024],
    and the number is then [n] written without a decimal point; for
    [1024 <= n < 1024^2] the unit is [KB]; in general [k] is the index
    with [unit_floor k <= n < unit_floor (k+1)], and the only one, the
    thresholds being the powers [1024^k] up to [PB] and [1024^6 - 64] for
    [EB]; every unit other than [B] comes with [x / 1024^k] written with
    exactly one decimal digit.  Below [2^53] the float [x] is [n] itself. *)
Theorem format_size_units (n : Z) :
  (0 <= n)%Z ->
  ((n <= 2 ^ 1023)%Z -> exists x, float_of_int n = Ok x)
  /\ ((2 ^ 1024 <= n)%Z -> is_OverflowError (format_size n))
  /\ (forall x, float_of_int n = Ok x ->
      exists (k : nat) (text : string),
        (k <= 6)%nat
        /\ format_size n = Ok (text ++ " " ++ unit_name k)%string
        /\ (k = O <-> (n < 1024)%Z)
        /\ (k = O -> text = str_of_int n /\ all_digits text)
        /\ ((0 < k)%nat ->
            text = format_1f (Fin (x / kibi k)) /\ one_decimal text)
        /\ ((1024 <= n < 1024 ^ 2)%Z -> k = 1%nat)
        /\ ((0 < k)%nat -> (unit_floor k <= n)%Z)
        /\ ((k < 6)%nat -> (n < unit_floor (S k))%Z)
        /\ (forall j : nat,
              (j <= 6)%nat ->
              (k = j
               <-> ((0 < j)%nat -> (unit_floor j <= n)%Z)
                   /\ ((j < 6)%nat -> (n < unit_floor (S j))%Z)))
        /\ ((n < 2 ^ 53)%Z -> x = inject_Z n)).
Proof.
  intro Hn. split; [|split].
  - intro Hle. apply float_of_int_returns. now rewrite Z.abs_eq.
  - intro Hbig. unfold format_size.
    destruct (float_of_int n) as [x|e] eqn:E.
    + exfalso.
      destruct (float_of_int_result n x Hn E) as (_ & Hlt & _ & _ & _ & Hge).
      apply (Qlt_not_le _ _ Hlt). apply Hge; [lia | exact Hbig].
    + unfold float_of_int in E.
      destruct (round64 (inject_Z n)); try discriminate;
        injection E as <-; exact I.
  - intros x Hx.
    destruct (format_size_float_units n x Hn Hx)
      as (k & text & Hk & Hres & Hzero & Htext0 & Htext & Hkb & Hlow & Hup
          & Hsmall).
    pose proof (float_of_int_below_EB n x Hn Hx) as HEB.
    destruct (float_of_int_result n x Hn Hx) as (_ & _ & _ & _ & _ & Hbig).
    assert (P53 : (2 ^ 53 = 9007199254740992)%Z) by reflexivity.
    assert (P50 : (1024 ^ 5 = 1125899906842624)%Z) by reflexivity.
    assert (Hfloor : (0 < k)%nat -> (unit_floor k <= n)%Z).
    { intro Hpos. specialize (Hlow Hpos). unfold unit_floor.
      destruct (Nat.ltb_spec k 6) as [H6 | H6].
      - destruct (Z.lt_ge_cases n (2 ^ 53)) as [H53 | H53].
        + rewrite (Hsmall H53) in Hlow. unfold kibi in Hlow.
          now rewrite <- Zle_Qle in Hlow.
        + assert (1024 ^ Z.of_nat k <= 1024 ^ 5)%Z
            by (apply Z.pow_le_mono_r; lia).
          lia.
      - assert (k = 6%nat) by lia. subst k.
        destruct (Z.lt_ge_cases n (1024 ^ 6 - 64)) as [Hlt | Hge];
          [exfalso | exact Hge].
        apply HEB in Hlt. exact (Qlt_not_le _ _ Hlt Hlow). }
    assert (Hnext : (k < 6)%nat -> (n < unit_floor (S k))%Z).
    { intro H6. specialize (Hup H6). unfold unit_floor.
      destruct (Nat.ltb_spec (S k) 6) as [H5 | H5].
      - assert (Hx50 : x < pow2 53).
        { eapply Qlt_le_trans; [exact Hup|].
          eapply Qle_trans; [apply (kibi_le (S k) 5); lia|]. discriminate. }
        destruct (Z.lt_ge_cases n (2 ^ 53)) as [H53 | H53].
        + rewrite (Hsmall H53) in Hup. unfold kibi in Hup.
          now rewrite <- Zlt_Qlt in Hup.
        + exfalso. apply (Qlt_not_le _ _ Hx50). apply Hbig; lia.
      - assert (k = 5%nat) by lia. subst k. now apply HEB. }
    exists k, text.
    repeat (split; [assumption|]).
    split; [|exact Hsmall].
    intros j Hj. split; [intros <-; split; assumption|].
    intros [Hjlow Hjup].
    destruct (Nat.lt_trichotomy k j) as [Hlt | [Heq | Hgt]];
      [exfalso | exact Heq | exfalso].
    + pose proof (Hnext ltac:(lia)) as H1.
      pose proof (Hjlow ltac:(lia)) as H2.
      pose proof (unit_floor_mono (S k) j ltac:(lia)). lia.
    + pose proof (Hfloor ltac:(lia)) as H1.
      pose proof (Hjup ltac:(lia)) as H2.
      pose proof (unit_floor_mono (S j) k ltac:(lia)). lia.
Qed.

Lemma format_size_units_witness :
  exists (k : nat) (text : string),
    (k <= 6)%nat
    /\ format_size 1536 = Ok (text ++ " " ++ unit_name k)%string
    /\ (k = O <-> (1536 < 1024)%Z)
    /\ (k = O -> text = str_of_int 1536 /\ all_digits text)
    /\ ((0 < k)%nat ->
        text = format_1f (Fin (1536 / kibi k)) /\ one_decimal text)
    /\ ((1024 <= 1536 < 1024 ^ 2)%Z -> k = 1%nat)
    /\ ((0 < k)%nat -> (unit_floor k <= 1536)%Z)
    /\ ((k < 6)%nat -> (1536 < unit_floor (S k))%Z)
    /\ (forall j : nat,
          (j <= 6)%nat ->
          (k = j
           <-> ((0 < j)%nat -> (unit_floor j <= 1536)%Z)
               /\ ((j < 6)%nat -> (1536 < unit_floor (S j))%Z)))
    /\ ((1536 < 2 ^ 53)%Z -> 1536 = inject_Z 1536).
Proof.
  pose proof (format_size_units 1536) as H.
  destruct H as (_ & _ & H); [lia|].
  exact (H 1536 eq_refl).
Defined.

(** C8 as stated fails where the conversion to a float rounds up: the
    count [1024^6 - 64] lies below [1024^6], where the unit should still be
    [PB], and is rendered in [EB]. *)
Lemma format_size_rounding_counterexample :
  (0 <= 1024 ^ 6 - 64)%Z
  /\ (1024 ^ 5 <= 1024 ^ 6 - 64 < 1024 ^ 6)%Z
  /\ format_size (1024 ^ 6 - 64) = Ok "1.0 EB"%string.
Proof.
  split; [vm_compute; discriminate|]. split; [split|].
  - vm_compute. discriminate.
  - reflexivity.
  - vm_compute. reflexivity.
Qed.

End UnitOfCount.

(** ** The cutoff and the sort, independently of their computation *)

Section Cutoff.

Local Open Scope Q_scope.

(** With a clock on whole seconds and thresholds of ordinary magnitude
    no rounding occurs: the cutoff is [now - min_age_days * 86400]. *)
Lemma scan_cutoff_exact (t min_age_days : Z) :
  (0 <= min_age_days * 86400 < 2 ^ 53)%Z ->
  (0 <= t - min_age_days * 86400 < 2 ^ 53)%Z ->
  scan_cutoff (inject_Z t) min_age_days
  = Ok (Fin (inject_Z (t - min_age_days * 86400))).
Proof.
  intros Hd Ht. unfold scan_cutoff.
  assert (H1023 : (2 ^ 53 < 2 ^ 1023)%Z) by (apply Z.pow_lt_mono_r; lia).
  destruct (float_of_int_returns (min_age_days * 86400)) as [x Hx]; [lia|].
  destruct (float_of_int_result _ _ (proj1 Hd) Hx) as (_ & _ & _ & _ & Hex & _).
  rewrite Hx, (Hex (proj2 Hd)). cbn [bind]. unfold fsub. f_equal.
  assert (E : inject_Z t - inject_Z (min_age_days * 86400)
              == inject_Z (t - min_age_days * 86400)).
  { unfold Z.sub. rewrite inject_Z_plus, inject_Z_opp. reflexivity. }
  rewrite round64_exact.
  - f_equal. rewrite (Qred_complete _ _ E). apply Qred_inject_Z.
  - exists (t - min_age_days * 86400)%Z, 0%Z.
    split; [exact Ht|]. split; [lia|]. rewrite E. change (pow2 0) with 1. ring.
  - rewrite E. change (pow2 1024) with (inject_Z (2 ^ 1024)).
    rewrite <- Zlt_Qlt.
    assert (2 ^ 1023 < 2 ^ 1024)%Z by (apply Z.pow_lt_mono_r; lia). lia.
Qed.

End Cutoff.

Section SortUnique.

Context {A : Type} (key : A -> Z).

Let by_key (k : Z) (a : A) : bool := (key a =? k)%Z.

(** Two lists sorted by non-increasing key that agree on the elements of
    every key, in order, are the same list: whatever stable sorting
    algorithm runs, its result is the one of [sort_reverse]. *)
Lemma sorted_stable_unique (l1 l2 : list A) :
  StronglySorted (fun a b => key b <= key a)%Z l1 ->
  StronglySorted (fun a b => key b <= key a)%Z l2 ->
  (forall k, List.filter (by_key k) l1 = List.filter (by_key k) l2) ->
  l1 = l2.
Proof.
  assert (Hin : forall l a, In a l -> In a (List.filter (by_key (key a)) l)).
  { intros l a H. apply filter_In. split; [exact H|]. apply Z.eqb_refl. }
  assert (Hhead : forall a t b t',
            StronglySorted (fun a b => key b <= key a)%Z (a :: t) ->
            (forall k, List.filter (by_key k) (a :: t)
                       = List.filter (by_key k) (b :: t')) ->
            (key b <= key a)%Z).
  { intros a t b t' Hs Hf.
    assert (Hb : In b (a :: t)).
    { eapply (proj1 (filter_In (by_key (key b)) b (a :: t))).
      rewrite Hf. apply Hin. now left. }
    inversion Hs as [|? ? _ Hall]; subst.
    destruct Hb as [<- | Hb]; [lia|].
    rewrite Forall_forall in Hall. now apply Hall. }
  revert l2. induction l1 as [|a t1 IH]; intros l2 Hs1 Hs2 Hf.
  - destruct l2 as [|b t2]; [reflexivity|].
    specialize (Hf (key b)). cbn [List.filter] in Hf. unfold by_key in Hf.
    rewrite Z.eqb_refl in Hf. discriminate.
  - destruct l2 as [|b t2].
    { specialize (Hf (key a)). cbn [List.filter] in Hf. unfold by_key in Hf.
      rewrite Z.eqb_refl in Hf. discriminate. }
    assert (Hab : key a = key b).
    { pose proof (Hhead a t1 b t2 Hs1 Hf).
      pose proof (Hhead b t2 a t1 Hs2 (fun k => eq_sym (Hf k))). lia. }
    pose proof (Hf (key a)) as Hfa. cbn [List.filter] in Hfa.
    assert (Ea : by_key (key a) a = true) by apply Z.eqb_refl.
    assert (Eb : by_key (key a) b = true).
    { unfold by_key. rewrite Hab. apply Z.eqb_refl. }
    rewrite Ea, Eb in Hfa.
    injection Hfa as -> Ht. f_equal.
    inversion Hs1; inversion Hs2; subst.
    apply IH; auto. intro k. specialize (Hf k). cbn [List.filter] in Hf.
    destruct (by_key k b); [now injection Hf | exact Hf].
Qed.

End SortUnique.

(** ** Values beyond the range of a float *)

(** A numeral of four hundred digits reads as infinity, and the
    conversion of infinity to an integer fails with [OverflowError]. *)
Example parse_size_overflow : is_OverflowError (parse_size ("1" ++ zeros 400)).
Proof. vm_compute. exact I. Qed.

(** An integer of four hundred digits does not convert to a float. *)
Example format_size_overflow : is_OverflowError (format_size (10 ^ 400)).
Proof. vm_compute. exact I. Qed.

(** A negative cap stops the probe after the first file it reads. *)
Example dir_size_negative_cap :
  dir_size "/Users/me/Documents" sample_documents (Some (-3)%Z)
  = ((500 * MB)%Z, Some (days_ago 40), 1%Z, 0%Z).
Proof. vm_compute. reflexivity. Qed.

(** * Further properties of the script *)

(** ** [parse_size] never returns a negative size *)

Lemma is_ascii_digit_value (c : ascii) :
  is_ascii_digit c = true -> (0 <= digit_value c <= 9)%Z.
Proof.
  unfold is_ascii_digit, in_range, digit_value. intro H.
  apply andb_true_iff in H as [H1 H2].
  apply N.leb_le in H1, H2. lia.
Qed.

Lemma digits_value_nonneg (s : string) :
  forall acc, PyStr.forallb is_ascii_digit s = true ->
  (0 <= acc)%Z -> (0 <= digits_value acc s)%Z.
Proof.
  induction s as [|c r IH]; intros acc Hs Hacc; cbn [digits_value]; [exact Hacc|].
  cbn [PyStr.forallb] in Hs. apply andb_true_iff in Hs as [Hc Hr].
  apply IH; [exact Hr|]. pose proof (is_ascii_digit_value c Hc). lia.
Qed.

Lemma forallb_append (p : ascii -> bool) (a b : string) :
  PyStr.forallb p (a ++ b) = PyStr.forallb p a && PyStr.forallb p b.
Proof.
  induction a as [|c a IH]; cbn [append PyStr.forallb]; [reflexivity|].
  now rewrite IH, andb_assoc.
Qed.

Section NonNegative.

Local Open Scope Q_scope.

Lemma representable_nonneg (v : Q) : representable v -> 0 <= v.
Proof.
  intros (m & j & Hm & _ & Hv). rewrite Hv.
  apply Qmult_le_0_compat; [|apply Qlt_le_weak, pow2_pos].
  rewrite <- (Zle_Qle 0). lia.
Qed.

(** Rounding a non-negative rational gives a non-negative float. *)
Lemma round64_nonneg (q : Q) :
  0 <= q ->
  match round64 q with
  | Fin v => 0 <= v
  | Inf s => s = false
  | NaN => False
  end.
Proof.
  intro Hq. unfold round64. destruct q as [[|a|a] b]; cbn [Qnum].
  - apply Qle_refl.
  - pose proof (round64_pos_result (Zpos a # b) eq_refl) as H.
    destruct (round64_pos (Zpos a # b)) as [v|s|]; [|exact H|exact H].
    destruct H as [H _]. now apply representable_nonneg.
  - exfalso. unfold Qle in Hq. cbn in Hq. lia.
Qed.

Lemma float_of_str_nonneg (v : string) (x : float) :
  float_of_str v = Ok x ->
  match x with
  | Fin a => 0 <= a
  | Inf s => s = false
  | NaN => False
  end.
Proof.
  unfold float_of_str. destruct (split_dot v) as [i f].
  destruct (_ && _) eqn:E; [|discriminate]. intros [= <-].
  apply andb_true_iff in E as [E _]. apply round64_nonneg.
  unfold Qle. cbn [Qnum Qden]. rewrite Z.mul_1_r. cbn.
  apply digits_value_nonneg; [|lia]. now rewrite forallb_append.
Qed.

Lemma Qtrunc_nonneg (q : Q) : 0 <= q -> (0 <= Qtrunc q)%Z.
Proof.
  intro H. unfold Qtrunc. apply Z.quot_pos; [|lia].
  unfold Qle in H. cbn in H. lia.
Qed.

(** X1: whatever the text, a size that [parse_size] returns is not
    negative: a minus sign is not a numeric character, so it is dropped
    with the other separators. *)
Theorem parse_size_nonneg (text : string) (n : Z) :
  parse_size text = Ok n -> (0 <= n)%Z.
Proof.
  unfold parse_size. destruct (String.eqb _ _); [discriminate|].
  destruct (float_of_str (value_of text)) as [x|e] eqn:Ex; [|discriminate].
  cbn [bind]. destruct (unit_mult (unit_of text)) as [mult|] eqn:Em;
    [|discriminate].
  pose proof (float_of_str_nonneg _ _ Ex) as Hx.
  pose proof (unit_mult_nonzero _ _ Em) as Hm.
  destruct x as [a|s|]; [| |contradiction].
  - cbn [fmul].
    assert (Ham : 0 <= a * inject_Z mult).
    { apply Qmult_le_0_compat; [exact Hx|]. rewrite <- (Zle_Qle 0). lia. }
    pose proof (round64_nonneg _ Ham) as Hr.
    destruct (round64 (a * inject_Z mult)) as [v|s|]; cbn [int_of_float];
      try discriminate.
    intros [= <-]. now apply Qtrunc_nonneg.
  - cbn [fmul]. destruct mult; try lia. discriminate.
Qed.

Lemma parse_size_nonneg_witness :
  parse_size "-5MB" = Ok 5242880%Z /\ (0 <= 5242880)%Z.
Proof.
  split; [reflexivity|].
  apply (parse_size_nonneg "-5MB" 5242880). reflexivity.
Defined.

End NonNegative.

(** ** The age buckets of [format_age] *)

Section AgeBuckets.

Local Open Scope Q_scope.

(** The difference of two whole numbers of seconds is exact. *)
Lemma fsub_inject_Z (a b : Z) :
  (0 <= a - b < 2 ^ 53)%Z ->
  fsub (inject_Z a) (inject_Z b) = Fin (inject_Z (a - b)).
Proof.
  intro H. unfold fsub.
  assert (E : inject_Z a - inject_Z b == inject_Z (a - b)).
  { unfold Z.sub. rewrite inject_Z_plus, inject_Z_opp. reflexivity. }
  rewrite round64_exact.
  - f_equal. rewrite (Qred_complete _ _ E). apply Qred_inject_Z.
  - exists (a - b)%Z, 0%Z. split; [exact H|]. split; [lia|].
    rewrite E. change (pow2 0) with 1. ring.
  - rewrite E. change (pow2 1024) with (inject_Z (2 ^ 1024)).
    rewrite <- Zlt_Qlt.
    assert (2 ^ 53 < 2 ^ 1024)%Z by (apply Z.pow_lt_mono_r; lia). lia.
Qed.

Lemma div_pos_ltb (a b : Z) :
  (0 <= a)%Z -> (0 < b)%Z -> (0 <? a / b)%Z = (b <=? a)%Z.
Proof.
  intros Ha Hb. destruct (Z.leb_spec b a) as [H | H].
  - apply Z.ltb_lt. apply Z.div_str_pos. lia.
  - rewrite Z.div_small by lia. reflexivity.
Qed.

(** X2: for timestamps in whole seconds of magnitude at most [2^53],
    each of which is exactly a float whether it is passed as a float or as
    an [int], and with [ts <= now], the age is shown in days from 86400
    seconds on, else in hours from 3600 seconds on, else in minutes; each
    count is rounded down, so less than a minute is ["0m"]. *)
Theorem format_age_buckets (now ts : Z) :
  (Z.abs now <= 2 ^ 53)%Z -> (Z.abs ts <= 2 ^ 53)%Z ->
  (0 <= now - ts < 2 ^ 53)%Z ->
  format_age (inject_Z now) (Some (inject_Z ts))
  = Ok (if (86400 <=? now - ts)%Z
        then str_of_int ((now - ts) / 86400) ++ "d"
        else if (3600 <=? now - ts)%Z
        then str_of_int ((now - ts) / 3600) ++ "h"
        else str_of_int ((now - ts) / 60) ++ "m")%string.
Proof.
  intros _ _ H. unfold format_age.
  assert (E : Qltb (inject_Z now) (inject_Z ts) = false).
  { apply Qltb_ge. rewrite <- Zle_Qle. lia. }
  rewrite E, (fsub_inject_Z _ _ H). cbn [int_of_float bind].
  rewrite Qtrunc_inject_Z. cbv zeta.
  rewrite !div_pos_ltb by lia.
  destruct (86400 <=? now - ts)%Z; [reflexivity|].
  destruct (3600 <=? now - ts)%Z; reflexivity.
Qed.

Lemma format_age_buckets_witness :
  format_age 1700000000 (Some 1699992741) = Ok "2h"%string.
Proof.
  apply (format_age_buckets 1700000000 1699992741); lia.
Defined.

End AgeBuckets.

(** ** What a probe always reports *)

Lemma dir_size_files_invariant (max_entries : option Z) (fl : stat_files) :
  forall s,
  (probe_latest s = None <-> probe_scanned s = 0%Z) ->
  (0 <= probe_scanned s)%Z ->
  let r := finish (dir_size_files max_entries fl s) in
  (probe_latest r = None <-> probe_scanned r = 0%Z)
  /\ (probe_scanned s <= probe_scanned r)%Z
  /\ (probe_errors s <= probe_errors r)%Z
  /\ (probe_scanned r + probe_errors r
      <= probe_scanned s + probe_errors s + Z.of_nat (List.length fl))%Z.
Proof.
  induction fl as [|[name [st|]] rest IH]; intros [[[t l] c] e] Hl Hc;
    unfold probe_latest, probe_scanned, probe_errors in *; cbn [fst snd] in *.
  - cbn. split; [exact Hl|]. lia.
  - cbn [dir_size_files].
    destruct (cap_reached max_entries (c + 1)).
    + cbn [finish fst snd List.length]. split.
      * split; [destruct l as [m|]; [destruct (Qltb m (st_mtime st))|];
                discriminate | lia].
      * lia.
    + match goal with |- context [dir_size_files _ rest ?s'] =>
        specialize (IH s') end.
      cbn [fst snd] in IH. cbn [List.length].
      destruct IH as (H1 & H2 & H3 & H4).
      * split; [destruct l as [m|]; [destruct (Qltb m (st_mtime st))|];
                discriminate | lia].
      * lia.
      * split; [exact H1|]. lia.
  - cbn [dir_size_files].
    specialize (IH (t, l, c, e + 1)%Z). cbn [fst snd] in IH. cbn [List.length].
    destruct (IH Hl Hc) as (H1 & H2 & H3 & H4).
    split; [exact H1|]. lia.
Qed.

Lemma counts_length (fl : stat_files) :
  (0 + count_scanned fl + (0 + count_errors fl)
   = Z.of_nat (List.length fl))%Z.
Proof.
  induction fl as [|[name [st|]] rest IH];
    cbn [count_scanned count_errors List.length]; [reflexivity | |];
    rewrite Nat2Z.inj_succ; lia.
Qed.

(** X3: whatever the cap, a probe reports no latest modification time
    exactly when it read no file, its two counts are not negative, and
    together they count at most the files of the walk; without a cap they
    count every file. *)
Theorem dir_size_counts (path : string) (n : node) (max_entries : option Z) :
  let r := dir_size path n max_entries in
  let full := dir_size path n None in
  (probe_latest r = None <-> probe_scanned r = 0%Z)
  /\ (0 <= probe_scanned r)%Z /\ (0 <= probe_errors r)%Z
  /\ (probe_scanned r + probe_errors r
      <= Z.of_nat (List.length (walk_files (walk path n))))%Z
  /\ (probe_scanned full + probe_errors full
      = Z.of_nat (List.length (walk_files (walk path n))))%Z.
Proof.
  cbv zeta. unfold dir_size. rewrite !dir_size_walk_flat.
  pose proof (dir_size_files_invariant max_entries (walk_files (walk path n))
                (0%Z, None, 0%Z, 0%Z)) as H.
  cbv zeta in H. unfold probe_latest, probe_scanned, probe_errors in *.
  cbn [fst snd] in H. destruct H as (H1 & H2 & H3 & H4); [tauto | lia |].
  split; [exact H1|]. split; [lia|]. split; [lia|]. split; [lia|].
  rewrite dir_size_files_uncapped. cbn [finish state_after fst snd].
  apply counts_length.
Qed.

(** ** The candidates of a scan *)

(** The file names of a walk contain no slash. *)
Lemma walk_file_names (n : node) :
  forall top, wf_names n = true ->
  Forall (fun e => Forall (fun f => contains "/" (fst f) = false) (snd e))
    (walk top n).
Proof.
  induction n as [st | symlink entries IH] using node_nested_ind;
    intros top Hwf; [constructor|].
  rewrite walk_Dir. cbn [wf_names] in Hwf. constructor.
  - cbn [snd]. clear IH.
    induction entries as [|[name [st|sl es]] rest IHrest];
      cbn [filenames]; [constructor | |].
    + cbn [List.forallb] in Hwf. apply andb_true_iff in Hwf as [Hc Hrest].
      apply andb_true_iff in Hc as [Hname _]. apply negb_true_iff in Hname.
      constructor; [exact Hname | auto].
    + cbn [List.forallb] in Hwf. apply andb_true_iff in Hwf as [_ Hrest]. auto.
  - induction entries as [|[name child] rest IHrest]; [constructor|].
    cbn [List.forallb] in Hwf. apply andb_true_iff in Hwf as [Hc Hrest].
    apply andb_true_iff in Hc as [_ Hchild].
    inversion IH as [|? ? Hhead Htail]; subst.
    specialize (IHrest Htail Hrest).
    cbn [walk_subdirs]. destruct child as [st|[] es]; try exact IHrest.
    apply Forall_app. split; [|exact IHrest].
    exact (Hhead (join top name) Hchild).
Qed.

Lemma visited_files_under (dirpath : string)
    (files : list (string * option stat_result)) (f : string * stat_result) :
  Forall (fun g => contains "/" (fst g) = false) files ->
  In f (visited_files dirpath files) -> prefix dirpath (fst f) = true.
Proof.
  induction 1 as [|[name [st|]] rest Hname _ IH]; cbn [visited_files];
    [intros [] | | exact IH].
  intros [<- | H]; [|auto]. cbn [fst] in *. now apply join_prefix.
Qed.

Lemma visited_walk_under (top : string) (n : node) (f : string * stat_result) :
  wf_names n = true ->
  In f (visited_walk (walk top n)) -> prefix top (fst f) = true.
Proof.
  intro Hwf.
  pose proof (walk_prefix n top Hwf) as Hp.
  pose proof (walk_file_names n top Hwf) as Hn.
  induction (walk top n) as [|[[dirpath ds] files] rest IH]; [intros []|].
  inversion Hp as [|? ? Hp1 Hp2]; inversion Hn as [|? ? Hn1 Hn2]; subst.
  cbn [fst snd] in *. cbn [visited_walk].
  destruct (skip_dir dirpath); [auto|].
  intro H. apply in_app_or in H as [H | H]; [|auto].
  eapply prefix_trans; [exact Hp1|]. eapply visited_files_under; eauto.
Qed.

Lemma visited_roots_under (fs : filesystem) (roots : list string)
    (f : string * stat_result) :
  (forall root n, In root roots -> fs root = Some n -> wf_names n = true) ->
  In f (visited_roots fs roots) ->
  exists root, In root roots /\ prefix root (fst f) = true.
Proof.
  induction roots as [|root rest IH]; intros Hwf; cbn [visited_roots];
    [intros []|].
  assert (Hrest : forall r n, In r rest -> fs r = Some n -> wf_names n = true).
  { intros r n Hr. apply Hwf. now right. }
  destruct (fs root) as [n|] eqn:E.
  - intro H. apply in_app_or in H as [H | H].
    + exists root. split; [now left|].
      eapply visited_walk_under; [|exact H]. apply (Hwf root); [now left|exact E].
    + destruct (IH Hrest H) as (r & Hr & Hp). exists r. split; [now right|exact Hp].
  - intro H. destruct (IH Hrest H) as (r & Hr & Hp).
    exists r. split; [now right|exact Hp].
Qed.

(** X5: every candidate a scan returns has a size of at least
    [min_size] and a modification time not after the cutoff, and its path
    lies under one of the six directories of the home directory that the
    scan starts from. *)
Theorem scan_candidates_invariant (fs : filesystem) (home : string) (now : Q)
    (min_size min_age_days : Z) (cutoff : float) (l : list Candidate.t) :
  (forall root n, In root (move_roots home) -> fs root = Some n ->
     wf_names n = true) ->
  scan_cutoff now min_age_days = Ok cutoff ->
  scan_move_candidates fs home now min_size min_age_days = Ok l ->
  forall c, In c l ->
    (min_size <= Candidate.size c)%Z
    /\ not_after (Candidate.mtime c) cutoff
    /\ exists root,
         In root (move_roots home) /\ prefix root (Candidate.path c) = true.
Proof.
  intros Hwf Hc. unfold scan_move_candidates. rewrite Hc. cbn [bind].
  intros Hl c Hin.
  assert (El : l = sort_reverse Candidate.size
                     (scan_roots fs min_size cutoff (move_roots home)))
    by congruence.
  subst l. clear Hl.
  apply (Permutation_in _ (Permutation_sym (sort_reverse_perm _ _))) in Hin.
  rewrite scan_roots_visited in Hin. apply in_map_iff in Hin as [f [<- Hf]].
  apply filter_In in Hf as [Hf Hq].
  apply (qualifies_spec _ _ _ (scan_cutoff_not_NaN _ _ _ Hc)) in Hq as [Hs Hm].
  split; [exact Hs|]. split; [exact Hm|].
  exact (visited_roots_under fs _ f Hwf Hf).
Qed.

Lemma scan_candidates_invariant_witness :
  (200 * MB <= 500 * MB)%Z
  /\ not_after (days_ago 60) (Fin 1697408000)
  /\ exists root,
       In root (move_roots "/Users/me")
       /\ prefix root "/Users/me/Documents/project/video.mov" = true.
Proof.
  refine (scan_candidates_invariant sample_fs "/Users/me" sample_now
           (200 * MB) 30 (Fin 1697408000)
           [ candidate_of ("/Users/me/Documents/old.iso",
                           {| st_size := 500 * MB; st_mtime := days_ago 40 |});
             candidate_of ("/Users/me/Documents/project/video.mov",
                           {| st_size := 500 * MB; st_mtime := days_ago 60 |}) ]
           _ _ _
           (candidate_of ("/Users/me/Documents/project/video.mov",
                          {| st_size := 500 * MB; st_mtime := days_ago 60 |}))
           _).
  - intros root n _. unfold sample_fs.
    destruct (String.eqb root "/Users/me/Documents"); [|discriminate].
    intros [= <-]. reflexivity.
  - vm_compute. reflexivity.
  - vm_compute. reflexivity.
  - right. left. reflexivity.
Defined.

(** X6: raising the size threshold never adds a candidate: with the
    same clock and age threshold, every candidate found under the larger
    [min_size] is found under the smaller one. *)
Theorem scan_min_size_monotone (fs : filesystem) (home : string) (now : Q)
    (min_size min_size' min_age_days : Z) (l l' : list Candidate.t) :
  (min_size <= min_size')%Z ->
  scan_move_candidates fs home now min_size min_age_days = Ok l ->
  scan_move_candidates fs home now min_size' min_age_days = Ok l' ->
  forall c, In c l' -> In c l.
Proof.
  intros Hle. unfold scan_move_candidates.
  destruct (scan_cutoff now min_age_days) as [cutoff|e]; [|discriminate].
  cbn [bind]. intros Hl Hl' c Hin.
  assert (El : l = sort_reverse Candidate.size
                     (scan_roots fs min_size cutoff (move_roots home)))
    by congruence.
  assert (El' : l' = sort_reverse Candidate.size
                       (scan_roots fs min_size' cutoff (move_roots home)))
    by congruence.
  subst l l'. clear Hl Hl'.
  apply (Permutation_in _ (Permutation_sym (sort_reverse_perm _ _))) in Hin.
  apply (Permutation_in _ (sort_reverse_perm _ _)).
  rewrite scan_roots_visited in Hin. rewrite scan_roots_visited.
  apply in_map_iff in Hin as [f [<- Hf]].
  apply in_map. apply filter_In in Hf as [Hf Hq]. apply filter_In.
  split; [exact Hf|]. unfold qualifies in *.
  apply andb_true_iff in Hq as [Hs Hm]. apply andb_true_iff. split; [|exact Hm].
  rewrite negb_true_iff, Z.ltb_ge in *. lia.
Qed.

Lemma scan_min_size_monotone_witness :
  In (candidate_of ("/Users/me/Documents/project/video.mov",
                    {| st_size := 500 * MB; st_mtime := days_ago 60 |}))
     [ candidate_of ("/Users/me/Documents/old.iso",
                     {| st_size := 500 * MB; st_mtime := days_ago 40 |});
       candidate_of ("/Users/me/Documents/project/video.mov",
                     {| st_size := 500 * MB; st_mtime := days_ago 60 |});
       candidate_of ("/Users/me/Documents/small.iso",
                     {| st_size := 100 * MB; st_mtime := days_ago 40 |}) ].
Proof.
  apply (scan_min_size_monotone sample_fs "/Users/me" sample_now
           (50 * MB) (200 * MB) 30 _
           [ candidate_of ("/Users/me/Documents/old.iso",
                           {| st_size := 500 * MB; st_mtime := days_ago 40 |});
             candidate_of ("/Users/me/Documents/project/video.mov",
                           {| st_size := 500 * MB; st_mtime := days_ago 60 |}) ]).
  - vm_compute. discriminate.
  - vm_compute. reflexivity.
  - vm_compute. reflexivity.
  - right. left. reflexivity.
Defined.

(** ** Writing the manifests *)

Lemma dirname_no_slash (p : string) : contains "/" p = false -> dirname p = "".
Proof.
  intro H. unfold dirname.
  assert (E : dirname_head p = "").
  { destruct p as [|c r]; [reflexivity|]. cbn [dirname_head]. now rewrite H. }
  rewrite E. reflexivity.
Qed.

(** X7: an output path without a directory part cannot be written:
    [os.makedirs] is called on the empty directory name and fails, before
    the file is opened, and no file changes.  This holds for both
    manifests. *)
Theorem write_bare_name_fails (env : os_env) (clock : nat -> Q)
    (moves : list Candidate.t) (deletes : list Report.t)
    (output_path : string) (s : store) :
  contains "/" output_path = false ->
  (exists msg,
     write_move_candidates env clock moves output_path s = (s, Err (OSError msg)))
  /\ (exists msg,
        write_delete_candidates env clock deletes output_path s
        = (s, Err (OSError msg))).
Proof.
  intro H. unfold write_move_candidates, write_delete_candidates, makedirs.
  rewrite (dirname_no_slash _ H). cbn. split; eexists; reflexivity.
Qed.

Lemma write_bare_name_fails_witness :
  (exists msg,
     write_move_candidates permissive (fun _ => sample_now) sample_candidates
       "move_candidates.csv" sample_store = (sample_store, Err (OSError msg)))
  /\ (exists msg,
        write_delete_candidates permissive (fun _ => sample_now) []
          "move_candidates.csv" sample_store
        = (sample_store, Err (OSError msg))).
Proof.
  apply (write_bare_name_fails permissive (fun _ => sample_now)
           sample_candidates [] "move_candidates.csv" sample_store).
  reflexivity.
Defined.

Lemma store_write_twice (s : store) (p b1 b2 q : string) :
  store_write (store_write s p b1) p b2 q = store_write s p b2 q.
Proof. unfold store_write. destruct (String.eqb q p); reflexivity. Qed.

(** X8: a manifest replaces whatever an earlier call wrote at the same
    path: writing the move manifest after a delete manifest, or after
    another move manifest, leaves the same files and has the same outcome
    as writing it alone. *)
Theorem manifest_overwrites (env : os_env) (clock clock' : nat -> Q)
    (deletes : list Report.t) (moves moves' : list Candidate.t)
    (output_path : string) (s : store) :
  let after_delete :=
    fst (write_delete_candidates env clock deletes output_path s) in
  let after_move :=
    fst (write_move_candidates env clock moves output_path s) in
  let alone := write_move_candidates env clock' moves' output_path s in
  (snd (write_move_candidates env clock' moves' output_path after_delete)
   = snd alone
   /\ forall q,
        fst (write_move_candidates env clock' moves' output_path after_delete) q
        = fst alone q)
  /\ (snd (write_move_candidates env clock' moves' output_path after_move)
      = snd alone
      /\ forall q,
           fst (write_move_candidates env clock' moves' output_path after_move) q
           = fst alone q).
Proof.
  cbv zeta. unfold write_move_candidates, write_delete_candidates.
  destruct (makedirs env (dirname output_path)); [|now repeat split].
  destruct (open_ok env output_path); [|now repeat split].
  destruct (write_delete_rows clock 0 deletes _) as [bd rd].
  destruct (write_rows clock 0 moves _) as [bm rm].
  destruct (write_rows clock' 0 moves' _) as [b r].
  cbn [fst snd]. repeat split; intro q; apply store_write_twice.
Qed.

Lemma count_append (p : ascii -> bool) (a b : string) :
  count p (a ++ b) = (count p a + count p b)%nat.
Proof.
  induction a as [|c a IH]; cbn [append count]; [reflexivity|].
  destruct (p c); cbn; now rewrite IH.
Qed.

Lemma digits_no_comma (s : string) :
  PyStr.forallb is_ascii_digit s = true -> count (Ascii.eqb ",") s = O.
Proof.
  induction s as [|c r IH]; cbn [PyStr.forallb count]; [reflexivity|].
  intro H. apply andb_true_iff in H as [Hc Hr].
  destruct (Ascii.eqb "," c) eqn:E; [|auto].
  apply Ascii.eqb_eq in E. subst c. discriminate.
Qed.

Lemma str_of_int_no_comma (n : Z) : count (Ascii.eqb ",") (str_of_int n) = O.
Proof.
  assert (H : forall d, count (Ascii.eqb ",") (NilZero.string_of_uint d) = O).
  { intro d. unfold NilZero.string_of_uint.
    destruct d; try (apply digits_no_comma, string_of_uint_digits).
    reflexivity. }
  unfold str_of_int. destruct n as [|p|p]; cbn [Z.to_int NilZero.string_of_int].
  - reflexivity.
  - apply H.
  - cbn [count]. change (Ascii.eqb "," "-") with false. cbn iota. apply H.
Qed.

Lemma format_age_no_comma (now : Q) (ts : option Q) (age : string) :
  format_age now ts = Ok age -> count (Ascii.eqb ",") age = O.
Proof.
  unfold format_age. destruct ts as [t|]; [|intros [= <-]; reflexivity].
  destruct (Qltb now t); [intros [= <-]; reflexivity|].
  destruct (int_of_float (fsub now t)) as [a|e]; [|discriminate]. cbn [bind].
  destruct (0 <? _)%Z;
    [|destruct (0 <? _)%Z]; intros [= <-];
    now rewrite count_append, str_of_int_no_comma.
Qed.

(** X9: nothing in a row is quoted or escaped: a row of either manifest
    holds exactly two commas more than the path it starts with, so a path
    without a comma gives the three fields and every comma of a path adds
    one. *)
Theorem manifest_row_commas (now : Q) (age : string) :
  (forall (item : Candidate.t),
      format_age now (Some (Candidate.mtime item)) = Ok age ->
      count (Ascii.eqb ",") (manifest_row item age)
      = (2 + count (Ascii.eqb ",") (Candidate.path item))%nat)
  /\ (forall (item : Report.t),
        format_age now (Report.latest item) = Ok age ->
        count (Ascii.eqb ",") (report_row item age)
        = (2 + count (Ascii.eqb ",") (Report.path item))%nat).
Proof.
  split; intros item H; apply format_age_no_comma in H;
    unfold manifest_row, report_row;
    rewrite !count_append, str_of_int_no_comma, H; cbn; lia.
Qed.

Lemma manifest_row_commas_witness :
  count (Ascii.eqb ",")
    (manifest_row {| Candidate.path := "/Users/me/Movies/a,b.mov";
                     Candidate.size := 900 * MB;
                     Candidate.mtime := days_ago 40 |} "40d")
  = 3%nat.
Proof.
  exact (proj1 (manifest_row_commas sample_now "40d")
           {| Candidate.path := "/Users/me/Movies/a,b.mov";
              Candidate.size := 900 * MB;
              Candidate.mtime := days_ago 40 |} eq_refl).
Defined.

Lemma write_delete_rows_ages clock items :
  forall i ages buf,
  report_ages_at clock i items ages ->
  write_delete_rows clock i items buf = (buf ++ report_rows items ages, Ok tt).
Proof.
  induction items as [|item rest IH]; intros i ages buf H;
    destruct ages as [|age ages]; cbn [report_ages_at] in H; try contradiction.
  - cbn [write_delete_rows report_rows]. now rewrite append_nil_r.
  - destruct H as [Hage Hrest]. cbn [write_delete_rows report_rows].
    rewrite Hage, (IH _ _ _ Hrest). unfold report_row.
    now rewrite !append_assoc.
Qed.

(** X10: the delete manifest is the header row followed by one row per
    report in order, each the path, the total size and the age text of the
    latest modification time; the previous contents of the file are gone
    and no other file changes.  A report without a latest time has the age
    text ["unknown"]. *)
Theorem write_delete_candidates_manifest (env : os_env) (clock : nat -> Q)
    (candidates : list Report.t) (ages : list string)
    (output_path : string) (s : store) :
  dirname output_path <> "" ->
  makedirs_ok env (dirname output_path) = true ->
  open_ok env output_path = true ->
  report_ages_at clock 0 candidates ages ->
  (exists s',
     write_delete_candidates env clock candidates output_path s = (s', Ok tt)
     /\ s' output_path = Some (manifest_header ++ report_rows candidates ages)
     /\ (forall p, p <> output_path -> s' p = s p))
  /\ (forall i item age,
        report_ages_at clock i [item] [age] ->
        Report.latest item = None -> age = "unknown").
Proof.
  intros Hd Hmk Hop Hages. split.
  - unfold write_delete_candidates, makedirs.
    apply String.eqb_neq in Hd. rewrite Hd, Hmk, Hop.
    rewrite (write_delete_rows_ages _ _ _ _ _ Hages).
    eexists. split; [reflexivity|]. unfold store_write. split.
    + now rewrite String.eqb_refl.
    + intros p Hp. apply String.eqb_neq in Hp. now rewrite Hp.
  - intros i item age [H _] Hnone. rewrite Hnone in H. cbn in H. congruence.
Qed.

Lemma write_delete_candidates_manifest_witness :
  exists s',
    write_delete_candidates permissive (fun _ => sample_now)
      [ {| Report.path := "/Users/me/Library/Developer/Xcode/DerivedData";
           Report.size := 3300 * MB; Report.latest := Some (days_ago 2);
           Report.scanned := 6; Report.errors := 1 |};
        {| Report.path := "/Users/me/Library/Developer/Xcode/Archives";
           Report.size := 0; Report.latest := None;
           Report.scanned := 0; Report.errors := 0 |} ]
      "scripts/delete_candidates.csv" sample_store = (s', Ok tt)
    /\ s' "scripts/delete_candidates.csv"
       = Some ("path,size_bytes,age" ++ newline
               ++ "/Users/me/Library/Developer/Xcode/DerivedData,3460300800,2d"
               ++ newline
               ++ "/Users/me/Library/Developer/Xcode/Archives,0,unknown"
               ++ newline)
    /\ (forall p, p <> "scripts/delete_candidates.csv" -> s' p = sample_store p).
Proof.
  refine (proj1 (write_delete_candidates_manifest permissive
                   (fun _ => sample_now) _ ["2d"; "unknown"]
                   "scripts/delete_candidates.csv" sample_store _ _ _ _)).
  - vm_compute. discriminate.
  - reflexivity.
  - reflexivity.
  - vm_compute. repeat split.
Defined.

(** A probe that reads no file reports size zero and no latest time. *)
Lemma nothing_scanned (fl : stat_files) :
  count_scanned fl = 0%Z ->
  total_size fl = 0%Z /\ latest_after None fl = None.
Proof.
  induction fl as [|[name [st|]] rest IH];
    cbn [count_scanned total_size latest_after]; [auto | | exact IH].
  intro H. pose proof (count_scanned_nonneg rest). lia.
Qed.

(** X11: probing a directory in which no file can be read and writing
    the delete manifest for it gives the row [path,0,unknown]: the size is
    zero and the absent latest time is written as ["unknown"]. *)
Theorem unread_directory_row (fs : filesystem) (path : string) (n : node)
    (env : os_env) (clock : nat -> Q) (output_path : string) (s : store) :
  fs path = Some n ->
  count_scanned (walk_files (walk path n)) = 0%Z ->
  dirname output_path <> "" ->
  makedirs_ok env (dirname output_path) = true ->
  open_ok env output_path = true ->
  exists r s',
    report_path fs path None = Some r
    /\ write_delete_candidates env clock [r] output_path s = (s', Ok tt)
    /\ s' output_path
       = Some (manifest_header ++ path ++ ",0,unknown" ++ newline).
Proof.
  intros Hfs Hnone Hd Hmk Hop.
  destruct (nothing_scanned _ Hnone) as [Ht Hl].
  unfold report_path. rewrite Hfs, dir_size_uncapped, Ht, Hl, Hnone.
  eexists. eexists. split; [reflexivity|].
  unfold write_delete_candidates, makedirs.
  apply String.eqb_neq in Hd. rewrite Hd, Hmk, Hop.
  cbn [write_delete_rows Report.latest Report.path Report.size format_age].
  split; [reflexivity|]. unfold store_write. rewrite String.eqb_refl.
  reflexivity.
Qed.

Lemma unread_directory_row_witness :
  exists r s',
    report_path (env_fs sample_environment)
      "/Users/me/Library/Developer/Xcode/Archives" None = Some r
    /\ write_delete_candidates permissive (fun _ => sample_now) [r]
         "scripts/delete_candidates.csv" sample_store = (s', Ok tt)
    /\ s' "scripts/delete_candidates.csv"
       = Some (manifest_header
               ++ "/Users/me/Library/Developer/Xcode/Archives"
               ++ ",0,unknown" ++ newline).
Proof.
  apply (unread_directory_row (env_fs sample_environment)
           "/Users/me/Library/Developer/Xcode/Archives" (Dir false [])
           permissive (fun _ => sample_now)
           "scripts/delete_candidates.csv" sample_store).
  - reflexivity.
  - reflexivity.
  - vm_compute. discriminate.
  - reflexivity.
  - reflexivity.
Defined.

(** ** The entry point *)

Lemma keeps_calls_bind {A B : Type} (m : M A) (k : A -> M B) :
  keeps_calls m -> (forall a, keeps_calls (k a)) -> keeps_calls (bindM m k).
Proof.
  intros Hm Hk w. unfold bindM. specialize (Hm w).
  destruct (m w) as [w' [a|e]]; cbn [fst] in *; [|exact Hm].
  now rewrite Hk.
Qed.

Lemma changes_only_bind {A B : Type} (p : string) (m : M A) (k : A -> M B) :
  changes_only p m -> (forall a, changes_only p (k a)) ->
  changes_only p (bindM m k).
Proof.
  intros Hm Hk w q Hq. unfold bindM. specialize (Hm w q Hq).
  destruct (m w) as [w' [a|e]]; cbn [fst] in *; [|exact Hm].
  now rewrite Hk.
Qed.

Lemma keeps_calls_ret {A : Type} (a : A) : keeps_calls (ret a).
Proof. intro w. reflexivity. Qed.

Lemma keeps_calls_lift {A : Type} (r : result A) : keeps_calls (lift r).
Proof. intro w. reflexivity. Qed.

Lemma keeps_calls_print (line : string) : keeps_calls (print line).
Proof. intro w. reflexivity. Qed.

Lemma keeps_calls_time (clock : nat -> Q) : keeps_calls (time_time clock).
Proof. intro w. reflexivity. Qed.

Lemma keeps_calls_with_files clock readings write :
  keeps_calls (with_files clock readings write).
Proof. intro w. unfold with_files. destruct (write _ _). reflexivity. Qed.

Lemma keeps_calls_format_age clock ts : keeps_calls (format_age_now clock ts).
Proof.
  destruct ts as [t|]; cbn [format_age_now]; [|apply keeps_calls_lift].
  apply keeps_calls_bind; [apply keeps_calls_time|].
  intro now. apply keeps_calls_lift.
Qed.

Lemma changes_only_ret {A : Type} p (a : A) : changes_only p (ret a).
Proof. intros w q _. reflexivity. Qed.

Lemma changes_only_lift {A : Type} p (r : result A) : changes_only p (lift r).
Proof. intros w q _. reflexivity. Qed.

Lemma changes_only_print p (line : string) : changes_only p (print line).
Proof. intros w q _. reflexivity. Qed.

Lemma changes_only_time p (clock : nat -> Q) : changes_only p (time_time clock).
Proof. intros w q _. reflexivity. Qed.

Lemma changes_only_format_age p clock ts :
  changes_only p (format_age_now clock ts).
Proof.
  destruct ts as [t|]; cbn [format_age_now]; [|apply changes_only_lift].
  apply changes_only_bind; [apply changes_only_time|].
  intro now. apply changes_only_lift.
Qed.

Lemma write_delete_changes_only env clock items p s q :
  q <> p -> fst (write_delete_candidates env clock items p s) q = s q.
Proof.
  intro Hq. unfold write_delete_candidates.
  destruct (makedirs env (dirname p)); [|reflexivity].
  destruct (open_ok env p); [|reflexivity].
  destruct (write_delete_rows _ _ _ _) as [buf r]. cbn [fst].
  unfold store_write. apply String.eqb_neq in Hq. now rewrite Hq.
Qed.

Lemma report_loop_keeps e paths :
  forall found,
  keeps_calls (report_loop e paths found)
  /\ forall p, changes_only p (report_loop e paths found).
Proof.
  induction paths as [|path rest IH]; intro found; cbn [report_loop].
  - split; [apply keeps_calls_ret | intro p; apply changes_only_ret].
  - destruct (report_path (env_fs e) path None) as [info|]; [|apply IH].
    split.
    + apply keeps_calls_bind; [apply keeps_calls_lift|]. intro size_text.
      apply keeps_calls_bind; [apply keeps_calls_format_age|]. intro age_text.
      apply keeps_calls_bind; [apply keeps_calls_print|]. intros _. apply IH.
    + intro p.
      apply changes_only_bind; [apply changes_only_lift|]. intro size_text.
      apply changes_only_bind; [apply changes_only_format_age|]. intro age_text.
      apply changes_only_bind; [apply changes_only_print|]. intros _. apply IH.
Qed.

Ltac keeps_steps :=
  repeat first
    [ apply keeps_calls_print | apply keeps_calls_ret | apply keeps_calls_lift
    | apply keeps_calls_time | apply keeps_calls_with_files
    | apply changes_only_print | apply changes_only_ret
    | apply changes_only_lift | apply changes_only_time
    | (apply keeps_calls_bind; [|intro])
    | (apply changes_only_bind; [|intro]) ].

(** The report starts no command and writes no file but the delete
    manifest. *)
Lemma main_report_keeps e a :
  keeps_calls (main_report e a)
  /\ changes_only (Args.delete_output a) (main_report e a).
Proof.
  unfold main_report. split.
  - apply keeps_calls_bind; [apply keeps_calls_print | intros _].
    apply keeps_calls_bind; [apply report_loop_keeps | intro found].
    apply keeps_calls_bind; [destruct found; keeps_steps | intros _].
    destruct found; keeps_steps.
  - apply changes_only_bind; [apply changes_only_print | intros _].
    apply changes_only_bind; [apply report_loop_keeps | intro found].
    apply changes_only_bind; [destruct found; keeps_steps | intros _].
    destruct found as [|item found]; keeps_steps.
    intros w q Hq. unfold with_files. cbv zeta.
    pose proof (write_delete_changes_only (env_os e)
                  (fun k => env_clock e (ticks w + k)%nat) (item :: found)
                  (Args.delete_output a) (files w) q Hq) as H.
    destruct (write_delete_candidates _ _ _ _ _) as [s r]. exact H.
Qed.

Lemma main_scan_move_keeps e a : keeps_calls (main_scan_move e a).
Proof. unfold main_scan_move. keeps_steps. Qed.

Lemma main_report_args e a a' :
  Args.delete_output a = Args.delete_output a' ->
  main_report e a = main_report e a'.
Proof. intro H. unfold main_report. now rewrite H. Qed.

(** X12: when [main] returns, it has started the delegated command
    exactly when [--run-move] was given without [--xcode-only]: then the
    command is the one [run_move] builds from the root, the minimum size
    as typed, and the two flags, it is the only one started, and [main]
    returns its exit code.  Otherwise no command is started and the exit
    code is 0. *)
Theorem main_exit_code (e : environment) (a : Args.t) (w w' : world) (code : Z) :
  main e a w = (w', Ok code) ->
  let cmd := run_move_cmd (Args.root a) (Args.min_size a) (Args.no_claude a)
               (Args.include_system a) in
  if negb (Args.xcode_only a) && Args.run_move a
  then calls w' = (calls w ++ [cmd])%list /\ env_call e cmd = Ok code
  else calls w' = calls w /\ code = 0%Z.
Proof.
  unfold main, bindM. cbv zeta.
  pose proof (proj1 (main_report_keeps e a) w) as H1.
  destruct (main_report e a w) as [w1 [[]|err]]; [|discriminate].
  cbn [fst] in H1.
  destruct (Args.xcode_only a); cbn [negb andb].
  { unfold ret. intros [= <- <-]. now split. }
  assert (H2 : forall w2 r,
            (if Args.scan_move a then main_scan_move e a else ret tt) w1
            = (w2, r) -> calls w2 = calls w).
  { intros w2 r E. rewrite <- H1.
    destruct (Args.scan_move a).
    - pose proof (main_scan_move_keeps e a w1) as H. rewrite E in H. exact H.
    - unfold ret in E. now injection E as <- _. }
  destruct ((if Args.scan_move a then main_scan_move e a else ret tt) w1)
    as [w2 [[]|err]] eqn:E2; [|discriminate].
  specialize (H2 w2 _ eq_refl).
  destruct (Args.run_move a).
  - cbn. intros [= <- Hcode]. split; [now rewrite H2 | exact Hcode].
  - cbn. intros [= <- <-]. cbn. now split.
Qed.

Lemma main_exit_code_witness :
  exists w',
    main sample_environment (sample_args "500MB") empty_world = (w', Ok 3%Z)
    /\ calls w'
       = [ ["cargo"; "run"; "-p"; "move"; "--"; "suggest"; "--root";
            "/Users/me"; "--min-size"; "200MB"; "--include-system"] ].
Proof.
  eexists. split; [vm_compute; reflexivity|].
  refine (proj1 (main_exit_code sample_environment (sample_args "500MB")
                   empty_world _ 3 _)).
  vm_compute. reflexivity.
Defined.

(** X13: with [--xcode-only], [main] starts no command, writes no file
    other than the delete manifest, returns 0 when it returns, and does
    not depend on any other option: the size for the move scan is not even
    parsed. *)
Theorem main_xcode_only (e : environment) (a : Args.t) (w : world) :
  Args.xcode_only a = true ->
  calls (fst (main e a w)) = calls w
  /\ (forall q, q <> Args.delete_output a ->
        files (fst (main e a w)) q = files w q)
  /\ (forall code, snd (main e a w) = Ok code -> code = 0%Z)
  /\ (forall a', Args.xcode_only a' = true ->
        Args.delete_output a' = Args.delete_output a ->
        main e a' w = main e a w).
Proof.
  intro Hx.
  assert (Hmain : forall a0, Args.xcode_only a0 = true ->
            main e a0 w
            = match main_report e a0 w with
              | (w1, Ok _) => (w1, Ok 0%Z)
              | (w1, Err err) => (w1, Err err)
              end).
  { intros a0 H0. unfold main, bindM. rewrite H0. reflexivity. }
  rewrite (Hmain a Hx).
  destruct (main_report_keeps e a) as [Hc Hf].
  specialize (Hc w). pose proof (Hf w) as Hfw.
  split; [|split; [|split]].
  - destruct (main_report e a w) as [w1 [[]|err]]; exact Hc.
  - intros q Hq. specialize (Hfw q Hq).
    destruct (main_report e a w) as [w1 [[]|err]]; exact Hfw.
  - intro code. destruct (main_report e a w) as [w1 [[]|err]]; cbn [snd];
      congruence.
  - intros a' Hx' Hd. rewrite (Hmain a' Hx').
    now rewrite (main_report_args e a' a Hd).
Qed.

Lemma main_xcode_only_witness :
  main sample_environment (with_xcode_only (sample_args "not a size"))
    empty_world
  = main sample_environment (with_xcode_only (sample_args "500MB")) empty_world
  /\ calls (fst (main sample_environment
                   (with_xcode_only (sample_args "500MB")) empty_world))
     = [].
Proof.
  pose proof (main_xcode_only sample_environment
                (with_xcode_only (sample_args "500MB")) empty_world eq_refl)
    as (Hc & _ & _ & Ha).
  split; [|exact Hc].
  apply (Ha (with_xcode_only (sample_args "not a size"))); reflexivity.
Defined.

(** X14: in a run with [--scan-move] and without [--xcode-only], a size
    for the move scan that [parse_size] rejects is noticed only after the
    report: when the run with [--xcode-only] added would end in the world
    [w1], this run raises the error of [parse_size] in that same world,
    with the report printed and the delete manifest written, and nothing
    after it done. *)
Theorem main_late_value_error (e : environment) (a : Args.t) (w w1 : world)
    (err : exn) :
  Args.xcode_only a = false ->
  Args.scan_move a = true ->
  parse_size (Args.min_move_size a) = Err err ->
  main e (with_xcode_only a) w = (w1, Ok 0%Z) ->
  main e a w = (w1, Err err).
Proof.
  intros Hx Hs Hp. unfold main, bindM.
  rewrite (main_report_args e (with_xcode_only a) a eq_refl).
  rewrite Hx, Hs. cbn [with_xcode_only Args.xcode_only].
  destruct (main_report e a w) as [w0 [[]|err0]]; [|discriminate].
  unfold ret. intros [= ->].
  unfold main_scan_move, bindM, lift. rewrite Hp. reflexivity.
Qed.

Lemma main_late_value_error_witness :
  exists w1,
    main sample_environment (sample_args "not a size") empty_world
    = (w1, Err (ValueError "Invalid size: not a size"))
    /\ files w1 "scripts/delete_candidates.csv"
       = Some ("path,size_bytes,age" ++ newline
               ++ "/Users/me/Library/Developer/Xcode/DerivedData,3460300800,2d"
               ++ newline
               ++ "/Users/me/Library/Developer/Xcode/Archives,0,unknown"
               ++ newline)
    /\ files w1 "scripts/move_candidates.csv" = None
    /\ calls w1 = [].
Proof.
  eexists. split.
  - apply (main_late_value_error sample_environment (sample_args "not a size")
             empty_world);
      [reflexivity | reflexivity | reflexivity | vm_compute; reflexivity].
  - repeat split.
Defined.

(** ** Reading back a written number *)

Lemma digits_value_uint_acc (d : Decimal.uint) :
  forall p : positive,
  digits_value (Zpos p) (NilEmpty.string_of_uint d) = Zpos (Pos.of_uint_acc d p).
Proof.
  induction d; intro p; cbn [NilEmpty.string_of_uint digits_value Pos.of_uint_acc];
    [reflexivity | ..];
    match goal with
    | |- digits_value ?v _ = Zpos (Pos.of_uint_acc _ ?q) =>
        replace v with (Zpos q)
          by (match goal with
              | |- context [digit_value ?c] =>
                  let dv := eval vm_compute in (digit_value c) in
                  change (digit_value c) with dv
              end; lia)
    end; apply IHd.
Qed.

Lemma digits_value_uint (d : Decimal.uint) :
  digits_value 0 (NilEmpty.string_of_uint d) = Z.of_N (Pos.of_uint d).
Proof.
  induction d; cbn [NilEmpty.string_of_uint digits_value Pos.of_uint];
    [reflexivity | exact IHd | ..];
    match goal with
    | |- digits_value ?v _ = Z.of_N (Npos (Pos.of_uint_acc _ ?q)) =>
        replace v with (Zpos q)
          by (match goal with
              | |- context [digit_value ?c] =>
                  let dv := eval vm_compute in (digit_value c) in
                  change (digit_value c) with dv
              end; lia)
    end; apply digits_value_uint_acc.
Qed.

(** The decimal text of a non-negative integer reads back as the integer,
    and has no dot. *)
Lemma digits_value_str_of_int (n : Z) :
  (0 <= n)%Z -> digits_value 0 (str_of_int n) = n.
Proof.
  intro H. unfold str_of_int. destruct n as [|p|p]; try lia; [reflexivity|].
  cbn [Z.to_int NilZero.string_of_int]. unfold NilZero.string_of_uint.
  pose proof (DecimalPos.Unsigned.of_to p) as Hp.
  destruct (Pos.to_uint p) eqn:E;
    try (rewrite <- E in *; rewrite digits_value_uint, Hp; reflexivity).
  cbn in Hp. discriminate.
Qed.

Lemma filter_append (keep : ascii -> bool) (a b : string) :
  PyStr.filter keep (a ++ b) = PyStr.filter keep a ++ PyStr.filter keep b.
Proof.
  induction a as [|c a IH]; cbn [append PyStr.filter]; [reflexivity|].
  destruct (keep c); cbn [append]; now rewrite IH.
Qed.

Lemma filter_all (keep p : ascii -> bool) (s : string) :
  (forall c, p c = true -> keep c = true) ->
  PyStr.forallb p s = true -> PyStr.filter keep s = s.
Proof.
  intro Hp. induction s as [|c r IH]; cbn [PyStr.forallb PyStr.filter];
    [reflexivity|].
  intro H. apply andb_true_iff in H as [Hc Hr].
  now rewrite (Hp c Hc), (IH Hr).
Qed.

Lemma filter_none (keep p : ascii -> bool) (s : string) :
  (forall c, p c = true -> keep c = false) ->
  PyStr.forallb p s = true -> PyStr.filter keep s = "".
Proof.
  intro Hp. induction s as [|c r IH]; cbn [PyStr.forallb PyStr.filter];
    [reflexivity|].
  intro H. apply andb_true_iff in H as [Hc Hr].
  now rewrite (Hp c Hc), (IH Hr).
Qed.

Lemma digit_is_value_char (c : ascii) :
  is_ascii_digit c = true -> is_value_char c = true.
Proof.
  destruct c as [[] [] [] [] [] [] [] []]; try reflexivity; discriminate.
Qed.

Lemma digit_not_alpha (c : ascii) : is_ascii_digit c = true -> isalpha c = false.
Proof.
  destruct c as [[] [] [] [] [] [] [] []]; try reflexivity; discriminate.
Qed.

Lemma split_dot_digits (s : string) :
  PyStr.forallb is_ascii_digit s = true -> split_dot s = (s, None).
Proof.
  induction s as [|c r IH]; cbn [PyStr.forallb split_dot]; [reflexivity|].
  intro H. apply andb_true_iff in H as [Hc Hr].
  rewrite Ascii.eqb_sym, (is_ascii_digit_not_dot c Hc), (IH Hr). reflexivity.
Qed.

Section ReadBack.

Local Open Scope Q_scope.

Lemma float_of_str_digits (s : string) :
  all_digits s ->
  float_of_str s = Ok (round64 (inject_Z (digits_value 0 s))).
Proof.
  intros [Hne Hd]. unfold float_of_str. rewrite (split_dot_digits s Hd), Hd.
  cbn [PyStr.forallb andb length]. rewrite Nat.add_0_r, append_nil_r.
  destruct s as [|c r]; [contradiction|]. reflexivity.
Qed.

Lemma round64_inject_Z (n : Z) :
  (0 <= n < 2 ^ 53)%Z -> round64 (inject_Z n) = Fin (inject_Z n).
Proof.
  intro H. rewrite round64_exact, Qred_inject_Z; [reflexivity | |].
  - exists n, 0%Z. split; [exact H|]. split; [lia|].
    change (pow2 0) with 1. ring.
  - change (pow2 1024) with (inject_Z (2 ^ 1024)). rewrite <- Zlt_Qlt.
    assert (2 ^ 53 < 2 ^ 1024)%Z by (apply Z.pow_lt_mono_r; lia). lia.
Qed.

(** A product of an integer below [2^53] and a multiplier of the unit
    table is exact. *)
Lemma fmul_unit_exact (n k : Z) :
  (0 <= n < 2 ^ 53)%Z -> (0 <= k <= 4)%Z ->
  fmul (Fin (inject_Z n)) (inject_Z (1024 ^ k))
  = Fin (inject_Z (n * 1024 ^ k)).
Proof.
  intros Hn Hk. cbn [fmul].
  assert (E : inject_Z n * inject_Z (1024 ^ k) == inject_Z (n * 1024 ^ k))
    by (now rewrite inject_Z_mult).
  assert (Hpow : (1024 ^ k = 2 ^ (10 * k))%Z).
  { change 1024%Z with (2 ^ 10)%Z. rewrite <- Z.pow_mul_r by lia. reflexivity. }
  rewrite round64_exact.
  - f_equal. rewrite (Qred_complete _ _ E). apply Qred_inject_Z.
  - exists n, (10 * k)%Z. split; [exact Hn|]. split; [lia|].
    rewrite pow2_inject by lia. now rewrite Hpow.
  - rewrite E. change (pow2 1024) with (inject_Z (2 ^ 1024)).
    rewrite <- Zlt_Qlt, Hpow.
    assert (2 ^ (10 * k) <= 2 ^ 40)%Z by (apply Z.pow_le_mono_r; lia).
    assert (0 < 2 ^ (10 * k))%Z by (apply Z.pow_pos_nonneg; lia).
    assert (2 ^ 53 * 2 ^ 40 < 2 ^ 1024)%Z by reflexivity.
    nia.
Qed.

(** The text of a non-negative integer below [2^53] as numeric portion,
    with a recognised unit, parses to the integer times the multiplier. *)
Lemma parse_size_numeral (text : string) (n mult : Z) :
  (0 <= n < 2 ^ 53)%Z ->
  value_of text = str_of_int n ->
  unit_mult (unit_of text) = Some mult ->
  parse_size text = Ok (n * mult)%Z.
Proof.
  intros Hn Hv Hu. unfold parse_size. rewrite Hv, Hu.
  pose proof (str_of_int_digits n (proj1 Hn)) as Hd.
  assert (Hne : String.eqb (str_of_int n) "" = false)
    by (apply String.eqb_neq; apply Hd).
  rewrite Hne, (float_of_str_digits _ Hd).
  rewrite (digits_value_str_of_int n (proj1 Hn)), (round64_inject_Z n Hn).
  cbn [bind].
  apply unit_mult_table in Hu as (us & k & Htab & _ & ->).
  assert (Hk : (0 <= k <= 4)%Z).
  { cbn in Htab.
    repeat (destruct Htab as [Htab | Htab];
            [injection Htab as _ <-; lia|]).
    contradiction. }
  rewrite (fmul_unit_exact n k Hn Hk). cbn [int_of_float].
  now rewrite Qtrunc_inject_Z.
Qed.

End ReadBack.

Lemma alpha_not_value_char (c : ascii) :
  isalpha c = true -> is_value_char c = false.
Proof.
  destruct c as [[] [] [] [] [] [] [] []]; try reflexivity; discriminate.
Qed.

Lemma value_of_numeral_unit (s u : string) :
  PyStr.forallb is_ascii_digit s = true -> PyStr.forallb isalpha u = true ->
  value_of (s ++ u) = s /\ unit_of (s ++ u) = lower u.
Proof.
  intros Hs Hu. rewrite value_of_filter, unit_of_filter, !filter_append.
  rewrite (filter_all is_value_char is_ascii_digit s digit_is_value_char Hs).
  rewrite (filter_none is_value_char isalpha u alpha_not_value_char Hu).
  rewrite (filter_none isalpha is_ascii_digit s digit_not_alpha Hs).
  rewrite (filter_all isalpha isalpha u (fun c H => H) Hu).
  now rewrite append_nil_r.
Qed.

(** X15: a non-negative integer below [2^53] written in decimal and
    followed by a recognised unit, in any letter case, parses to exactly
    the integer times [1024^k], [k] being the unit's row in the table. *)
Theorem parse_size_integer (n k : Z) (us : list string) (u : string) :
  (0 <= n < 2 ^ 53)%Z ->
  In (us, k) unit_table ->
  PyStr.forallb isalpha u = true ->
  In (lower u) us ->
  parse_size (str_of_int n ++ u) = Ok (n * 1024 ^ k)%Z.
Proof.
  intros Hn Htab Hu Hin.
  destruct (value_of_numeral_unit (str_of_int n) u) as [Hv Hunit];
    [apply str_of_int_digits; lia | exact Hu |].
  apply (parse_size_numeral _ n (1024 ^ k) Hn Hv).
  rewrite Hunit. apply unit_mult_table. exists us, k. auto.
Qed.

Lemma parse_size_integer_witness :
  parse_size "200MB" = Ok (200 * 1024 ^ 2)%Z.
Proof.
  apply (parse_size_integer 200 2 ["m"; "mb"; "mib"] "MB").
  - lia.
  - cbn. auto.
  - reflexivity.
  - cbn. auto.
Defined.

Section RoundTrip.

Local Open Scope Q_scope.

(** X16: below 1024 bytes rendering loses nothing: the text
    [format_size] returns parses back to the same number of bytes. *)
Theorem parse_format_small (n : Z) :
  (0 <= n < 1024)%Z ->
  exists text, format_size n = Ok text /\ parse_size text = Ok n.
Proof.
  intro Hn.
  assert (H53 : (0 <= n < 2 ^ 53)%Z).
  { assert (2 ^ 53 = 9007199254740992)%Z by reflexivity. lia. }
  exists (str_of_int n ++ " B")%string. split.
  - unfold format_size, float_of_int. rewrite (round64_inject_Z n H53).
    cbn [bind]. unfold size_units. cbn [format_size_loop flt].
    assert (E : Qltb (inject_Z n) 1024 = true).
    { apply Qltb_lt. change 1024 with (inject_Z 1024). rewrite <- Zlt_Qlt. lia. }
    rewrite E. cbn [String.eqb Ascii.eqb Bool.eqb int_of_float bind].
    now rewrite Qtrunc_inject_Z.
  - rewrite <- (Z.mul_1_r n) at 2.
    apply (parse_size_numeral _ n 1 H53).
    + rewrite value_of_filter, filter_append.
      rewrite (filter_all is_value_char is_ascii_digit _ digit_is_value_char);
        [apply append_nil_r | apply str_of_int_digits; lia].
    + rewrite unit_of_filter, filter_append.
      rewrite (filter_none isalpha is_ascii_digit _ digit_not_alpha);
        [reflexivity | apply str_of_int_digits; lia].
Qed.

Lemma parse_format_small_witness :
  exists text, format_size 1023 = Ok text /\ parse_size text = Ok 1023%Z.
Proof. apply (parse_format_small 1023). lia. Defined.

End RoundTrip.

Lemma one_decimal_value (v : string) :
  one_decimal v ->
  well_formed_number v = true /\ v <> ""
  /\ PyStr.forallb is_value_char v = true
  /\ PyStr.filter isalpha v = "".
Proof.
  intros (whole & d & -> & [Hne Hd] & Hdig).
  destruct (digits_no_dot whole Hd) as (H1 & H2 & H3).
  assert (Hdot : Ascii.eqb "." d = false) by now apply is_ascii_digit_not_dot.
  split; [|split; [|split]].
  - unfold well_formed_number.
    rewrite forallb_append, !count_append, H1, H2, H3.
    cbn [append PyStr.forallb count]. rewrite Hdig, Hdot.
    cbn [orb andb Nat.add Nat.leb].
    change (is_ascii_digit ".") with false.
    change (Ascii.eqb "." ".")%char with true. cbn [orb andb].
    rewrite Nat.add_1_r. reflexivity.
  - destruct whole; [contradiction | discriminate].
  - rewrite forallb_append.
    rewrite (proj2 (andb_true_iff _ _)); [reflexivity|]. split.
    + clear - Hd. induction whole as [|c r IH]; [reflexivity|].
      cbn [PyStr.forallb] in *. apply andb_true_iff in Hd as [Hc Hr].
      now rewrite (digit_is_value_char c Hc), (IH Hr).
    + cbn [append PyStr.forallb]. now rewrite (digit_is_value_char d Hdig).
  - rewrite filter_append.
    rewrite (filter_none isalpha is_ascii_digit whole digit_not_alpha Hd).
    cbn [append PyStr.filter]. now rewrite (digit_not_alpha d Hdig).
Qed.

(** A number with one decimal place followed by a blank and letters that
    are no recognised unit. *)
Lemma parse_size_unknown_unit (v u : string) :
  one_decimal v -> PyStr.forallb isalpha u = true ->
  unit_mult (lower u) = None ->
  parse_size (v ++ " " ++ u)
  = Err (ValueError ("Unknown size unit: " ++ lower u)).
Proof.
  intros Hv Hu Hnone.
  destruct (one_decimal_value v Hv) as (Hwf & Hne & Hval & Halpha).
  assert (Ev : value_of (v ++ " " ++ u) = v).
  { rewrite value_of_filter, filter_append.
    rewrite (filter_all is_value_char is_value_char v (fun c H => H) Hval).
    cbn [append PyStr.filter]. change (is_value_char " ") with false.
    cbn iota.
    rewrite (filter_none is_value_char isalpha u alpha_not_value_char Hu).
    apply append_nil_r. }
  assert (Eu : unit_of (v ++ " " ++ u) = lower u).
  { rewrite unit_of_filter, filter_append, Halpha.
    cbn [append PyStr.filter]. change (isalpha " ") with false. cbn iota.
    now rewrite (filter_all isalpha isalpha u (fun c H => H) Hu). }
  unfold parse_size. cbv zeta. rewrite Ev, Eu.
  destruct (String.eqb v "") eqn:E; [apply String.eqb_eq in E; contradiction|].
  destruct (proj2 (float_of_str_well_formed v) Hwf) as [x Hx].
  rewrite Hx. cbn [bind]. now rewrite Hnone.
Qed.

Section LargeRenderings.

Local Open Scope Q_scope.

(** X17: from [1024^5] bytes on, the two functions no longer agree on
    units: [format_size] renders in [PB] or [EB], and [parse_size]
    rejects that very text as an unknown unit. *)
Theorem parse_format_large (n : Z) (x : Q) :
  (1024 ^ 5 <= n)%Z -> float_of_int n = Ok x ->
  exists text,
    format_size n = Ok text
    /\ parse_size text
       = Err (ValueError
                ("Unknown size unit: " ++ (if Qltb x (kibi 6) then "pb" else "eb"))).
Proof.
  intros Hn Hx.
  assert (Hn0 : (0 <= n)%Z).
  { assert (1024 ^ 5 = 1125899906842624)%Z by reflexivity. lia. }
  destruct (float_of_int_result n x Hn0 Hx)
    as (Hrep & Hlt & Hred & Hx0 & Hsmall & Hbig).
  assert (H50 : kibi 5 <= x).
  { change (kibi 5) with (pow2 50). apply Hbig; [lia|].
    change (2 ^ 50)%Z with (1024 ^ 5)%Z. exact Hn. }
  assert (E : 1024 <= x).
  { eapply Qle_trans; [|exact H50]. discriminate. }
  destruct (fdiv_1024_exact x Hrep Hlt E) as (Hf & Hrep' & Hlt' & Hv0').
  assert (Hstep : format_size n
                  = format_size_loop ["KB"; "MB"; "GB"; "TB"; "PB"]%string
                      (Fin (Qred (x / 1024)))).
  { unfold format_size. rewrite Hx. cbn [bind].
    unfold size_units. cbn [format_size_loop flt].
    rewrite (proj2 (Qltb_ge _ _) E), Hf. reflexivity. }
  rewrite Hstep.
  destruct (format_size_loop_tail ["KB"; "MB"; "GB"; "TB"; "PB"]%string
              (Qred (x / 1024)) x 1)
    as (k & Hk & Hres & Hup & Hlow); auto.
  { cbn [In]. intros [H|[H|[H|[H|[H|H]]]]]; try discriminate H. exact H. }
  { rewrite Qred_correct. unfold kibi. reflexivity. }
  cbn [List.length Nat.add] in *.
  assert (Hdec : one_decimal (format_1f (Fin (x / kibi (S k))))).
  { apply format_1f_one_decimal.
    apply Qle_shift_div_l; [apply kibi_pos|]. now rewrite Qmult_0_l. }
  assert (Hk4 : (4 <= k)%nat).
  { destruct (Nat.lt_ge_cases k 4) as [H | H]; [exfalso | exact H].
    apply (Qlt_not_le x (kibi 5)); [|exact H50].
    eapply Qlt_le_trans; [apply Hup; lia|]. apply kibi_le. lia. }
  rewrite Hres. eexists. split; [reflexivity|].
  assert (Hcase : k = 4%nat \/ k = 5%nat) by lia.
  destruct Hcase as [-> | ->]; cbn [nth].
  - rewrite (proj2 (Qltb_lt x (kibi 6))) by (apply Hup; lia).
    now apply (parse_size_unknown_unit _ "PB").
  - rewrite (proj2 (Qltb_ge x (kibi 6))) by (apply Hlow; lia).
    now apply (parse_size_unknown_unit _ "EB").
Qed.

Lemma parse_format_large_witness :
  exists text,
    format_size (1024 ^ 5) = Ok text
    /\ parse_size text = Err (ValueError "Unknown size unit: pb").
Proof.
  apply (parse_format_large (1024 ^ 5) (inject_Z (1024 ^ 5))).
  - lia.
  - vm_compute. reflexivity.
Defined.

End LargeRenderings.

Section NegativeSizes.

Local Open Scope Q_scope.

(** X18: a negative byte count is never scaled: whatever its magnitude
    it is rendered in bytes, as the integer its float truncates to, which
    is the count itself above [-2^53]. *)
Theorem format_size_negative (n : Z) (x : Q) :
  (n < 0)%Z -> float_of_int n = Ok x ->
  format_size n = Ok (str_of_int (Qtrunc x) ++ " B")%string
  /\ ((- 2 ^ 53 < n)%Z -> Qtrunc x = n).
Proof.
  intros Hn Hx. destruct n as [|p|p]; try lia.
  assert (Hshape : exists v, round64_pos (inject_Z (Zpos p)) = Fin v
                             /\ x = Qred (- v)).
  { change (match
              match round64_pos (inject_Z (Zpos p)) with
              | Fin v => Fin (Qred (- v))
              | Inf _ => Inf true
              | NaN => NaN
              end
            with
            | Fin q => Ok q
            | _ => Err (OverflowError "int too large to convert to float")
            end = Ok x) in Hx.
    destruct (round64_pos (inject_Z (Zpos p))) as [v| |]; try discriminate.
    exists v. split; [reflexivity | congruence]. }
  destruct Hshape as (v & Hv & ->).
  pose proof (round64_pos_result (inject_Z (Zpos p)) eq_refl) as Hr.
  rewrite Hv in Hr. destruct Hr as (Hrep & _).
  assert (Hle : Qred (- v) < 1024).
  { rewrite Qred_correct. apply Qle_lt_trans with 0; [|reflexivity].
    apply representable_nonneg in Hrep.
    apply (Qopp_le_compat 0 v) in Hrep. exact Hrep. }
  split.
  - unfold format_size. rewrite Hx. cbn [bind].
    unfold size_units. cbn [format_size_loop flt].
    rewrite (proj2 (Qltb_lt _ _) Hle). reflexivity.
  - intro Hsmall.
    assert (E : round64 (inject_Z (Zpos p)) = Fin (inject_Z (Zpos p))).
    { apply round64_inject_Z. lia. }
    change (round64 (inject_Z (Zpos p)))
      with (round64_pos (inject_Z (Zpos p))) in E.
    rewrite Hv in E. injection E as ->.
    change (- inject_Z (Zpos p)) with (inject_Z (Zneg p)).
    now rewrite Qred_inject_Z, Qtrunc_inject_Z.
Qed.

Lemma format_size_negative_witness :
  format_size (-5368709120) = Ok "-5368709120 B"%string.
Proof.
  apply (format_size_negative (-5368709120) (inject_Z (-5368709120))).
  - lia.
  - vm_compute. reflexivity.
Defined.

End NegativeSizes.

(** X19: on a machine where none of the four cache directories exists,
    [main] with [--xcode-only] prints the heading, ["- (none found)"] and
    the five lines of manual commands, returns 0, and does nothing else:
    no file is written, not even the delete manifest, the clock is not
    read and no command is started. *)
Theorem main_none_found (e : environment) (a : Args.t) (w : world) :
  (forall p, In p (xcode_paths (env_home e)) -> env_fs e p = None) ->
  Args.xcode_only a = true ->
  main e a w
  = ({| stdout :=
          (stdout w
           ++ [ "Xcode cleanup targets:";
                "- (none found)";
                (newline ++ "Suggested safe cleanup commands (manual):")%string;
                "- rm -rf ~/Library/Developer/Xcode/DerivedData";
                "- rm -rf ~/Library/Developer/Xcode/Archives";
                "- rm -rf ~/Library/Developer/CoreSimulator/Devices";
                "- rm -rf ~/Library/Developer/Xcode/iOS\ DeviceSupport" ])%list;
        files := files w; ticks := ticks w; calls := calls w |}, Ok 0%Z).
Proof.
  intros Hnone Hx.
  assert (Hloop : forall paths found,
            (forall p, In p paths -> env_fs e p = None) ->
            report_loop e paths found = ret found).
  { induction paths as [|p rest IH]; intros found H; [reflexivity|].
    cbn [report_loop]. unfold report_path.
    rewrite (H p (or_introl eq_refl)).
    apply IH. intros q Hq. apply H. now right. }
  unfold main, main_report. rewrite (Hloop _ [] Hnone), Hx.
  unfold bindM, print, ret. cbn [stdout files ticks calls].
  now rewrite <- !app_assoc.
Qed.

Lemma main_none_found_witness :
  snd (main {| env_fs := fun _ => None; env_home := "/Users/me";
               env_os := permissive; env_call := fun _ => Ok 3%Z;
               env_clock := fun _ => sample_now |}
         (with_xcode_only (sample_args "500MB")) empty_world)
  = Ok 0%Z.
Proof.
  exact (f_equal snd
           (main_none_found
              {| env_fs := fun _ => None; env_home := "/Users/me";
                 env_os := permissive; env_call := fun _ => Ok 3%Z;
                 env_clock := fun _ => sample_now |}
              (with_xcode_only (sample_args "500MB")) empty_world
              (fun p _ => eq_refl) eq_refl)).
Defined.
